(** * WLED 2D core: matrix mapper, segment pixel accessors, 2D transitions

    A shallow embedding of [wled00/FX_2Dfcn.cpp] and its properties.

    Definitions:
    - [Mapper]: [WS2812FX::setUpMatrix], the construction of the ledmap from
      the panel list and the optional gap table;
    - [Seg]: [Segment::XY], [Segment::setPixelColorXY] (integer and
      anti-aliased) and [Segment::getPixelColorXY];
    - [Transition]: [Segment::render2DTransition].

    Properties: [MapperFacts], [SegFacts] and [TransitionFacts].

    Machine integers are [Z] with the wrap-around of the C types written out
    ([to_u16], [to_u32]); arrays are lists read with [rd] and written with
    [wr]; a division by zero is [None].  What FX_2Dfcn.cpp only calls or
    reads (the strip accessor, the colour helpers, [hashInt], [MAX_LEDS],
    the accessors of a segment) is a parameter of the model. *)

From Stdlib Require Import ZArith Lia Bool.
From stdpp Require Import base option list list_numbers.

Local Open Scope Z_scope.

(** ** Machine arithmetic *)

(** Conversion to [uint16_t]. *)
Definition to_u16 (z : Z) : Z := z mod 65536.

(** Conversion to [uint32_t] / [unsigned]. *)
Definition to_u32 (z : Z) : Z := z mod 4294967296.

(** Arduino's [constrain(amt, low, high)]. *)
Definition constrain (amt low high : Z) : Z :=
  if amt <? low then low else if amt >? high then high else amt.

(** Array read [a[i]]; an index outside the array reads 0 in the model. *)
Definition rd (a : list Z) (i : Z) : Z :=
  if i <? 0 then 0 else default 0 (a !! Z.to_nat i).

(** Array write [a[i] = v]; an index outside the array leaves it unchanged
    in the model. *)
Definition wr (a : list Z) (i v : Z) : list Z :=
  if i <? 0 then a else <[Z.to_nat i := v]> a.

(** ** The matrix mapper: [WS2812FX::setUpMatrix] *)

Module Mapper.

(** A panel ([Panel] in FX.h): offsets and extents in LEDs and the four
    orientation flags. *)
Record Panel := mkPanel {
  xOffset : Z;
  yOffset : Z;
  width : Z;
  height : Z;
  bottomStart : bool;
  rightStart : bool;
  vertical : bool;
  serpentine : bool
}.

(** The part of [WS2812FX] (and the statics [Segment::maxWidth],
    [Segment::maxHeight]) that [setUpMatrix] reads and writes.
    [customMappingTable = None] is the null pointer; [segmentResets] counts
    the calls of [resetSegments()]. *)
Record WS2812FX := mkStrip {
  isMatrix : bool;
  panel : list Panel;
  panels : Z;
  _length : Z;
  maxWidth : Z;
  maxHeight : Z;
  customMappingTable : option (list Z);
  customMappingSize : Z;
  segmentResets : nat
}.

(** What the platform answers during one call: whether [new uint16_t[..]]
    succeeds, the integers of the JSON array in /2d-gaps.json (when the file
    exists, the buffer lock is obtained, the file parses and holds an array),
    and whether [new int8_t[..]] succeeds. *)
Record Host := mkHost {
  tableAlloc : bool;
  gapsJson : option (list Z);
  gapAlloc : bool
}.

(** The sentinel of an unmapped cell. *)
Definition SENTINEL : Z := 0xFFFF.

(** One step of the loop over the panels that computes the matrix
    dimensions. *)
Definition grow_bounds (wh : Z * Z) (p : Panel) : Z * Z :=
  (if xOffset p + width p >? fst wh then to_u16 (xOffset p + width p) else fst wh,
   if yOffset p + height p >? snd wh then to_u16 (yOffset p + height p) else snd wh).

Definition matrix_bounds (ps : list Panel) : Z * Z :=
  foldl grow_bounds (1, 1) ps.

(** Modelled from the spec: [getLengthTotal()] is defined outside
    FX_2Dfcn.cpp.  The spec sizes the table as one entry per cell of the
    bounding rectangle plus one per trailing one-dimensional pixel beyond
    the matrix, the device's total pixel count. *)
Definition getLengthTotal (mw mh len : Z) : Z := Z.max (mw * mh) len.

(** The two initialisation loops: sentinel over the matrix area, identity
    over the trailing LEDs. *)
Definition fill_table (t : list Z) (matrixSize total : Z) : list Z :=
  foldl (fun t i => wr t i (to_u16 i))
        (foldl (fun t i => wr t i SENTINEL) t (seqZ 0 matrixSize))
        (seqZ matrixSize (total - matrixSize)).

(** Loading the gap table: kept only when the array is at least as long as
    the matrix and its buffer could be allocated; every value is clamped to
    -1, 0 or 1. *)
Definition load_gaps (host : Host) (matrixSize : Z) : option (list Z) :=
  match gapsJson host with
  | Some map =>
      if (matrixSize <=? Z.of_nat (length map)) && gapAlloc host
      then Some ((fun v => constrain v (-1) 1) <$> map)
      else None
  | None => None
  end.

(** The scan lengths [h] and [v] of a panel. *)
Definition scan_h (p : Panel) : Z :=
  to_u16 (if vertical p then height p else width p).
Definition scan_v (p : Panel) : Z :=
  to_u16 (if vertical p then width p else height p).

(** The local coordinates [x] and [y] computed at loop position [(j, i)]. *)
Definition local_y (p : Panel) (j : Z) : Z :=
  to_u16 (if (if vertical p then rightStart p else bottomStart p)
          then scan_v p - j - 1 else j).

Definition local_x (p : Panel) (j i : Z) : Z :=
  let x := to_u16 (if (if vertical p then bottomStart p else rightStart p)
                   then scan_h p - i - 1 else i) in
  to_u16 (if serpentine p && negb (j mod 2 =? 0) then scan_h p - x - 1 else x).

(** The matrix column and row of the cell visited at [(j, i)]. *)
Definition cell_col (p : Panel) (j i : Z) : Z :=
  xOffset p + (if vertical p then local_y p j else local_x p j i).
Definition cell_row (p : Panel) (j i : Z) : Z :=
  yOffset p + (if vertical p then local_x p j i else local_y p j).

(** [index] of the cell visited at [(j, i)]. *)
Definition cell_index (mw : Z) (p : Panel) (j i : Z) : Z :=
  cell_row p j i * mw + cell_col p j i.

(** The loop positions of a panel and of the whole panel list, in the order
    the three nested loops visit them. *)
Definition panel_cells (mw : Z) (p : Panel) : list Z :=
  seqZ 0 (scan_v p) ≫= (fun j => (fun i => cell_index mw p j i) <$> seqZ 0 (scan_h p)).

Definition matrix_cells (mw : Z) (ps : list Panel) : list Z :=
  ps ≫= panel_cells mw.

(** The value [gapTable[index]] tested against [thr] with the given
    comparison, under [!gapTable || (gapTable && ...)]. *)
Definition gap_allows (gapTable : option (list Z)) (index : Z) (cmp : Z -> bool) : bool :=
  match gapTable with
  | None => true
  | Some g => cmp (rd g index)
  end.

(** The body of the innermost loop: the state is the table and [pix]. *)
Definition scan_cell (gapTable : option (list Z)) (st : list Z * Z) (index : Z)
  : list Z * Z :=
  let t := if gap_allows gapTable index (fun g => g >? 0)
           then wr (fst st) index (snd st) else fst st in
  let pix := if gap_allows gapTable index (fun g => g >=? 0)
             then to_u16 (snd st + 1) else snd st in
  (t, pix).

Definition scan (gapTable : option (list Z)) (t : list Z) (cells : list Z)
  : list Z * Z :=
  foldl (scan_cell gapTable) (t, 0) cells.

(** The state left by both failure paths. *)
Definition fall_back (s : WS2812FX) (size : Z) : WS2812FX :=
  {| isMatrix := false;
     panel := [];
     panels := 0;
     _length := _length s;
     maxWidth := _length s;
     maxHeight := 1;
     customMappingTable := customMappingTable s;
     customMappingSize := size;
     segmentResets := S (segmentResets s) |}.

Section SetUp.

(** [MAX_LEDS] is a build-time constant of const.h. *)
Variable MAX_LEDS : Z.

Definition bounds_error (mw mh : Z) : bool :=
  (mw * mh >? MAX_LEDS) || (mw <=? 1) || (mh <=? 1).

Definition setUpMatrix (host : Host) (s : WS2812FX) : WS2812FX :=
  if negb (isMatrix s) then s else
  let mw := fst (matrix_bounds (panel s)) in
  let mh := snd (matrix_bounds (panel s)) in
  if bounds_error mw mh then fall_back s (customMappingSize s) else
  let total := getLengthTotal mw mh (_length s) in
  let table :=
    match customMappingTable s with
    | Some t => Some t
    | None => if tableAlloc host
              then Some (replicate (Z.to_nat total) 0) else None
    end in
  match table with
  | Some t =>
      let matrixSize := mw * mh in
      let t0 := fill_table t matrixSize total in
      let gapTable := load_gaps host matrixSize in
      {| isMatrix := true;
         panel := panel s;
         panels := panels s;
         _length := _length s;
         maxWidth := mw;
         maxHeight := mh;
         customMappingTable := Some (fst (scan gapTable t0 (matrix_cells mw (panel s))));
         customMappingSize := total;
         segmentResets := segmentResets s |}
  | None => fall_back s 0
  end.

End SetUp.

(** A strip in matrix mode without any panel: the bounds check fails. *)
Definition no_panels : WS2812FX := mkStrip true [] 0 30 1 1 None 0 0.

(** *** Panel lists and the invariant of the table *)

(** The fields of a panel hold unsigned values and its far corner fits a
    [uint16_t]. *)
Definition panel_ok (p : Panel) : Prop :=
  0 <= xOffset p /\ 0 <= yOffset p /\ 0 <= width p /\ 0 <= height p /\
  xOffset p + width p <= 65535 /\ yOffset p + height p <= 65535.

(** The cell in column [c] and row [r] of the matrix belongs to the panel. *)
Definition covers (p : Panel) (c r : Z) : Prop :=
  (xOffset p <= c < xOffset p + width p) /\ (yOffset p <= r < yOffset p + height p).

(** No cell belongs to both panels. *)
Definition apart (p q : Panel) : Prop :=
  forall c r, covers p c r -> ~ covers q c r.

(** No two panels of the list share a cell. *)
Fixpoint no_overlap (ps : list Panel) : Prop :=
  match ps with
  | [] => True
  | p :: qs => Forall (apart p) qs /\ no_overlap qs
  end.

(** The table has [total] entries, and every entry other than the sentinel
    is below [total] and occurs once. *)
Definition table_valid (t : list Z) (total : Z) : Prop :=
  Z.of_nat (length t) = total
  /\ (forall (n : nat) v, t !! n = Some v -> v <> SENTINEL -> 0 <= v < total)
  /\ (forall (n m : nat) v,
        t !! n = Some v -> t !! m = Some v -> v <> SENTINEL -> n = m).

(** The invariant of the scan over the first [M] entries: each is the
    sentinel or a physical index below [pix], and no physical index occurs
    twice. *)
Definition fresh_below (M : Z) (t : list Z) (pix : Z) : Prop :=
  (forall (n : nat) v, Z.of_nat n < M -> t !! n = Some v ->
     v = SENTINEL \/ 0 <= v < pix)
  /\ (forall (n m : nat) v, Z.of_nat n < M -> Z.of_nat m < M ->
        t !! n = Some v -> t !! m = Some v -> v <> SENTINEL -> n = m).

(** The table of a strip, [None] when there is none. *)
Definition table_of (s : WS2812FX) : list Z :=
  default [] (customMappingTable s).

(** Two 2x2 panels laid on the same four cells, and two trailing LEDs. *)
Definition panel_2x2 : Panel := mkPanel 0 0 2 2 false false false false.
Definition stacked_panels : WS2812FX :=
  mkStrip true [panel_2x2; panel_2x2] 2 6 1 1 None 0 0.

(** Two 2x2 panels side by side, the second serpentine from the bottom
    right, and two trailing LEDs. *)
Definition side_by_side : WS2812FX :=
  mkStrip true [panel_2x2; mkPanel 2 0 2 2 true true false true] 2 10 1 1 None 0 0.

(** The same two panels on a strip that still holds the four-entry table
    of an earlier, smaller set-up. *)
Definition reused_table : WS2812FX :=
  mkStrip true [panel_2x2; mkPanel 2 0 2 2 true true false true] 2 10 1 1
          (Some [0; 1; 2; 3]) 4 0.

(** A 4x4 panel at the origin and a 4x1 panel whose columns run past
    65535: the two share no cell, and [maxWidth] wraps around to 2. *)
Definition far_panels : WS2812FX :=
  mkStrip true [mkPanel 0 0 4 4 false false false false;
                mkPanel 65534 0 4 1 false false false false] 2 8 1 1 None 0 0.

End Mapper.

(** ** Segment pixel accessors *)

(** C integer division and remainder of non-negative operands; [None] is
    the division by zero. *)
Definition c_div (a b : Z) : option Z := if b =? 0 then None else Some (a / b).
Definition c_mod (a b : Z) : option Z := if b =? 0 then None else Some (a mod b).

(** The strip accessor [strip.setPixelColorXY] / [strip.getPixelColorXY],
    an external collaborator working on physical coordinates. *)
Class StripAccessor (S : Type) := {
  strip_setPixelColorXY : Z -> Z -> Z -> S -> S;
  strip_getPixelColorXY : Z -> Z -> S -> Z
}.

(** A strip accessor that stores and returns colours faithfully. *)
Class FaithfulStrip (S : Type) `{StripAccessor S} := {
  strip_get_set_same : forall x y c s,
    strip_getPixelColorXY x y (strip_setPixelColorXY x y c s) = c;
  strip_get_set_other : forall x y x' y' c s,
    (x, y) <> (x', y') ->
    strip_getPixelColorXY x' y' (strip_setPixelColorXY x y c s) =
    strip_getPixelColorXY x' y' s
}.

(** The colour helpers of the firmware used by this file: the channel
    accessors and constructor of a 32-bit colour, FastLED's [scale8] and
    [color_blend] (with its 16-bit flag). *)
Class ColorOps := {
  R : Z -> Z;
  G : Z -> Z;
  B : Z -> Z;
  W : Z -> Z;
  RGBW32 : Z -> Z -> Z -> Z -> Z;
  scale8 : Z -> Z -> Z;
  color_blend : Z -> Z -> Z -> bool -> Z
}.

(** A plain strip: a function from physical coordinates to colours. *)
Definition plain_set (x y c : Z) (s : Z -> Z -> Z) : Z -> Z -> Z :=
  fun x' y' => if (x =? x') && (y =? y') then c else s x' y'.

#[export] Instance plain_strip : StripAccessor (Z -> Z -> Z) := {
  strip_setPixelColorXY := plain_set;
  strip_getPixelColorXY := fun x y s => s x y
}.

(** 8-bit channels packed as W, R, G, B from the high byte, an integer
    [scale8] and a linear blend per colour, for running the model. *)
#[export] Instance packed_colors : ColorOps := {
  R := fun c => Z.land (Z.shiftr c 16) 255;
  G := fun c => Z.land (Z.shiftr c 8) 255;
  B := fun c => Z.land c 255;
  W := fun c => Z.land (Z.shiftr c 24) 255;
  RGBW32 := fun r g b w =>
    Z.lor (Z.lor (Z.shiftl (Z.land w 255) 24) (Z.shiftl (Z.land r 255) 16))
          (Z.lor (Z.shiftl (Z.land g 255) 8) (Z.land b 255));
  scale8 := fun i s => (i * s) / 256;
  color_blend := fun c1 c2 a b16 =>
    let m := if b16 then 65535 else 255 in (c1 * (m - a) + c2 * a) / m
}.

Module Seg.

(** The state of a segment that the accessors read: the origin, the values
    of [isActive()], [width()], [height()], [virtualWidth()],
    [virtualHeight()], [groupLength()] and [currentBri()] (all defined
    outside FX_2Dfcn.cpp), the grouping factor and the transform flags. *)
Record Segment := mkSegment {
  start : Z;
  startY : Z;
  isActive : bool;
  width : Z;
  height : Z;
  virtualWidth : Z;
  virtualHeight : Z;
  grouping : Z;
  groupLength : Z;
  reverse : bool;
  reverse_y : bool;
  transpose : bool;
  mirror : bool;
  mirror_y : bool;
  currentBri : Z
}.

(** What a pixel write changes: the transient buffer [_activeBuffer]
    ([None] is the null pointer) and the strip. *)
Record Frame (S : Type) := mkFrame {
  _activeBuffer : option (list Z);
  strip : S
}.
Arguments mkFrame {S} _ _.
Arguments _activeBuffer {S} _.
Arguments strip {S} _.

(** [Segment::XY]: the index of a logical pixel in the segment;
    [None] is a remainder by zero. *)
Definition XY (seg : Segment) (x y : Z) : option Z :=
  let width := virtualWidth seg in
  let height := virtualHeight seg in
  if isActive seg then
    match c_mod x width, c_mod y height with
    | Some xm, Some ym => Some (to_u16 (xm + ym * width))
    | _, _ => None
    end
  else Some 0.

Section Accessors.

Context {S : Type} `{StripAccessor S} `{ColorOps}.

(** The brightness scaling at the head of [setPixelColorXY]. *)
Definition scaled (col bri : Z) : Z :=
  if bri <? 255
  then RGBW32 (scale8 (R col) bri) (scale8 (G col) bri)
              (scale8 (B col) bri) (scale8 (W col) bri)
  else col.

(** The strip calls of one iteration of the grouping loops, for the
    physical cell [(xX, yY)], in the order of the source. *)
Definition cell_writes (seg : Segment) (xX yY col : Z) : list (Z * Z * Z) :=
  [(start seg + xX, startY seg + yY, col)]
  ++ (if mirror seg then
        [if transpose seg
         then (start seg + xX, startY seg + height seg - yY - 1, col)
         else (start seg + width seg - xX - 1, startY seg + yY, col)]
      else [])
  ++ (if mirror_y seg then
        [if transpose seg
         then (start seg + width seg - xX - 1, startY seg + yY, col)
         else (start seg + xX, startY seg + height seg - yY - 1, col)]
      else [])
  ++ (if mirror_y seg && mirror seg then
        [(width seg - xX - 1, height seg - yY - 1, col)]
      else []).

(** The strip calls of the two grouping loops, started at the expanded
    coordinates [(x, y)]. *)
Definition group_writes (seg : Segment) (x y col : Z) : list (Z * Z * Z) :=
  seqZ 0 (grouping seg) ≫= (fun j =>
  seqZ 0 (grouping seg) ≫= (fun g =>
    let xX := to_u16 (x + g) in
    let yY := to_u16 (y + j) in
    if (xX >=? width seg) || (yY >=? height seg) then []
    else cell_writes seg xX yY col)).

(** The expanded physical coordinates [setPixelColorXY(int, int, ..)]
    computes from in-range logical ones; [None] when they fall out of the
    segment. *)
Definition set_physical (seg : Segment) (x y : Z) : option (Z * Z) :=
  let x := if reverse seg then virtualWidth seg - x - 1 else x in
  let y := if reverse_y seg then virtualHeight seg - y - 1 else y in
  let xy := if transpose seg then (y, to_u16 x) else (x, y) in
  let x := fst xy * groupLength seg in
  let y := snd xy * groupLength seg in
  if (x >=? width seg) || (y >=? height seg) then None else Some (x, y).

(** Every call [strip.setPixelColorXY(X, Y, c)] issued for in-range
    logical coordinates once the transient buffer has been ruled out, in
    order; [col] is the colour after brightness scaling. *)
Definition strip_writes (seg : Segment) (x y col : Z) : list (Z * Z * Z) :=
  match set_physical seg x y with
  | Some (px, py) => group_writes seg px py col
  | None => []
  end.

Definition do_write (s : S) (w : Z * Z * Z) : S :=
  strip_setPixelColorXY (fst (fst w)) (snd (fst w)) (snd w) s.

(** [Segment::setPixelColorXY(int x, int y, uint32_t col)]. *)
Definition setPixelColorXY (seg : Segment) (x y col : Z) (f : Frame S) : Frame S :=
  if negb (isActive seg) then f else
  if (x >=? virtualWidth seg) || (y >=? virtualHeight seg) || (x <? 0) || (y <? 0)
  then f else
  let col := scaled col (currentBri seg) in
  match _activeBuffer f with
  | Some buf => mkFrame (Some (wr buf (y * virtualWidth seg + x) col)) (strip f)
  | None => mkFrame None (foldl do_write (strip f) (strip_writes seg x y col))
  end.

(** [Segment::getPixelColorXY(uint16_t x, uint16_t y)]. *)
Definition getPixelColorXY (seg : Segment) (x y : Z) (f : Frame S) : Z :=
  let x := to_u16 x in
  let y := to_u16 y in
  if negb (isActive seg) then 0 else
  if (x >=? virtualWidth seg) || (y >=? virtualHeight seg) || (x <? 0) || (y <? 0)
  then 0 else
  match _activeBuffer f with
  | Some buf => rd buf (y * virtualWidth seg + x)
  | None =>
      let x := if reverse seg then to_u16 (virtualWidth seg - x - 1) else x in
      let y := if reverse_y seg then to_u16 (virtualHeight seg - y - 1) else y in
      let xy := if transpose seg then (y, x) else (x, y) in
      let x := to_u16 (fst xy * groupLength seg) in
      let y := to_u16 (snd xy * groupLength seg) in
      if (x >=? width seg) || (y >=? height seg) then 0
      else strip_getPixelColorXY (start seg + x) (startY seg + y) (strip f)
  end.

(** The results of the floating-point computations of the anti-aliased
    write, as the integers they are converted to: whether the coordinates
    are normalized, [uint16_t(roundf(fX))] and [uint16_t(roundf(fY))], the
    four [roundf(f -/+ 0.49f)], the blend amounts
    [uint8_t(sqrtf(d*d')*255.0f)] of the four corners and
    [uint8_t(d*255.0f)] of the four sides. *)
Record Splat := mkSplat {
  normalized : bool;
  nearX : Z; nearY : Z;
  xL : Z; xR : Z; yT : Z; yB : Z;
  aLT : Z; aRT : Z; aLB : Z; aRB : Z;
  aL : Z; aR : Z; aT : Z; aB : Z
}.

(** The calls [setPixelColorXY(x, y, colour)] that the anti-aliased
    [setPixelColorXY(float, float, col, aa)] makes, in order; the four
    neighbours are read before the first write. *)
Definition aa_calls (seg : Segment) (sp : Splat) (col : Z) (aa : bool) (f : Frame S)
  : list (Z * Z * Z) :=
  if negb (isActive seg) then [] else
  if negb (normalized sp) then [] else
  if aa then
    let cXLYT := getPixelColorXY seg (xL sp) (yT sp) f in
    let cXRYT := getPixelColorXY seg (xR sp) (yT sp) f in
    let cXLYB := getPixelColorXY seg (xL sp) (yB sp) f in
    let cXRYB := getPixelColorXY seg (xR sp) (yB sp) f in
    if negb (xL sp =? xR sp) && negb (yT sp =? yB sp) then
      [(xL sp, yT sp, color_blend col cXLYT (aLT sp) false);
       (xR sp, yT sp, color_blend col cXRYT (aRT sp) false);
       (xL sp, yB sp, color_blend col cXLYB (aLB sp) false);
       (xR sp, yB sp, color_blend col cXRYB (aRB sp) false)]
    else if negb (xR sp =? xL sp) && (yT sp =? yB sp) then
      [(xR sp, yT sp, color_blend col cXLYT (aL sp) false);
       (xR sp, yT sp, color_blend col cXRYT (aR sp) false)]
    else if (xR sp =? xL sp) && negb (yT sp =? yB sp) then
      [(xR sp, yT sp, color_blend col cXLYT (aT sp) false);
       (xL sp, yB sp, color_blend col cXLYB (aB sp) false)]
    else
      [(xL sp, yT sp, col)]
  else [(nearX sp, nearY sp, col)].

Definition do_call (seg : Segment) (f : Frame S) (w : Z * Z * Z) : Frame S :=
  setPixelColorXY seg (fst (fst w)) (snd (fst w)) (snd w) f.

(** [Segment::setPixelColorXY(float x, float y, uint32_t col, bool aa)]. *)
Definition setPixelColorXY_aa (seg : Segment) (sp : Splat) (col : Z) (aa : bool)
    (f : Frame S) : Frame S :=
  foldl (do_call seg) f (aa_calls seg sp col aa f).

End Accessors.

(** The values of a segment are within their C types, the grouping factor
    is at least 1, and the virtual dimensions are the logical pixel counts
    of the physical ones: the last logical column and row still start
    inside the segment once expanded by [groupLength()]. *)
Definition seg_ok (seg : Segment) : Prop :=
  1 <= grouping seg /\ 0 <= groupLength seg
  /\ 0 <= width seg <= 65535 /\ 0 <= height seg <= 65535
  /\ virtualWidth seg <= 65535 /\ virtualHeight seg <= 65535
  /\ (virtualWidth seg - 1) * groupLength seg
       < (if transpose seg then height seg else width seg)
  /\ (virtualHeight seg - 1) * groupLength seg
       < (if transpose seg then width seg else height seg).

(** A physical position inside the segment: the origin plus an offset
    within [width()] x [height()]. *)
Definition in_segment (seg : Segment) (X Y : Z) : Prop :=
  exists px py, 0 <= px < width seg /\ 0 <= py < height seg
                /\ X = start seg + px /\ Y = startY seg + py.

(** A 4 x 3 segment at the origin, grouped by 2 and reversed in x. *)
Definition grouped_seg : Segment :=
  mkSegment 0 0 true 4 3 2 2 2 2 true false false false false 255.

(** A 2 x 2 segment starting at column 4, mirrored in both axes. *)
Definition mirrored_seg : Segment :=
  mkSegment 4 0 true 2 2 1 1 1 1 false false false true true 255.

(** A 2 x 1 segment at the origin, and the point [x = 0.5], [y = 0.0] on
    it: [fX = 0.5] and [fY = 0], hence [xL = 0], [xR = 1], [yT = yB = 0],
    [dL = dR = 0.25] and the side amounts [uint8_t(63.75) = 63]. *)
Definition row_seg : Segment :=
  mkSegment 0 0 true 2 1 2 1 1 1 false false false false false 255.
Definition half_way : Splat :=
  mkSplat true 1 0 0 1 0 0 0 0 0 0 63 63 0 0.

(** A 300 x 300 segment: more than 65536 logical pixels. *)
Definition wide_seg : Segment :=
  mkSegment 0 0 true 300 300 300 300 1 1 false false false false false 255.

(** A dark plain strip without transient buffer. *)
Definition dark : Frame (Z -> Z -> Z) := mkFrame None (fun _ _ => 0).

End Seg.
(** ** 2D transitions: [Segment::render2DTransition] *)

Module Transition.
Import Seg.

(** The transition styles. *)
Inductive TransitionStyle :=
  | TRANSITION_STYLE_FADE
  | TRANSITION_STYLE_FAIRY_DUST
  | TRANSITION_STYLE_SWIPE_RIGHT
  | TRANSITION_STYLE_SWIPE_LEFT
  | TRANSITION_STYLE_SWIPE_UP
  | TRANSITION_STYLE_SWIPE_DOWN
  | TRANSITION_STYLE_OUTSIDE_IN
  | TRANSITION_STYLE_INSIDE_OUT
  | TRANSITION_STYLE_PUSH_RIGHT
  | TRANSITION_STYLE_PUSH_LEFT
  | TRANSITION_STYLE_PUSH_UP
  | TRANSITION_STYLE_PUSH_DOWN.

(** The transition state of a segment: the style, [progress()], the two
    snapshot buffers and [virtualLength()].  The push styles of the source
    read [buffer2] in their "old mode" loops and [buffer1] in their "new
    mode" loops. *)
Record Snapshots := mkSnapshots {
  transitionStyle : TransitionStyle;
  progress : Z;
  buffer1 : list Z;
  buffer2 : list Z;
  virtualLength : Z
}.

(** The buffer of the new mode and the buffer of the old mode. *)
Definition incoming (tr : Snapshots) : list Z := buffer1 tr.
Definition outgoing (tr : Snapshots) : list Z := buffer2 tr.

(** The four swipes, outside-in and inside-out. *)
Definition is_swipe (st : TransitionStyle) : bool :=
  match st with
  | TRANSITION_STYLE_SWIPE_RIGHT | TRANSITION_STYLE_SWIPE_LEFT
  | TRANSITION_STYLE_SWIPE_UP | TRANSITION_STYLE_SWIPE_DOWN
  | TRANSITION_STYLE_OUTSIDE_IN | TRANSITION_STYLE_INSIDE_OUT => true
  | _ => false
  end.

(** [halfWidth = width >> 1]. *)
Definition halfWidth (width : Z) : Z := to_u16 (Z.shiftr width 1).

(** The threshold [pos] of a cell under a swipe style; [None] is a division
    by zero (and any style that is not a swipe). *)
Definition swipe_pos (st : TransitionStyle) (width height x y : Z) : option Z :=
  match st with
  | TRANSITION_STYLE_SWIPE_RIGHT =>
      q ← c_div (to_u32 (x * 0xFFFF)) width; Some (to_u16 q)
  | TRANSITION_STYLE_SWIPE_LEFT =>
      q ← c_div (to_u32 (x * 0xFFFF)) width; Some (to_u16 (to_u32 (0xFFFF - q)))
  | TRANSITION_STYLE_SWIPE_UP =>
      q ← c_div (to_u32 (y * 0xFFFF)) height; Some (to_u16 (to_u32 (0xFFFF - q)))
  | TRANSITION_STYLE_SWIPE_DOWN =>
      q ← c_div (to_u32 (y * 0xFFFF)) height; Some (to_u16 q)
  | TRANSITION_STYLE_OUTSIDE_IN =>
      q ← c_div (to_u32 ((if x <? halfWidth width then x else width - x) * 0xFFFF))
                (halfWidth width);
      Some (to_u16 q)
  | TRANSITION_STYLE_INSIDE_OUT =>
      q ← c_div (to_u32 ((if x <? halfWidth width then x else width - x) * 0xFFFF))
                (halfWidth width);
      Some (to_u16 (to_u32 (0xFFFF - q)))
  | _ => None
  end.

Section Render.

(** [hashInt] is defined outside FX_2Dfcn.cpp. *)
Variable hashInt : Z -> Z.

Context {S : Type} `{StripAccessor S} `{ColorOps}.

(** The threshold [pos] of cell [i] under fairy dust. *)
Definition fairy_pos (len i : Z) : option Z :=
  shuffled ← c_mod (to_u32 (hashInt (to_u32 i))) len;
  q ← c_div (to_u32 (shuffled * 0xFFFF)) len;
  Some (to_u16 q).

(** The colour passed to [setPixelColorXY(x, y, ..)] by the loop over the
    aligned styles. *)
Definition cell_colour (tr : Snapshots) (width height x y : Z) : option Z :=
  let i := y * width + x in
  if is_swipe (transitionStyle tr) then
    pos ← swipe_pos (transitionStyle tr) width height x y;
    Some (if progress tr <=? pos then rd (buffer2 tr) i else rd (buffer1 tr) i)
  else
    match transitionStyle tr with
    | TRANSITION_STYLE_FAIRY_DUST =>
        pos ← fairy_pos (to_u32 (virtualLength tr)) i;
        Some (if progress tr <=? pos then rd (buffer2 tr) i else rd (buffer1 tr) i)
    | _ =>
        Some (color_blend (rd (buffer1 tr) i) (rd (buffer2 tr) i)
                          (to_u16 (to_u32 (0xFFFF - progress tr))) true)
    end.

(** The cells in the order of [for x .. for y ..]. *)
Definition cells (width height : Z) : list (Z * Z) :=
  seqZ 0 width ≫= (fun x => (fun y => (x, y)) <$> seqZ 0 height).

(** The calls of the loop "Transitions where both buffers are aligned";
    [None] when a threshold divides by zero. *)
Definition aligned_calls (tr : Snapshots) (width height : Z)
  : option (list (Z * Z * Z)) :=
  mapM (fun xy => c ← cell_colour tr width height (fst xy) (snd xy);
                  Some (fst xy, snd xy, c))
       (cells width height).

(** The calls of the two loops of a push style ("old mode" first). *)
Definition push_calls (tr : Snapshots) (width height : Z) : list (Z * Z * Z) :=
  let col (xs ys : list Z) (src : Z -> Z -> Z) :=
    xs ≫= (fun x => (fun y => (x, y, src x y)) <$> ys) in
  match transitionStyle tr with
  | TRANSITION_STYLE_PUSH_RIGHT =>
      let pos := to_u16 (to_u32 (progress tr * width) / 0xFFFF) in
      col (seqZ pos (width - pos)) (seqZ 0 height)
          (fun x y => rd (buffer2 tr) (y * width + (x - pos)))
      ++ col (seqZ 0 pos) (seqZ 0 height)
             (fun x y => rd (buffer1 tr) (y * width + (x - pos + width)))
  | TRANSITION_STYLE_PUSH_LEFT =>
      let pos := to_u16 (to_u32 (to_u32 (0xFFFF - progress tr) * width) / 0xFFFF) in
      col (seqZ 0 pos) (seqZ 0 height)
          (fun x y => rd (buffer2 tr) (y * width + (x - pos + width)))
      ++ col (seqZ pos (width - pos)) (seqZ 0 height)
             (fun x y => rd (buffer1 tr) (y * width + (x - pos)))
  | TRANSITION_STYLE_PUSH_UP =>
      let pos := to_u16 (to_u32 (to_u32 (0xFFFF - progress tr) * height) / 0xFFFF) in
      col (seqZ 0 width) (seqZ 0 pos)
          (fun x y => rd (buffer2 tr) ((y - pos + height) * width + x))
      ++ col (seqZ 0 width) (seqZ pos (height - pos))
             (fun x y => rd (buffer1 tr) ((y - pos) * width + x))
  | TRANSITION_STYLE_PUSH_DOWN =>
      let pos := to_u16 (to_u32 (progress tr * height) / 0xFFFF) in
      col (seqZ 0 width) (seqZ pos (height - pos))
          (fun x y => rd (buffer2 tr) ((y - pos) * width + x))
      ++ col (seqZ 0 width) (seqZ 0 pos)
             (fun x y => rd (buffer1 tr) ((y - pos + height) * width + x))
  | _ => []
  end.

Definition is_push (st : TransitionStyle) : bool :=
  match st with
  | TRANSITION_STYLE_PUSH_RIGHT | TRANSITION_STYLE_PUSH_LEFT
  | TRANSITION_STYLE_PUSH_UP | TRANSITION_STYLE_PUSH_DOWN => true
  | _ => false
  end.

(** Modelled from the spec: [Segment::fill] is defined outside
    FX_2Dfcn.cpp.  The spec has the live frame cleared to black first:
    every logical cell is written with the colour. *)
Definition fill_calls (width height c : Z) : list (Z * Z * Z) :=
  seqZ 0 height ≫= (fun y => (fun x => (x, y, c)) <$> seqZ 0 width).

Definition BLACK : Z := 0.

(** [Segment::render2DTransition]: the frame after the calls, [None] when a
    threshold divides by zero. *)
Definition render2DTransition (seg : Segment) (tr : Snapshots) (f : Frame S)
  : option (Frame S) :=
  let width := virtualWidth seg in
  let height := virtualHeight seg in
  let f := foldl (do_call seg) f (fill_calls width height BLACK) in
  if is_push (transitionStyle tr)
  then Some (foldl (do_call seg) f (push_calls tr width height))
  else calls ← aligned_calls tr width height; Some (foldl (do_call seg) f calls).

End Render.

(** A swipe to the right over two cells, at its start: the new mode holds
    colour 1, the old mode colour 2. *)
Definition swipe_start : Snapshots :=
  mkSnapshots TRANSITION_STYLE_SWIPE_RIGHT 0 [1; 1] [2; 2] 2.

(** An outside-in transition half way, on a segment one logical pixel
    wide and two high. *)
Definition thin_outside_in : Snapshots :=
  mkSnapshots TRANSITION_STYLE_OUTSIDE_IN 32768 [1; 1] [2; 2] 2.
Definition thin_seg : Segment :=
  mkSegment 0 0 true 2 2 1 2 1 1 false false false true false 255.

End Transition.
(** ** Well-formed strips for the mapper *)

Module Layout.
Import Mapper.

(** A strip on which every array access of [setUpMatrix] is in range:
    [MAX_LEDS] and the strip length fit 16 bits, the panels are well formed,
    and a table left by an earlier call has the length this call needs. *)
Definition strip_ok (MAX_LEDS : Z) (s : WS2812FX) : Prop :=
  MAX_LEDS <= 65535
  /\ 0 <= _length s <= 65535
  /\ Forall panel_ok (panel s)
  /\ (forall t, customMappingTable s = Some t ->
        Z.of_nat (length t) =
          getLengthTotal (fst (matrix_bounds (panel s)))
                         (snd (matrix_bounds (panel s))) (_length s)).

(** A strip whose only panel has the default orientation and lies at the
    origin. *)
Definition plain_panel (w h : Z) : Panel := mkPanel 0 0 w h false false false false.
Definition plain_strip_of (w h len : Z) : WS2812FX :=
  mkStrip true [plain_panel w h] 1 len 1 1 None 0 0.

(** A host without gap file, and one whose gap file marks the cells of the
    first row of a 4 x 2 matrix active, inactive, missing and active. *)
Definition no_gaps : Host := mkHost true None true.
Definition some_gaps : Host := mkHost true (Some [1; 0; -1; 1; 1; 1; 1; 1]) true.

(** A 3 x 2 matrix with a 2 x 2 panel on its left: the third column has
    no LED. *)
Definition with_hole : WS2812FX :=
  mkStrip true [panel_2x2; mkPanel 2 0 1 1 false false false false] 2 8 1 1 None 0 0.

End Layout.
(** ** Pixels as an array, and the drawing routines built on them *)

(** Conversion to [int8_t] and to [int16_t]. *)
Definition to_i8 (z : Z) : Z := (z + 128) mod 256 - 128.
Definition to_i16 (z : Z) : Z := (z + 32768) mod 65536 - 32768.

Module Draw.
Import Seg.

(** Logical coordinates inside the virtual bounds of a segment. *)
Definition in_range (seg : Segment) (x y : Z) : Prop :=
  0 <= x < virtualWidth seg /\ 0 <= y < virtualHeight seg.

Section Routines.

Context {S : Type} `{StripAccessor S} `{ColorOps}.

(** Frames with a transient buffer that holds every logical pixel. *)
Definition buffered (seg : Segment) (f : Frame S) : Prop :=
  exists buf, _activeBuffer f = Some buf
    /\ virtualWidth seg * virtualHeight seg <= Z.of_nat (length buf).

(** Frames without transient buffer. *)
Definition unbuffered (f : Frame S) : Prop := _activeBuffer f = None.

(** On the frames of [P], the in-range pixels of the segment behave as an
    array under [setPixelColorXY] and [getPixelColorXY]: [P] is kept by
    writes, a pixel reads what was written to it, and no other pixel
    changes. *)
Record pixel_array (seg : Segment) (P : Frame S -> Prop) : Prop := {
  pa_closed : forall f x y c, P f -> P (setPixelColorXY seg x y c f);
  pa_same : forall f x y c, P f -> in_range seg x y ->
    getPixelColorXY seg x y (setPixelColorXY seg x y c f) = c;
  pa_other : forall f x y x' y' c, P f -> in_range seg x y -> in_range seg x' y' ->
    (x, y) <> (x', y') ->
    getPixelColorXY seg x' y' (setPixelColorXY seg x y c f) = getPixelColorXY seg x' y' f
}.

(** The entries of [newPxCol] in the order [moveX] and [moveY] fill them,
    each with the coordinate it is read from: [n] is the length of the line
    and [delta] the shift. *)
Definition shift_plan (n delta : Z) (wrap : bool) : list (Z * Z) :=
  if delta >? 0 then
    ((fun x => (x, x + delta)) <$> seqZ 0 (n - delta))
    ++ ((fun x => (x, if wrap then (x + delta) - n else x)) <$> seqZ (n - delta) delta)
  else
    ((fun x => (x, x + delta)) <$> list.reverse (seqZ (- delta) (n + delta)))
    ++ ((fun x => (x, if wrap then (x + delta) + n else x)) <$> list.reverse (seqZ 0 (- delta))).

(** The array [newPxCol] for one line: [read src] is the pixel read for the
    source coordinate [src]. *)
Definition shifted_line (n delta : Z) (wrap : bool) (read : Z -> Z) : list Z :=
  foldl (fun a p => wr a (fst p) (read (snd p)))
        (replicate (Z.to_nat n) 0) (shift_plan n delta wrap).

(** [Segment::moveX(int8_t delta, bool wrap)]. *)
Definition moveX (seg : Segment) (delta : Z) (wrap : bool) (f : Frame S) : Frame S :=
  if negb (isActive seg) then f else
  let cols := virtualWidth seg in
  let rows := virtualHeight seg in
  if (delta =? 0) || (Z.abs delta >=? cols) then f else
  foldl (fun f y =>
           let newPxCol :=
             shifted_line cols delta wrap (fun x => getPixelColorXY seg x y f) in
           foldl (fun f x => setPixelColorXY seg x y (rd newPxCol x) f) f (seqZ 0 cols))
        f (seqZ 0 rows).

(** [Segment::moveY(int8_t delta, bool wrap)]. *)
Definition moveY (seg : Segment) (delta : Z) (wrap : bool) (f : Frame S) : Frame S :=
  if negb (isActive seg) then f else
  let cols := virtualWidth seg in
  let rows := virtualHeight seg in
  if (delta =? 0) || (Z.abs delta >=? rows) then f else
  foldl (fun f x =>
           let newPxCol :=
             shifted_line rows delta wrap (fun y => getPixelColorXY seg x y f) in
           foldl (fun f y => setPixelColorXY seg x y (rd newPxCol y) f) f (seqZ 0 rows))
        f (seqZ 0 cols).

(** [Segment::move(uint8_t dir, uint8_t delta, bool wrap)]; the shift is
    converted to the [int8_t] parameter of [moveX] and [moveY]. *)
Definition move (seg : Segment) (dir delta : Z) (wrap : bool) (f : Frame S) : Frame S :=
  if delta =? 0 then f else
  match dir with
  | 0 => moveX seg (to_i8 delta) wrap f
  | 1 => moveY seg (to_i8 delta) wrap (moveX seg (to_i8 delta) wrap f)
  | 2 => moveY seg (to_i8 delta) wrap f
  | 3 => moveY seg (to_i8 delta) wrap (moveX seg (to_i8 (- delta)) wrap f)
  | 4 => moveX seg (to_i8 (- delta)) wrap f
  | 5 => moveY seg (to_i8 (- delta)) wrap (moveX seg (to_i8 (- delta)) wrap f)
  | 6 => moveY seg (to_i8 (- delta)) wrap f
  | 7 => moveY seg (to_i8 (- delta)) wrap (moveX seg (to_i8 delta) wrap f)
  | _ => f
  end.

(** One pass through the body of the loop of [drawLine] after the test
    for the end point: the next [x0], [y0] and [err]. *)
Definition line_next (dx dy sx sy : Z) (x0 y0 err : Z) : Z * Z * Z :=
  let e2 := err in
  let err1 := if e2 >? - dx then to_i16 (err - dy) else err in
  let x0' := if e2 >? - dx then to_u16 (x0 + sx) else x0 in
  let err2 := if e2 <? dy then to_i16 (err1 + dx) else err1 in
  let y0' := if e2 <? dy then to_u16 (y0 + sy) else y0 in
  (x0', y0', err2).

(** The pixels the loop of [drawLine] sets, in order; the loop of the
    source has no bound, [fuel] bounds its passes here and [None] is a loop
    still running when the fuel is used up. *)
Fixpoint line_points (fuel : nat) (x1 y1 dx dy sx sy : Z) (x0 y0 err : Z)
  : option (list (Z * Z)) :=
  match fuel with
  | O => None
  | Datatypes.S fuel =>
      if (x0 =? x1) && (y0 =? y1) then Some [(x0, y0)]
      else
        let nxt := line_next dx dy sx sy x0 y0 err in
        rest ← line_points fuel x1 y1 dx dy sx sy (fst (fst nxt)) (snd (fst nxt)) (snd nxt);
        Some ((x0, y0) :: rest)
  end.

(** The pixels [drawLine(x0, y0, x1, y1, c)] sets. *)
Definition drawLine_points (fuel : nat) (seg : Segment) (x0 y0 x1 y1 : Z)
  : option (list (Z * Z)) :=
  if negb (isActive seg) then Some [] else
  let cols := virtualWidth seg in
  let rows := virtualHeight seg in
  if (x0 >=? cols) || (x1 >=? cols) || (y0 >=? rows) || (y1 >=? rows) then Some [] else
  let dx := to_i16 (Z.abs (x1 - x0)) in
  let sx := if x0 <? x1 then 1 else -1 in
  let dy := to_i16 (Z.abs (y1 - y0)) in
  let sy := if y0 <? y1 then 1 else -1 in
  let err := to_i16 (Z.quot (if dx >? dy then dx else - dy) 2) in
  line_points fuel x1 y1 dx dy sx sy x0 y0 err.

(** [Segment::drawLine(x0, y0, x1, y1, c)]. *)
Definition drawLine (fuel : nat) (seg : Segment) (x0 y0 x1 y1 c : Z) (f : Frame S)
  : option (Frame S) :=
  pts ← drawLine_points fuel seg x0 y0 x1 y1;
  Some (foldl (fun f p => setPixelColorXY seg (fst p) (snd p) c f) f pts).

End Routines.

(** The coordinate a shifted line reads for position [x]: [x + delta]
    while that is on the line; beyond it the coordinate wrapped around, or
    [x] itself without wrap. *)
Definition shift_src (n delta : Z) (wrap : bool) (x : Z) : Z :=
  if (0 <=? x + delta) && (x + delta <? n) then x + delta
  else if wrap then (x + delta) mod n else x.

(** The direction of [move] as the step from a pixel to the pixel whose
    colour it takes: 0 is left, 2 is up, 4 is right, 6 is down, the odd
    directions are the diagonals between them. *)
Definition dir_dx (dir : Z) : Z :=
  match dir with
  | 0 | 1 | 7 => 1
  | 3 | 4 | 5 => -1
  | _ => 0
  end.
Definition dir_dy (dir : Z) : Z :=
  match dir with
  | 1 | 2 | 3 => 1
  | 5 | 6 | 7 => -1
  | _ => 0
  end.

(** The eight pixels [draw_circle] sets in one pass of its loop, in
    order. *)
Definition octants (cx cy x y : Z) : list (Z * Z) :=
  [(cx + x, cy + y); (cx - x, cy + y); (cx + x, cy - y); (cx - x, cy - y);
   (cx + y, cy + x); (cx - y, cy + x); (cx + y, cy - x); (cx - y, cy - x)].

(** The pixels the loop [while (y >= x)] of [draw_circle] sets; [fuel]
    bounds its passes and [None] is a loop still running when the fuel is
    used up. *)
Fixpoint circle_points (fuel : nat) (cx cy x y d : Z) : option (list (Z * Z)) :=
  match fuel with
  | O => None
  | Datatypes.S fuel =>
      if y >=? x then
        let x' := x + 1 in
        let y' := if d >? 0 then y - 1 else y in
        let d' := if d >? 0 then d + (4 * (x' - y') + 10) else d + (4 * x' + 6) in
        rest ← circle_points fuel cx cy x' y' d';
        Some (octants cx cy x y ++ rest)
      else Some []
  end.

(** The pixels [draw_circle(cx, cy, radius, col)] sets. *)
Definition draw_circle_points (fuel : nat) (seg : Segment) (cx cy radius : Z)
  : option (list (Z * Z)) :=
  if negb (isActive seg) || (radius =? 0) then Some []
  else circle_points fuel cx cy 0 radius (3 - 2 * radius).


(** [WU_WEIGHT(a, b)]. *)
Definition WU_WEIGHT (a b : Z) : Z := Z.land (Z.shiftr (a * b + a + b) 8) 255.

(** The array [wu] of [wu_pixel(x, y, c)], the intensities of the four
    pixels it touches, and those pixels in the order of its loop. *)
Definition wu_weights (x y : Z) : list Z :=
  let xx := Z.land x 255 in
  let yy := Z.land y 255 in
  let ix := Z.land (255 - xx) 255 in
  let iy := Z.land (255 - yy) 255 in
  [WU_WEIGHT ix iy; WU_WEIGHT xx iy; WU_WEIGHT ix yy; WU_WEIGHT xx yy].

Definition wu_cells (x y : Z) : list (Z * Z) :=
  (fun i => (Z.shiftr x 8 + Z.land i 1, Z.shiftr y 8 + Z.land (Z.shiftr i 1) 1))
    <$> seqZ 0 4.

(** Two pixels next to each other, along an axis or diagonally. *)
Definition neighbours (p q : Z * Z) : Prop :=
  Z.abs (fst q - fst p) <= 1 /\ Z.abs (snd q - snd p) <= 1 /\ p <> q.

(** Consecutive elements of a list are related by [R]. *)
Definition chain {A : Type} (R : A -> A -> Prop) (l : list A) : Prop :=
  forall (i : nat) p q, l !! i = Some p -> l !! Datatypes.S i = Some q -> R p q.

(** The rectangle spanned by two pixels. *)
Definition between (x0 y0 x1 y1 : Z) (p : Z * Z) : Prop :=
  Z.min x0 x1 <= fst p <= Z.max x0 x1 /\ Z.min y0 y1 <= snd p <= Z.max y0 y1.

(** A 16 x 16 segment. *)
Definition canvas : Segment :=
  mkSegment 0 0 true 16 16 16 16 1 1 false false false false false 255.

(** A 3 x 2 segment at full brightness, and a frame whose transient buffer
    holds the colours 10..15. *)
Definition small_seg : Segment :=
  mkSegment 0 0 true 3 2 3 2 1 1 false false false false false 255.
Definition six_pixels : Frame (Z -> Z -> Z) :=
  mkFrame (Some [10; 11; 12; 13; 14; 15]) (fun _ _ => 0).

(** The same segment at half brightness. *)
Definition dim_seg : Segment :=
  mkSegment 0 0 true 3 2 3 2 1 1 false false false false false 128.

(** A 4 x 2 segment mirrored in x: two logical columns. *)
Definition mirror_seg : Segment :=
  mkSegment 0 0 true 4 2 2 2 1 1 false false false true false 255.

End Draw.
(** ** The picture of a push transition *)

Module Scroll.
Import Seg Transition.

(** The displacement of the old frame under a push style: to the right or
    down it grows with [progress()] from nothing, to the left or up it
    falls from nothing. *)
Definition push_shift (tr : Snapshots) (width height : Z) : Z * Z :=
  let fwd n := progress tr * n / 0xFFFF in
  let bwd n := (0xFFFF - progress tr) * n / 0xFFFF - n in
  match transitionStyle tr with
  | TRANSITION_STYLE_PUSH_RIGHT => (fwd width, 0)
  | TRANSITION_STYLE_PUSH_LEFT => (bwd width, 0)
  | TRANSITION_STYLE_PUSH_UP => (0, bwd height)
  | TRANSITION_STYLE_PUSH_DOWN => (0, fwd height)
  | _ => (0, 0)
  end.

(** The old frame displaced by [push_shift], the new frame on the cells it
    has left: the colour at [(x, y)]. *)
Definition scrolled (tr : Snapshots) (width height x y : Z) : Z :=
  let dx := fst (push_shift tr width height) in
  let dy := snd (push_shift tr width height) in
  let inside := (0 <=? x - dx) && (x - dx <? width)
                && (0 <=? y - dy) && (y - dy <? height) in
  rd (if inside then outgoing tr else incoming tr)
     ((y - dy) mod height * width + (x - dx) mod width).

(** A push to the right, a third of the way, over three columns and two
    rows: the new mode holds 1..6, the old mode 10..15. *)
Definition push_third : Snapshots :=
  mkSnapshots TRANSITION_STYLE_PUSH_RIGHT 21846 [1; 2; 3; 4; 5; 6]
              [10; 11; 12; 13; 14; 15] 6.

(** A swipe to the left and a push upwards, both at their start. *)
Definition swipe_left_start : Snapshots :=
  mkSnapshots TRANSITION_STYLE_SWIPE_LEFT 0 [1; 2; 3; 4; 5; 6]
              [10; 11; 12; 13; 14; 15] 6.
Definition push_up_end : Snapshots :=
  mkSnapshots TRANSITION_STYLE_PUSH_UP 0xFFFF [1; 2; 3; 4; 5; 6]
              [10; 11; 12; 13; 14; 15] 6.

End Scroll.

(** ** Scaling every pixel: [Segment::nscale8] *)

Module Scale.
Import Seg.

Section Scaling.

Context {S : Type} `{StripAccessor S} `{ColorOps}.

(** [CRGB(c).nscale8(scale)] as a colour again; [CRGB] and its [nscale8]
    are FastLED's, outside FX_2Dfcn.cpp. *)
Variable crgb_nscale8 : Z -> Z -> Z.

(** The cells in the order of [for y .. for x ..]. *)
Definition rows_then_cols (cols rows : Z) : list (Z * Z) :=
  seqZ 0 rows ≫= (fun y => (fun x => (x, y)) <$> seqZ 0 cols).

(** [Segment::nscale8(uint8_t scale)]. *)
Definition nscale8 (seg : Segment) (scale : Z) (f : Frame S) : Frame S :=
  if negb (isActive seg) then f else
  let cols := virtualWidth seg in
  let rows := virtualHeight seg in
  foldl (fun f xy =>
           setPixelColorXY seg (fst xy) (snd xy)
             (crgb_nscale8 (getPixelColorXY seg (fst xy) (snd xy) f) scale) f)
        f (rows_then_cols cols rows).

End Scaling.

(** Scaling a packed colour as a whole, for running the model. *)
Definition scale_whole (c scale : Z) : Z := c * scale / 256.

End Scale.

(** * Properties *)

(** ** Machine arithmetic and arrays *)

Lemma to_u16_small z : 0 <= z < 65536 -> to_u16 z = z.
Proof. intros H. unfold to_u16. now apply Z.mod_small. Qed.

Lemma to_u16_range z : 0 <= to_u16 z < 65536.
Proof. unfold to_u16. apply Z.mod_pos_bound. lia. Qed.

Lemma to_u32_small z : 0 <= z < 4294967296 -> to_u32 z = z.
Proof. intros H. unfold to_u32. now apply Z.mod_small. Qed.

Lemma length_wr a i v : length (wr a i v) = length a.
Proof. unfold wr. destruct (i <? 0); [done | apply length_insert]. Qed.

Lemma rd_wr_eq a i v :
  0 <= i -> (Z.to_nat i < length a)%nat -> rd (wr a i v) i = v.
Proof.
  intros Hi Hlen. unfold rd, wr.
  destruct (i <? 0) eqn:E; [lia |].
  by rewrite list_lookup_insert_eq.
Qed.

Lemma rd_wr_ne a i j v : 0 <= i -> 0 <= j -> i <> j -> rd (wr a i v) j = rd a j.
Proof.
  intros Hi Hj Hne. unfold rd, wr.
  destruct (i <? 0) eqn:E; [lia |].
  destruct (j <? 0); [done |].
  rewrite list_lookup_insert_ne; [done | lia].
Qed.

(** ** The matrix mapper *)

Module MapperFacts.
Import Mapper.

(** *** The per-cell step *)

Lemma gap_allows_None index cmp : gap_allows None index cmp = true.
Proof. reflexivity. Qed.

Lemma gap_allows_Some g index cmp : gap_allows (Some g) index cmp = cmp (rd g index).
Proof. reflexivity. Qed.

(** *** The failure paths *)

(** C8: when the bounds check fails, or the table is still unallocated and
    its allocation fails, matrix mode is switched off, the dimensions become
    one row of [_length] pixels, the panel list is emptied, the panel count
    is 0 and [resetSegments()] is called once.  The mapping table is the one
    the call found; [customMappingSize] keeps its value on the bounds path
    and is 0 on the allocation path, so it is never set to a non-zero
    value. *)
Theorem C8_failure_paths (MAX_LEDS : Z) (host : Host) (s : WS2812FX) :
  isMatrix s = true ->
  let mw := fst (matrix_bounds (panel s)) in
  let mh := snd (matrix_bounds (panel s)) in
  (mw * mh > MAX_LEDS \/ mw <= 1 \/ mh <= 1)
  \/ (customMappingTable s = None /\ tableAlloc host = false) ->
  let s' := setUpMatrix MAX_LEDS host s in
  isMatrix s' = false
  /\ maxWidth s' = _length s
  /\ maxHeight s' = 1
  /\ panel s' = []
  /\ panels s' = 0
  /\ segmentResets s' = S (segmentResets s)
  /\ customMappingTable s' = customMappingTable s
  /\ (mw * mh > MAX_LEDS \/ mw <= 1 \/ mh <= 1 ->
      customMappingSize s' = customMappingSize s)
  /\ (~ (mw * mh > MAX_LEDS \/ mw <= 1 \/ mh <= 1) -> customMappingSize s' = 0).
Proof.
  intros Hm mw mh Hfail s'. subst s'. unfold setUpMatrix.
  rewrite Hm. cbn [negb]. fold mw mh.
  destruct (bounds_error MAX_LEDS mw mh) eqn:Hb.
  - cbn. repeat split; try reflexivity.
    intros Hn. exfalso. apply Hn. unfold bounds_error in Hb. lia.
  - assert (Hok : ~ (mw * mh > MAX_LEDS \/ mw <= 1 \/ mh <= 1)).
    { unfold bounds_error in Hb. lia. }
    destruct Hfail as [Hbad | [Hnull Halloc]]; [tauto |].
    rewrite Hnull, Halloc. cbn. repeat split; try reflexivity; try tauto.
Qed.

Lemma C8_failure_paths_witness :
  isMatrix (setUpMatrix 1500 (mkHost true None true) no_panels) = false
  /\ maxWidth (setUpMatrix 1500 (mkHost true None true) no_panels) = 30.
Proof.
  pose proof (C8_failure_paths 1500 (mkHost true None true) no_panels) as H.
  cbv zeta in H.
  destruct H as (H1 & H2 & _).
  - reflexivity.
  - left. right. left. cbn. lia.
  - split; [exact H1 | exact H2].
Defined.

(** *** Geometry of the scan *)

Lemma scan_h_small p : panel_ok p -> scan_h p = if vertical p then height p else width p.
Proof.
  intros (? & ? & ? & ? & ? & ?). unfold scan_h.
  apply to_u16_small. destruct (vertical p); lia.
Qed.

Lemma scan_v_small p : panel_ok p -> scan_v p = if vertical p then width p else height p.
Proof.
  intros (? & ? & ? & ? & ? & ?). unfold scan_v.
  apply to_u16_small. destruct (vertical p); lia.
Qed.

Lemma scan_h_range p : 0 <= scan_h p < 65536.
Proof. apply to_u16_range. Qed.

Lemma scan_v_range p : 0 <= scan_v p < 65536.
Proof. apply to_u16_range. Qed.

Lemma local_y_spec p j :
  0 <= j < scan_v p ->
  local_y p j = (if (if vertical p then rightStart p else bottomStart p)
                 then scan_v p - j - 1 else j)
  /\ 0 <= local_y p j < scan_v p.
Proof.
  intros Hj. pose proof (scan_v_range p) as Hv. unfold local_y.
  rewrite to_u16_small; destruct (if vertical p then rightStart p else bottomStart p); lia.
Qed.

Lemma local_x_spec p j i :
  0 <= i < scan_h p ->
  local_x p j i =
    (let x := if (if vertical p then bottomStart p else rightStart p)
              then scan_h p - i - 1 else i in
     if serpentine p && negb (j mod 2 =? 0) then scan_h p - x - 1 else x)
  /\ 0 <= local_x p j i < scan_h p.
Proof.
  intros Hi. pose proof (scan_h_range p) as Hh. unfold local_x.
  cbv zeta.
  rewrite (to_u16_small (if (if vertical p then bottomStart p else rightStart p)
                         then scan_h p - i - 1 else i))
    by (destruct (if vertical p then bottomStart p else rightStart p); lia).
  rewrite to_u16_small;
    destruct (if vertical p then bottomStart p else rightStart p);
    destruct (serpentine p && negb (j mod 2 =? 0)); lia.
Qed.

(** Every visited position lies on a cell of the panel. *)
Lemma visited_covers p j i :
  panel_ok p -> 0 <= j < scan_v p -> 0 <= i < scan_h p ->
  covers p (cell_col p j i) (cell_row p j i).
Proof.
  intros Hok Hj Hi.
  destruct (local_y_spec p j Hj) as [_ Hy].
  destruct (local_x_spec p j i Hi) as [_ Hx].
  rewrite (scan_h_small p Hok) in Hx. rewrite (scan_v_small p Hok) in Hy.
  unfold covers, cell_col, cell_row.
  destruct (vertical p); lia.
Qed.

(** Two positions of one panel that fall on the same cell are the same
    position. *)
Lemma visited_inj p j i j' i' :
  0 <= j < scan_v p -> 0 <= i < scan_h p ->
  0 <= j' < scan_v p -> 0 <= i' < scan_h p ->
  cell_col p j i = cell_col p j' i' -> cell_row p j i = cell_row p j' i' ->
  j = j' /\ i = i'.
Proof.
  intros Hj Hi Hj' Hi' Hc Hr.
  assert (Hy : local_y p j = local_y p j').
  { unfold cell_col, cell_row in *. destruct (vertical p); lia. }
  assert (Hx : local_x p j i = local_x p j' i').
  { unfold cell_col, cell_row in *. destruct (vertical p); lia. }
  assert (Hjj : j = j').
  { destruct (local_y_spec p j Hj) as [E _].
    destruct (local_y_spec p j' Hj') as [E' _].
    rewrite E, E' in Hy.
    destruct (if vertical p then rightStart p else bottomStart p); lia. }
  subst j'. split; [reflexivity |].
  destruct (local_x_spec p j i Hi) as [E _].
  destruct (local_x_spec p j i' Hi') as [E' _].
  rewrite E, E' in Hx. cbv zeta in Hx.
  destruct (if vertical p then bottomStart p else rightStart p);
    destruct (serpentine p && negb (j mod 2 =? 0)); lia.
Qed.

(** A cell of a matrix of width [mw] is determined by its index. *)
Lemma index_inj mw c r c' r' :
  0 <= c < mw -> 0 <= c' < mw -> r * mw + c = r' * mw + c' -> c = c' /\ r = r'.
Proof.
  intros Hc Hc' He.
  assert (Hr : r = r').
  { destruct (Z.lt_trichotomy r r') as [H | [H | H]]; [| exact H |]; exfalso.
    - assert (r * mw + mw <= r' * mw) by nia. lia.
    - assert (r' * mw + mw <= r * mw) by nia. lia. }
  subst r'. lia.
Qed.

Lemma index_range mw mh c r :
  0 <= c < mw -> 0 <= r < mh -> 0 <= r * mw + c < mw * mh.
Proof. intros Hc Hr. nia. Qed.

(** The indices a panel visits: each is the index of a cell of the panel. *)
Lemma panel_cells_covers mw p x :
  panel_ok p -> x ∈ panel_cells mw p ->
  exists c r, covers p c r /\ x = r * mw + c.
Proof.
  intros Hok Hx. unfold panel_cells in Hx.
  apply list_elem_of_bind in Hx as (j & Hx & Hj).
  apply list_elem_of_fmap in Hx as (i & -> & Hi).
  apply elem_of_seqZ in Hj. apply elem_of_seqZ in Hi.
  exists (cell_col p j i), (cell_row p j i). split; [| reflexivity].
  apply visited_covers; [assumption | lia | lia].
Qed.

Lemma panel_cells_NoDup mw p :
  panel_ok p -> xOffset p + width p <= mw -> NoDup (panel_cells mw p).
Proof.
  intros Hok Hw. unfold panel_cells.
  assert (Hcol : forall j i, 0 <= j < scan_v p -> 0 <= i < scan_h p ->
                             0 <= cell_col p j i < mw).
  { intros j i Hj Hi. destruct (visited_covers p j i Hok Hj Hi) as [Hc _].
    destruct Hok as (? & _). lia. }
  apply NoDup_bind.
  - intros j j' x Hj Hj' Hx Hx'.
    apply elem_of_seqZ in Hj. apply elem_of_seqZ in Hj'.
    apply list_elem_of_fmap in Hx as (i & -> & Hi).
    apply list_elem_of_fmap in Hx' as (i' & He & Hi').
    apply elem_of_seqZ in Hi. apply elem_of_seqZ in Hi'.
    unfold cell_index in He.
    apply index_inj with (mw := mw) in He as [Hc Hr];
      [| apply Hcol; lia | apply Hcol; lia].
    destruct (visited_inj p j i j' i') as [? _]; [lia | lia | lia | lia | | | ]; done.
  - intros j Hj. apply elem_of_seqZ in Hj.
    apply NoDup_fmap_2_strong; [| apply NoDup_seqZ].
    intros i i' Hi Hi' He.
    apply elem_of_seqZ in Hi. apply elem_of_seqZ in Hi'.
    unfold cell_index in He.
    apply index_inj with (mw := mw) in He as [Hc Hr];
      [| apply Hcol; lia | apply Hcol; lia].
    destruct (visited_inj p j i j i') as [_ ?]; [lia | lia | lia | lia | | | ]; done.
  - apply NoDup_seqZ.
Qed.

(** *** The bounding box *)

Lemma grow_bounds_max wh p :
  panel_ok p ->
  grow_bounds wh p = (Z.max (fst wh) (xOffset p + width p),
                      Z.max (snd wh) (yOffset p + height p)).
Proof.
  intros (? & ? & ? & ? & ? & ?). unfold grow_bounds.
  rewrite !to_u16_small by lia.
  f_equal.
  - destruct (Z.gtb_spec (xOffset p + width p) (fst wh)); lia.
  - destruct (Z.gtb_spec (yOffset p + height p) (snd wh)); lia.
Qed.

Lemma foldl_grow_bounds ps wh :
  Forall panel_ok ps ->
  fst wh <= fst (foldl grow_bounds wh ps)
  /\ snd wh <= snd (foldl grow_bounds wh ps)
  /\ Forall (fun p => xOffset p + width p <= fst (foldl grow_bounds wh ps)
                      /\ yOffset p + height p <= snd (foldl grow_bounds wh ps)) ps.
Proof.
  intros Hok. revert wh. induction Hok as [| p ps Hp Hps IH]; intros wh.
  - cbn. repeat split; try lia. constructor.
  - cbn [foldl]. destruct (IH (grow_bounds wh p)) as (Hw & Hh & Hall).
    assert (E1 : fst (grow_bounds wh p) = Z.max (fst wh) (xOffset p + width p))
      by now rewrite grow_bounds_max.
    assert (E2 : snd (grow_bounds wh p) = Z.max (snd wh) (yOffset p + height p))
      by now rewrite grow_bounds_max.
    split; [lia | split; [lia |]].
    constructor; [lia | exact Hall].
Qed.

Lemma matrix_bounds_fit ps :
  Forall panel_ok ps ->
  Forall (fun p => xOffset p + width p <= fst (matrix_bounds ps)
                   /\ yOffset p + height p <= snd (matrix_bounds ps)) ps.
Proof. intros Hok. apply (foldl_grow_bounds ps (1, 1) Hok). Qed.

(** *** The cells of the whole scan *)

Section Cells.

Variables (mw mh : Z) (ps : list Panel).
Hypothesis Hok : Forall panel_ok ps.
Hypothesis Hfit :
  Forall (fun p => xOffset p + width p <= mw /\ yOffset p + height p <= mh) ps.

Lemma matrix_cells_covers x :
  x ∈ matrix_cells mw ps ->
  exists p c r, p ∈ ps /\ covers p c r /\ x = r * mw + c.
Proof.
  unfold matrix_cells. intros Hx.
  apply list_elem_of_bind in Hx as (p & Hx & Hp).
  rewrite Forall_forall in Hok.
  destruct (panel_cells_covers mw p x (Hok p Hp) Hx) as (c & r & Hc & He).
  exists p, c, r. done.
Qed.

Lemma covers_in_matrix p c r :
  p ∈ ps -> covers p c r -> 0 <= c < mw /\ 0 <= r < mh.
Proof.
  intros Hp [Hc Hr].
  rewrite Forall_forall in Hok, Hfit.
  destruct (Hok p Hp) as (? & ? & _). destruct (Hfit p Hp). lia.
Qed.

Lemma matrix_cells_range x :
  x ∈ matrix_cells mw ps -> 0 <= x < mw * mh.
Proof.
  intros Hx. destruct (matrix_cells_covers x Hx) as (p & c & r & Hp & Hc & ->).
  destruct (covers_in_matrix p c r Hp Hc). now apply index_range.
Qed.

End Cells.

Lemma matrix_cells_NoDup mw mh ps :
  Forall panel_ok ps ->
  Forall (fun p => xOffset p + width p <= mw /\ yOffset p + height p <= mh) ps ->
  no_overlap ps ->
  NoDup (matrix_cells mw ps).
Proof.
  intros Hok Hfit. induction ps as [| p ps IH]; intros Hno.
  - apply NoDup_nil_2.
  - unfold matrix_cells. rewrite bind_cons. fold (matrix_cells mw ps).
    apply Forall_cons in Hok as [Hp Hok]. apply Forall_cons in Hfit as [Hpf Hfit].
    destruct Hno as [Hap Hno].
    apply NoDup_app. split; [| split].
    + apply panel_cells_NoDup; [assumption | lia].
    + intros x Hx Hx'.
      destruct (panel_cells_covers mw p x Hp Hx) as (c & r & Hc & He).
      destruct (matrix_cells_covers mw ps Hok x Hx') as (q & c' & r' & Hq & Hc' & He').
      rewrite Forall_forall in Hap.
      assert (Hcr : c = c' /\ r = r').
      { apply (index_inj mw).
        - destruct Hc as [Hc _]. destruct Hp as (? & _). lia.
        - destruct (covers_in_matrix mw mh ps Hok Hfit q c' r' Hq Hc'). lia.
        - congruence. }
      destruct Hcr as [-> ->]. exact (Hap q Hq c' r' Hc Hc').
    + apply IH; assumption.
Qed.

(** A scan that visits no cell twice visits at most as many positions as
    the matrix has cells. *)
Lemma matrix_cells_length mw mh ps :
  Forall panel_ok ps ->
  Forall (fun p => xOffset p + width p <= mw /\ yOffset p + height p <= mh) ps ->
  no_overlap ps ->
  Z.of_nat (length (matrix_cells mw ps)) <= Z.max 0 (mw * mh).
Proof.
  intros Hok Hfit Hno.
  assert (Hsub : matrix_cells mw ps ⊆+ seqZ 0 (mw * mh)).
  { apply NoDup_submseteq.
    - now apply (matrix_cells_NoDup mw mh).
    - intros x Hx. apply elem_of_seqZ.
      pose proof (matrix_cells_range mw mh ps Hok Hfit x Hx). lia. }
  apply submseteq_length in Hsub. rewrite length_seqZ in Hsub. lia.
Qed.

(** *** The initial table *)

Lemma wr_insert t i v : 0 <= i -> wr t i v = <[Z.to_nat i := v]> t.
Proof. intros Hi. unfold wr. destruct (Z.ltb_spec i 0); [lia | reflexivity]. Qed.

Lemma foldl_wr_length (f : Z -> Z) l t :
  length (foldl (fun t i => wr t i (f i)) t l) = length t.
Proof.
  revert t. induction l as [| i l IH]; intros t; [reflexivity |].
  cbn [foldl]. rewrite IH. apply length_wr.
Qed.

Lemma foldl_wr_lookup (f : Z -> Z) l t (n : nat) :
  (forall i, i ∈ l -> 0 <= i) ->
  foldl (fun t i => wr t i (f i)) t l !! n =
    if decide (Z.of_nat n ∈ l /\ (n < length t)%nat)
    then Some (f (Z.of_nat n)) else t !! n.
Proof.
  revert t. induction l as [| i l IH]; intros t Hpos.
  - cbn [foldl]. case_decide as H; [| reflexivity].
    destruct H as [H _]. inversion H.
  - cbn [foldl]. rewrite IH by (intros k Hk; apply Hpos; now right).
    rewrite length_wr.
    assert (Hi : 0 <= i) by (apply Hpos; now left).
    rewrite (wr_insert t i _ Hi), list_lookup_insert.
    destruct (decide (Z.of_nat n ∈ l /\ (n < length t)%nat)) as [[Hin Hlt] | Hnot].
    + rewrite decide_True; [reflexivity |]. split; [now right | assumption].
    + destruct (decide (Z.to_nat i = n /\ (Z.to_nat i < length t)%nat))
        as [[He Hlt] | Hne].
      * subst n. rewrite Z2Nat.id by lia.
        rewrite decide_True; [reflexivity |]. split; [now left | assumption].
      * rewrite decide_False; [reflexivity |].
        intros [Hin Hlt]. apply elem_of_cons in Hin as [He | Hin].
        -- apply Hne. subst i. rewrite Nat2Z.id. split; [reflexivity | assumption].
        -- apply Hnot. split; assumption.
Qed.

Lemma fill_table_length t M total : length (fill_table t M total) = length t.
Proof. unfold fill_table. now rewrite !foldl_wr_length. Qed.

Lemma fill_table_matrix t M total (n : nat) :
  0 <= M <= total -> Z.of_nat (length t) = total -> Z.of_nat n < M ->
  fill_table t M total !! n = Some SENTINEL.
Proof.
  intros HM Hlen Hn. unfold fill_table.
  rewrite (foldl_wr_lookup to_u16)
    by (intros i Hi; apply elem_of_seqZ in Hi; lia).
  case_decide as H.
  - destruct H as [H _]. apply elem_of_seqZ in H. lia.
  - rewrite (foldl_wr_lookup (fun _ => SENTINEL))
      by (intros i Hi; apply elem_of_seqZ in Hi; lia).
    case_decide as H'; [reflexivity |].
    exfalso. apply H'. split; [apply elem_of_seqZ; lia | lia].
Qed.

Lemma fill_table_trailing t M total (n : nat) :
  0 <= M <= total -> total <= 65535 -> Z.of_nat (length t) = total ->
  M <= Z.of_nat n < total ->
  fill_table t M total !! n = Some (Z.of_nat n).
Proof.
  intros HM Htot Hlen Hn. unfold fill_table.
  rewrite (foldl_wr_lookup to_u16)
    by (intros i Hi; apply elem_of_seqZ in Hi; lia).
  case_decide as H.
  - rewrite to_u16_small by lia. reflexivity.
  - exfalso. apply H. split; [apply elem_of_seqZ; lia |].
    rewrite foldl_wr_length. lia.
Qed.

(** *** The invariant of the scan *)

Lemma gap_allows_weaken g index :
  gap_allows g index (fun v => v >? 0) = true ->
  gap_allows g index (fun v => v >=? 0) = true.
Proof. destruct g as [g |]; cbn; [lia | reflexivity]. Qed.

Lemma scan_cell_inv g M t pix index :
  0 <= index < M -> 0 <= pix < 65535 -> fresh_below M t pix ->
  fresh_below M (fst (scan_cell g (t, pix) index)) (snd (scan_cell g (t, pix) index))
  /\ pix <= snd (scan_cell g (t, pix) index) <= pix + 1
  /\ length (fst (scan_cell g (t, pix) index)) = length t
  /\ (forall n : nat, M <= Z.of_nat n ->
        fst (scan_cell g (t, pix) index) !! n = t !! n).
Proof.
  intros Hix Hpix [Hval Huni]. unfold scan_cell. cbn [fst snd].
  pose proof (gap_allows_weaken g index) as Hw.
  assert (Hs : SENTINEL = 65535) by reflexivity.
  destruct (gap_allows g index (fun v => v >? 0)) eqn:Hwrite.
  - rewrite (Hw eq_refl), (to_u16_small (pix + 1)) by lia.
    rewrite (wr_insert t index pix) by lia.
    split; [split |].
    + intros n v Hn. rewrite list_lookup_insert. case_decide.
      * intros [= <-]. right. lia.
      * intros Hv. destruct (Hval n v Hn Hv); [now left | right; lia].
    + intros n m v Hn Hm. rewrite !list_lookup_insert.
      repeat case_decide.
      * intros _ _ _. destruct H as [<- _]. destruct H0 as [<- _]. reflexivity.
      * intros [= <-] Hv _. destruct (Hval m pix Hm Hv); lia.
      * intros Hv [= <-] _. destruct (Hval n pix Hn Hv); lia.
      * apply Huni; assumption.
    + split; [lia |]. split; [apply length_insert |].
      intros n Hn. apply list_lookup_insert_ne. lia.
  - split; [split |].
    + intros n v Hn Hv. destruct (Hval n v Hn Hv) as [? | ?]; [now left | right].
      destruct (gap_allows g index (fun v0 => v0 >=? 0));
        [rewrite to_u16_small by lia |]; lia.
    + exact Huni.
    + split; [| split; [reflexivity | reflexivity]].
      destruct (gap_allows g index (fun v0 => v0 >=? 0));
        [rewrite to_u16_small by lia |]; lia.
Qed.

Lemma scan_inv g M cells :
  forall st,
  (forall x, x ∈ cells -> 0 <= x < M) ->
  0 <= snd st -> snd st + Z.of_nat (length cells) <= 65535 ->
  fresh_below M (fst st) (snd st) ->
  fresh_below M (fst (foldl (scan_cell g) st cells)) (snd (foldl (scan_cell g) st cells))
  /\ snd st <= snd (foldl (scan_cell g) st cells) <= snd st + Z.of_nat (length cells)
  /\ length (fst (foldl (scan_cell g) st cells)) = length (fst st)
  /\ (forall n : nat, M <= Z.of_nat n ->
        fst (foldl (scan_cell g) st cells) !! n = fst st !! n).
Proof.
  induction cells as [| x cells IH]; intros [t pix] Hrange Hpix Hlen Hinv;
    cbn [fst snd] in *.
  - cbn [foldl fst snd length]. split; [exact Hinv |].
    split; [lia |]. split; reflexivity.
  - cbn [foldl]. cbn [length] in Hlen.
    destruct (scan_cell_inv g M t pix x) as (Hf & Hp & Hl & Hk);
      [apply Hrange; now left | lia | assumption |].
    destruct (IH (scan_cell g (t, pix) x)) as (Hf' & Hp' & Hl' & Hk').
    + intros y Hy. apply Hrange. now right.
    + lia.
    + lia.
    + exact Hf.
    + split; [exact Hf' |]. split; [cbn [length]; lia |].
      split; [congruence |].
      intros n Hn. rewrite Hk' by assumption. now apply Hk.
Qed.

(** *** The table built by a scan without overlap *)

Lemma fill_table_fresh t M total :
  0 <= M <= total -> Z.of_nat (length t) = total ->
  fresh_below M (fill_table t M total) 0.
Proof.
  intros HM Hlen. split.
  - intros n v Hn Hv. rewrite fill_table_matrix in Hv by assumption.
    left. congruence.
  - intros n m v Hn _ Hv _ Hs. rewrite fill_table_matrix in Hv by assumption.
    congruence.
Qed.

Lemma scan_table_valid g mw mh total ps t :
  Forall panel_ok ps ->
  Forall (fun p => xOffset p + width p <= mw /\ yOffset p + height p <= mh) ps ->
  no_overlap ps ->
  0 <= mw * mh <= total -> total <= 65535 ->
  Z.of_nat (length t) = total ->
  table_valid (fst (scan g (fill_table t (mw * mh) total) (matrix_cells mw ps))) total.
Proof.
  intros Hok Hfit Hno HM Htot Hlen. unfold scan.
  pose proof (matrix_cells_length mw mh ps Hok Hfit Hno) as Hcells.
  destruct (scan_inv g (mw * mh) (matrix_cells mw ps)
              (fill_table t (mw * mh) total, 0)) as (Hf & Hp & Hl & Hk).
  { intros x Hx. now apply (matrix_cells_range mw mh ps). }
  { cbn. lia. }
  { cbn [snd]. lia. }
  { cbn [fst snd]. now apply fill_table_fresh. }
  cbn [fst snd] in Hf, Hp, Hl, Hk.
  set (t' := fst (foldl (scan_cell g) (fill_table t (mw * mh) total, 0)
                        (matrix_cells mw ps))) in *.
  set (pix := snd (foldl (scan_cell g) (fill_table t (mw * mh) total, 0)
                         (matrix_cells mw ps))) in *.
  rewrite fill_table_length in Hl.
  assert (Htrail : forall (n : nat) v, mw * mh <= Z.of_nat n -> t' !! n = Some v ->
                                       v = Z.of_nat n /\ Z.of_nat n < total).
  { intros n v Hn Hv.
    assert (Hlt : (n < length t')%nat) by (eapply lookup_lt_Some; exact Hv).
    rewrite Hk in Hv by assumption.
    rewrite fill_table_trailing in Hv by lia.
    split; [congruence | lia]. }
  destruct Hf as [Hval Huni].
  split; [lia |]. split.
  - intros n v Hv Hs.
    destruct (Z.lt_ge_cases (Z.of_nat n) (mw * mh)) as [Hn | Hn].
    + destruct (Hval n v Hn Hv); [contradiction | lia].
    + destruct (Htrail n v Hn Hv). lia.
  - intros n m v Hvn Hvm Hs.
    destruct (Z.lt_ge_cases (Z.of_nat n) (mw * mh)) as [Hn | Hn];
      destruct (Z.lt_ge_cases (Z.of_nat m) (mw * mh)) as [Hm | Hm].
    + now apply (Huni n m v).
    + destruct (Hval n v Hn Hvn); [contradiction |].
      destruct (Htrail m v Hm Hvm). lia.
    + destruct (Hval m v Hm Hvm); [contradiction |].
      destruct (Htrail n v Hn Hvn). lia.
    + destruct (Htrail n v Hn Hvn). destruct (Htrail m v Hm Hvm). lia.
Qed.

(** C2 (as amended): for a panel list whose panels share no cell and lie
    within 65535 columns and rows (unsigned fields, far corners that fit a
    [uint16_t]), with [MAX_LEDS] and the strip length within 16 bits and a
    table that this call allocates or that already has the total length, a
    call that does not fall back leaves a table of [getLengthTotal]
    entries, in which every entry other than the sentinel is below that
    total and occurs once. *)
Theorem C2_table_valid_without_overlap (MAX_LEDS : Z) (host : Host) (s : WS2812FX) :
  MAX_LEDS <= 65535 ->
  0 <= _length s <= 65535 ->
  Forall panel_ok (panel s) ->
  no_overlap (panel s) ->
  (forall t, customMappingTable s = Some t ->
     Z.of_nat (length t) =
       getLengthTotal (fst (matrix_bounds (panel s))) (snd (matrix_bounds (panel s)))
                      (_length s)) ->
  isMatrix (setUpMatrix MAX_LEDS host s) = true ->
  let s' := setUpMatrix MAX_LEDS host s in
  customMappingSize s' = getLengthTotal (maxWidth s') (maxHeight s') (_length s')
  /\ exists t, customMappingTable s' = Some t /\ table_valid t (customMappingSize s').
Proof.
  intros Hmax Hlen Hok Hno Hcap. cbv zeta. unfold setUpMatrix.
  destruct (isMatrix s) eqn:Hm; cbn [negb].
  2:{ intros H. congruence. }
  set (mw := fst (matrix_bounds (panel s))) in *.
  set (mh := snd (matrix_bounds (panel s))) in *.
  destruct (bounds_error MAX_LEDS mw mh) eqn:Hb; [cbn; discriminate |].
  assert (HM : 0 <= mw * mh <= getLengthTotal mw mh (_length s)
               /\ getLengthTotal mw mh (_length s) <= 65535).
  { unfold bounds_error in Hb. unfold getLengthTotal. nia. }
  destruct HM as [HM Htot].
  pose proof (matrix_bounds_fit (panel s) Hok) as Hfit. fold mw mh in Hfit.
  assert (Hbuild : forall t,
            Z.of_nat (length t) = getLengthTotal mw mh (_length s) ->
            table_valid
              (fst (scan (load_gaps host (mw * mh))
                         (fill_table t (mw * mh) (getLengthTotal mw mh (_length s)))
                         (matrix_cells mw (panel s))))
              (getLengthTotal mw mh (_length s))).
  { intros t Ht. now apply (scan_table_valid _ mw mh). }
  destruct (customMappingTable s) as [t |] eqn:Ht.
  - intros _. cbn. split; [reflexivity |]. eexists. split; [reflexivity |].
    apply Hbuild. now apply Hcap.
  - destruct (tableAlloc host); [| cbn; discriminate].
    intros _. cbn. split; [reflexivity |]. eexists. split; [reflexivity |].
    apply Hbuild. rewrite length_replicate. lia.
Qed.

Lemma C2_table_valid_witness :
  let s' := setUpMatrix 1500 (mkHost true None true) side_by_side in
  customMappingSize s' = getLengthTotal (maxWidth s') (maxHeight s') (_length s')
  /\ exists t, customMappingTable s' = Some t /\ table_valid t (customMappingSize s').
Proof.
  apply (C2_table_valid_without_overlap 1500 (mkHost true None true) side_by_side).
  - lia.
  - cbn. lia.
  - repeat constructor; cbn; lia.
  - cbn. repeat constructor. intros c r. unfold covers. cbn. lia.
  - intros t H. discriminate H.
  - reflexivity.
Defined.

(** C2 (as stated) fails on three kinds of input, each of which meets
    the other conditions of the amended claim and does not fall back.
    Panels that overlap: two 2x2 panels on the same cells and two trailing
    LEDs leave the six entries 4, 5, 6, 7, 4, 5, where 6 and 7 are not
    below 6 and 4 and 5 occur twice.  A table kept from an earlier call:
    it is reused at its old length, so four entries are left where
    [customMappingSize] says 10.  A panel whose columns run past 65535:
    [maxWidth] wraps around to 2, and the eight entries hold 8, 9, 12 and
    13, which are not below 8. *)
Lemma C2_assumptions_counterexample :
  (let s' := setUpMatrix 1500 (mkHost true None true) stacked_panels in
   Forall panel_ok (panel stacked_panels)
   /\ customMappingTable stacked_panels = None
   /\ isMatrix s' = true
   /\ customMappingSize s' = 6
   /\ customMappingTable s' = Some [4; 5; 6; 7; 4; 5]
   /\ ~ table_valid (table_of s') (customMappingSize s'))
  /\ (let s' := setUpMatrix 1500 (mkHost true None true) reused_table in
      Forall panel_ok (panel reused_table)
      /\ no_overlap (panel reused_table)
      /\ isMatrix s' = true
      /\ customMappingSize s' = 10
      /\ customMappingTable s' = Some [0; 1; 6; 7]
      /\ ~ table_valid (table_of s') (customMappingSize s'))
  /\ (let s' := setUpMatrix 1500 (mkHost true None true) far_panels in
      Forall (fun p => 0 <= xOffset p <= 65535 /\ 0 <= yOffset p <= 65535
                       /\ 0 <= width p <= 255 /\ 0 <= height p <= 255)
             (panel far_panels)
      /\ no_overlap (panel far_panels)
      /\ customMappingTable far_panels = None
      /\ isMatrix s' = true
      /\ customMappingSize s' = 8
      /\ customMappingTable s' = Some [0; 1; 4; 5; 8; 9; 12; 13]
      /\ ~ table_valid (table_of s') (customMappingSize s')).
Proof.
  cbv zeta. split; [| split].
  - split; [repeat constructor; cbn; lia |].
    split; [reflexivity |]. split; [reflexivity |]. split; [reflexivity |].
    split; [reflexivity |].
    intros (_ & Hval & _).
    specialize (Hval 2%nat 6 eq_refl). cbv in Hval.
    destruct Hval as [_ Hlt]; [discriminate |]. discriminate Hlt.
  - split; [repeat constructor; cbn; lia |].
    split; [cbn; repeat constructor; intros c r; unfold covers; cbn; lia |].
    split; [reflexivity |]. split; [reflexivity |]. split; [reflexivity |].
    intros (Hlen & _). vm_compute in Hlen. discriminate Hlen.
  - split; [repeat constructor; cbn; lia |].
    split; [cbn; repeat constructor; intros c r; unfold covers; cbn; lia |].
    split; [reflexivity |]. split; [reflexivity |]. split; [reflexivity |].
    split; [reflexivity |].
    intros (_ & Hval & _).
    specialize (Hval 4%nat 8 eq_refl). cbv in Hval.
    destruct Hval as [_ Hlt]; [discriminate |]. discriminate Hlt.
Qed.

End MapperFacts.
(** ** Segment pixel accessors *)

Module SegFacts.
Import Seg.

#[export] Instance plain_strip_faithful : FaithfulStrip (Z -> Z -> Z).
Proof.
  split.
  - intros x y c s. cbn. unfold plain_set. now rewrite !Z.eqb_refl.
  - intros x y x' y' c s Hne. cbn. unfold plain_set.
    destruct (Z.eqb_spec x x'); destruct (Z.eqb_spec y y'); cbn; congruence.
Qed.

(** *** [Segment::XY] *)

(** C10 (as amended): for an active segment (whose virtual dimensions are
    then at least 1) [XY(x, y)] is [(x mod vW) + (y mod vH) * vW] converted
    to the [uint16_t] it returns, that is modulo 65536, which is below
    [vW * vH]; it is [(x mod vW) + (y mod vH) * vW] itself when the segment
    has at most 65536 logical pixels.  For an inactive segment [XY] is
    0. *)
Theorem C10_XY_wraps (seg : Segment) (x y : Z) :
  0 <= x < 65536 -> 0 <= y < 65536 ->
  (isActive seg = false -> XY seg x y = Some 0)
  /\ (isActive seg = true -> 0 < virtualWidth seg -> 0 < virtualHeight seg ->
      exists r, XY seg x y = Some r
        /\ r = to_u16 (x mod virtualWidth seg
                       + (y mod virtualHeight seg) * virtualWidth seg)
        /\ 0 <= r < virtualWidth seg * virtualHeight seg
        /\ (virtualWidth seg * virtualHeight seg <= 65536 ->
            r = x mod virtualWidth seg
                + (y mod virtualHeight seg) * virtualWidth seg)).
Proof.
  intros Hx Hy. unfold XY. split.
  - intros ->. reflexivity.
  - intros -> Hw Hh. unfold c_mod.
    destruct (Z.eqb_spec (virtualWidth seg) 0); [lia |].
    destruct (Z.eqb_spec (virtualHeight seg) 0); [lia |].
    eexists. split; [reflexivity |]. split; [reflexivity |].
    pose proof (Z.mod_pos_bound x (virtualWidth seg) Hw) as Hxm.
    pose proof (Z.mod_pos_bound y (virtualHeight seg) Hh) as Hym.
    set (xm := x mod virtualWidth seg) in *.
    set (ym := y mod virtualHeight seg) in *.
    assert (Hv : 0 <= xm + ym * virtualWidth seg
                 < virtualWidth seg * virtualHeight seg) by nia.
    split.
    + unfold to_u16.
      pose proof (Z.mod_pos_bound (xm + ym * virtualWidth seg) 65536 ltac:(lia)).
      pose proof (Z.mod_le (xm + ym * virtualWidth seg) 65536 ltac:(lia) ltac:(lia)).
      lia.
    + intros Hsmall. apply to_u16_small. lia.
Qed.

Lemma C10_XY_wraps_witness :
  XY grouped_seg 5 7 = Some 3 /\ XY grouped_seg 1 0 = Some 1.
Proof.
  destruct (C10_XY_wraps grouped_seg 5 7) as [_ H]; [lia | lia |].
  destruct H as (r & Hr & _ & _ & Hsmall); [reflexivity | cbn; lia | cbn; lia |].
  split; [| reflexivity].
  rewrite Hr. f_equal. rewrite Hsmall by (cbn; lia). reflexivity.
Defined.

(** C10 (as stated) fails on a segment of more than 65536 logical pixels:
    on an active 300 x 300 segment [XY(299, 299)] is 24463, where
    [(x mod vW) + (y mod vH) * vW] is 89999. *)
Lemma C10_truncation_counterexample :
  isActive wide_seg = true
  /\ XY wide_seg 299 299 = Some 24463
  /\ 299 mod virtualWidth wide_seg + 299 mod virtualHeight wide_seg * virtualWidth wide_seg
     = 89999
  /\ ~ (forall seg x y, isActive seg = true ->
          XY seg x y = Some (x mod virtualWidth seg
                             + y mod virtualHeight seg * virtualWidth seg)).
Proof.
  split; [reflexivity |]. split; [reflexivity |]. split; [reflexivity |].
  intros Hall. specialize (Hall wide_seg 299 299 eq_refl). discriminate Hall.
Qed.

(** *** Writing then reading *)

Section ReadWrite.

Context {S : Type} `{FaithfulStrip S} `{ColorOps}.

(** After a run of strip calls that all carry the colour [c], every
    position among them reads [c]. *)
Lemma writes_read (ws : list (Z * Z * Z)) (s : S) x y c :
  (forall w, w ∈ ws -> snd w = c) -> (x, y, c) ∈ ws ->
  strip_getPixelColorXY x y (foldl do_write s ws) = c.
Proof.
  induction ws as [| w ws IH] using rev_ind; intros Hcol Hin.
  - inversion Hin.
  - rewrite foldl_snoc. destruct w as [[x' y'] c'].
    assert (Hc : c' = c).
    { apply (Hcol (x', y', c')). apply elem_of_app. right. now left. }
    subst c'. unfold do_write at 1. cbn [fst snd].
    destruct (decide ((x', y') = (x, y))) as [[= -> ->] | Hne].
    + apply strip_get_set_same.
    + rewrite strip_get_set_other by exact Hne.
      apply IH.
      * intros w Hw. apply Hcol. apply elem_of_app. now left.
      * apply elem_of_app in Hin as [Hin | Hin]; [exact Hin |].
        apply list_elem_of_singleton in Hin. congruence.
Qed.

Lemma cell_writes_colour seg xX yY col w :
  w ∈ cell_writes seg xX yY col -> snd w = col.
Proof.
  unfold cell_writes. intros Hw.
  repeat (apply elem_of_app in Hw as [Hw | Hw]);
    destruct (mirror seg), (mirror_y seg), (transpose seg); cbn in Hw;
    repeat (apply elem_of_cons in Hw as [-> | Hw]); try reflexivity;
    try (now inversion Hw).
Qed.

Lemma group_writes_colour seg x y col w :
  w ∈ group_writes seg x y col -> snd w = col.
Proof.
  unfold group_writes. intros Hw.
  apply list_elem_of_bind in Hw as (j & Hw & _).
  apply list_elem_of_bind in Hw as (g & Hw & _).
  cbv zeta in Hw.
  destruct ((to_u16 (x + g) >=? width seg) || (to_u16 (y + j) >=? height seg)).
  - inversion Hw.
  - now apply cell_writes_colour in Hw.
Qed.

(** The first iteration of the grouping loops writes the canonical cell. *)
Lemma group_writes_canonical seg x y col :
  1 <= grouping seg -> 0 <= x < width seg -> 0 <= y < height seg ->
  width seg <= 65535 -> height seg <= 65535 ->
  (start seg + x, startY seg + y, col) ∈ group_writes seg x y col.
Proof.
  intros Hg Hx Hy Hw Hh. unfold group_writes.
  apply list_elem_of_bind. exists 0. split; [| apply elem_of_seqZ; lia].
  apply list_elem_of_bind. exists 0. split; [| apply elem_of_seqZ; lia].
  cbv zeta. rewrite !Z.add_0_r, !to_u16_small by lia.
  destruct (Z.geb_spec x (width seg)); [lia |].
  destruct (Z.geb_spec y (height seg)); [lia |].
  cbn [orb]. unfold cell_writes. apply elem_of_app. left. now left.
Qed.

(** In-range logical coordinates of a well-formed segment expand to a
    physical cell of the segment, the same one for the write and for the
    read. *)
Lemma set_physical_in_range seg x y :
  seg_ok seg -> 0 <= x < virtualWidth seg -> 0 <= y < virtualHeight seg ->
  exists px py, set_physical seg x y = Some (px, py)
    /\ 0 <= px < width seg /\ 0 <= py < height seg
    /\ px = (let x1 := if reverse seg then virtualWidth seg - x - 1 else x in
             let y1 := if reverse_y seg then virtualHeight seg - y - 1 else y in
             (if transpose seg then y1 else x1) * groupLength seg)
    /\ py = (let x1 := if reverse seg then virtualWidth seg - x - 1 else x in
             let y1 := if reverse_y seg then virtualHeight seg - y - 1 else y in
             (if transpose seg then x1 else y1) * groupLength seg).
Proof.
  intros (Hg & Hgl & Hw & Hh & Hvw & Hvh & Hfw & Hfh) Hx Hy.
  unfold set_physical. cbv zeta.
  set (x1 := if reverse seg then virtualWidth seg - x - 1 else x).
  set (y1 := if reverse_y seg then virtualHeight seg - y - 1 else y).
  assert (Hx1 : 0 <= x1 <= virtualWidth seg - 1)
    by (subst x1; destruct (reverse seg); lia).
  assert (Hy1 : 0 <= y1 <= virtualHeight seg - 1)
    by (subst y1; destruct (reverse_y seg); lia).
  assert (Hxg : 0 <= x1 * groupLength seg
                <= (virtualWidth seg - 1) * groupLength seg) by nia.
  assert (Hyg : 0 <= y1 * groupLength seg
                <= (virtualHeight seg - 1) * groupLength seg) by nia.
  rewrite (to_u16_small x1) by lia.
  destruct (transpose seg); cbn [fst snd].
  - destruct (Z.geb_spec (y1 * groupLength seg) (width seg)); [lia |].
    destruct (Z.geb_spec (x1 * groupLength seg) (height seg)); [lia |].
    cbn [orb]. eexists _, _. split; [reflexivity |]. repeat split; lia.
  - destruct (Z.geb_spec (x1 * groupLength seg) (width seg)); [lia |].
    destruct (Z.geb_spec (y1 * groupLength seg) (height seg)); [lia |].
    cbn [orb]. eexists _, _. split; [reflexivity |]. repeat split; lia.
Qed.

Lemma scaled_full col : scaled col 255 = col.
Proof. reflexivity. Qed.

End ReadWrite.

(** C1: on an active segment at full brightness and without transient
    buffer, over a strip accessor that stores and returns colours
    faithfully, reading an in-range logical pixel right after writing it
    returns the colour written.  The segment is well formed ([seg_ok]):
    grouping at least 1 and virtual dimensions that are the logical pixel
    counts of the physical ones. *)
Theorem C1_set_then_get {S : Type} `{FaithfulStrip S} `{ColorOps}
    (seg : Segment) (x y c : Z) (f : Frame S) :
  isActive seg = true ->
  currentBri seg = 255 ->
  _activeBuffer f = None ->
  seg_ok seg ->
  0 <= x < virtualWidth seg -> 0 <= y < virtualHeight seg ->
  getPixelColorXY seg x y (setPixelColorXY seg x y c f) = c.
Proof.
  intros Hact Hbri Hbuf Hok Hx Hy.
  destruct (set_physical_in_range seg x y Hok Hx Hy)
    as (px & py & Hphys & Hpx & Hpy & Epx & Epy).
  destruct Hok as (Hg & Hgl & Hw & Hh & Hvw & Hvh & Hfw & Hfh).
  assert (Hrange : (x >=? virtualWidth seg) || (y >=? virtualHeight seg)
                   || (x <? 0) || (y <? 0) = false).
  { destruct (Z.geb_spec x (virtualWidth seg)); [lia |].
    destruct (Z.geb_spec y (virtualHeight seg)); [lia |].
    destruct (Z.ltb_spec x 0); [lia |].
    destruct (Z.ltb_spec y 0); [lia |]. reflexivity. }
  unfold setPixelColorXY. rewrite Hact, Hrange, Hbuf, Hbri. cbn [negb].
  cbv zeta. rewrite scaled_full.
  unfold getPixelColorXY. cbv zeta.
  rewrite !(to_u16_small x), !(to_u16_small y) by lia.
  rewrite Hact, Hrange. cbn [negb _activeBuffer strip].
  set (x1 := if reverse seg then virtualWidth seg - x - 1 else x) in *.
  set (y1 := if reverse_y seg then virtualHeight seg - y - 1 else y) in *.
  replace (if reverse seg then to_u16 (virtualWidth seg - x - 1) else x) with x1
    by (subst x1; destruct (reverse seg); [rewrite to_u16_small by lia |]; reflexivity).
  replace (if reverse_y seg then to_u16 (virtualHeight seg - y - 1) else y) with y1
    by (subst y1; destruct (reverse_y seg); [rewrite to_u16_small by lia |]; reflexivity).
  cbv zeta in Epx, Epy.
  replace (fst (if transpose seg then (y1, x1) else (x1, y1)) * groupLength seg)
    with px by (rewrite Epx; destruct (transpose seg); reflexivity).
  replace (snd (if transpose seg then (y1, x1) else (x1, y1)) * groupLength seg)
    with py by (rewrite Epy; destruct (transpose seg); reflexivity).
  rewrite !(to_u16_small px), !(to_u16_small py) by lia.
  destruct (Z.geb_spec px (width seg)); [lia |].
  destruct (Z.geb_spec py (height seg)); [lia |].
  cbn [orb]. unfold strip_writes. rewrite Hphys.
  apply writes_read.
  - intros w Hin. now apply group_writes_colour in Hin.
  - apply group_writes_canonical; lia.
Qed.

Lemma C1_set_then_get_witness :
  getPixelColorXY grouped_seg 1 1 (setPixelColorXY grouped_seg 1 1 16711680 dark)
  = 16711680.
Proof.
  apply (C1_set_then_get grouped_seg 1 1 16711680 dark).
  - reflexivity.
  - reflexivity.
  - reflexivity.
  - unfold seg_ok. cbn. lia.
  - cbn. lia.
  - cbn. lia.
Defined.

(** *** Where the writes land *)

(** The canonical cell and the two single mirrors stay inside the segment. *)
Lemma cell_writes_in_segment seg xX yY col X Y c :
  0 <= xX < width seg -> 0 <= yY < height seg ->
  mirror seg && mirror_y seg = false ->
  (X, Y, c) ∈ cell_writes seg xX yY col -> in_segment seg X Y.
Proof.
  intros Hx Hy Hm Hin. unfold cell_writes in Hin.
  assert (Hform : forall px py, 0 <= px < width seg -> 0 <= py < height seg ->
                                in_segment seg (start seg + px) (startY seg + py)).
  { intros px py Hpx Hpy. exists px, py. repeat split; lia. }
  destruct (mirror seg), (mirror_y seg), (transpose seg); try discriminate Hm;
    cbn in Hin;
    repeat (apply elem_of_cons in Hin as [[= -> -> ->] | Hin]);
    try (now inversion Hin);
    try (apply Hform; lia).
  all: try (replace (start seg + width seg - xX - 1)
              with (start seg + (width seg - xX - 1)) by lia).
  all: try (replace (startY seg + height seg - yY - 1)
              with (startY seg + (height seg - yY - 1)) by lia).
  all: apply Hform; lia.
Qed.

(** C5 at a segment that starts at column 4 and mirrors in both axes: the
    write of logical pixel (0, 0) reaches the strip as four calls; the
    first three are offset by the origin, the fourth, the doubly mirrored
    one, is not and lands on (1, 1), outside the segment. *)
Theorem C5_double_mirror_leaves_segment :
  strip_writes mirrored_seg 0 0 255 = [(4, 0, 255); (5, 0, 255); (4, 1, 255); (1, 1, 255)]
  /\ strip (setPixelColorXY mirrored_seg 0 0 255 dark) 1 1 = 255
  /\ ~ in_segment mirrored_seg 1 1.
Proof.
  split; [reflexivity |]. split; [reflexivity |].
  intros (px & py & Hpx & Hpy & HX & HY). cbn in HX. lia.
Qed.

(** *** The anti-aliased write *)

(** C6, exact case: a point on an integer coordinate in both axes is one
    call, with the colour unmodified. *)
Lemma aa_calls_exact {S : Type} `{StripAccessor S} `{ColorOps}
    seg sp col (f : Frame S) :
  isActive seg = true -> normalized sp = true ->
  xL sp = xR sp -> yT sp = yB sp ->
  aa_calls seg sp col true f = [(xL sp, yT sp, col)].
Proof.
  intros Ha Hn Hx Hy. unfold aa_calls. rewrite Ha, Hn, Hx, Hy. cbn [negb].
  now rewrite !Z.eqb_refl.
Qed.

(** C6, only [y] fractional: the top and the bottom cell are both written. *)
Lemma aa_calls_y_fractional {S : Type} `{StripAccessor S} `{ColorOps}
    seg sp col (f : Frame S) :
  isActive seg = true -> normalized sp = true ->
  xL sp = xR sp -> yT sp <> yB sp ->
  fst <$> aa_calls seg sp col true f = [(xL sp, yT sp); (xL sp, yB sp)].
Proof.
  intros Ha Hn Hx Hy. unfold aa_calls. rewrite Ha, Hn, Hx. cbn [negb].
  rewrite Z.eqb_refl. destruct (Z.eqb_spec (yT sp) (yB sp)); [contradiction |].
  reflexivity.
Qed.

(** C6, only [x] fractional: both calls go to the right cell [xR]; the left
    cell [xL] is not written. *)
Lemma aa_calls_x_fractional {S : Type} `{StripAccessor S} `{ColorOps}
    seg sp col (f : Frame S) :
  isActive seg = true -> normalized sp = true ->
  xL sp <> xR sp -> yT sp = yB sp ->
  fst <$> aa_calls seg sp col true f = [(xR sp, yT sp); (xR sp, yT sp)].
Proof.
  intros Ha Hn Hx Hy. unfold aa_calls. rewrite Ha, Hn, Hy. cbn [negb].
  rewrite Z.eqb_refl.
  destruct (Z.eqb_spec (xL sp) (xR sp)); [contradiction |].
  destruct (Z.eqb_spec (xR sp) (xL sp)); [congruence |].
  reflexivity.
Qed.

(** C6 at the point half way along a 2 x 1 segment: both calls target the
    cell (1, 0), and the left neighbour (0, 0) keeps its colour. *)
Theorem C6_x_fractional_misses_left_cell :
  fst <$> aa_calls row_seg half_way 16711680 true dark = [(1, 0); (1, 0)]
  /\ getPixelColorXY row_seg 0 0 (setPixelColorXY_aa row_seg half_way 16711680 true dark)
     = getPixelColorXY row_seg 0 0 dark
  /\ getPixelColorXY row_seg 1 0 (setPixelColorXY_aa row_seg half_way 16711680 true dark)
     <> getPixelColorXY row_seg 1 0 dark.
Proof.
  split; [reflexivity |]. split; [reflexivity |].
  vm_compute. discriminate.
Qed.

End SegFacts.
(** ** 2D transitions *)

Module TransitionFacts.
Import Seg Transition.

Section Swipes.

Variable hashInt : Z -> Z.
Context `{ColorOps}.

(** Under a swipe style the colour of a cell is chosen by its threshold:
    [buffer2] up to the threshold, [buffer1] beyond, both at the index of
    the cell itself. *)
Lemma cell_colour_swipe tr width height x y pos :
  is_swipe (transitionStyle tr) = true ->
  swipe_pos (transitionStyle tr) width height x y = Some pos ->
  cell_colour hashInt tr width height x y =
    Some (if progress tr <=? pos
          then rd (buffer2 tr) (y * width + x)
          else rd (buffer1 tr) (y * width + x)).
Proof.
  intros Hs Hpos. unfold cell_colour. rewrite Hs, Hpos. reflexivity.
Qed.

Lemma cell_colour_swipe_inv tr width height x y c :
  is_swipe (transitionStyle tr) = true ->
  cell_colour hashInt tr width height x y = Some c ->
  exists pos, swipe_pos (transitionStyle tr) width height x y = Some pos
    /\ c = (if progress tr <=? pos
            then rd (buffer2 tr) (y * width + x)
            else rd (buffer1 tr) (y * width + x)).
Proof.
  intros Hs. unfold cell_colour. rewrite Hs.
  destruct (swipe_pos (transitionStyle tr) width height x y) as [pos |];
    cbn; [| discriminate].
  intros [= <-]. exists pos. split; reflexivity.
Qed.

(** The calls of the aligned loop: one per cell, in the order of the
    loops, each with the colour of its cell. *)
Lemma aligned_calls_cells tr width height calls :
  aligned_calls hashInt tr width height = Some calls ->
  fst <$> calls = cells width height
  /\ forall x y c, (x, y, c) ∈ calls ->
       cell_colour hashInt tr width height x y = Some c.
Proof.
  unfold aligned_calls. intros Hm. apply mapM_Some_1 in Hm.
  induction Hm as [| xy w l k Hw Hm IH].
  - split; [reflexivity |]. intros x y c Hin. inversion Hin.
  - destruct IH as [IH1 IH2].
    destruct (cell_colour hashInt tr width height (fst xy) (snd xy)) as [c0 |] eqn:Hc;
      cbn in Hw; [| discriminate].
    injection Hw as <-. split.
    + cbn. rewrite IH1. now destruct xy.
    + intros x y c Hin. apply elem_of_cons in Hin as [[= -> -> ->] | Hin].
      * exact Hc.
      * now apply IH2.
Qed.

End Swipes.

(** C4 (as amended): under the four swipes, outside-in and inside-out, a
    cell whose threshold [pos] satisfies [progress <= pos] is rendered with
    the colour of the outgoing (old) buffer at that cell, and a cell with
    [progress > pos] with the colour of the incoming (new) buffer at that
    cell; the loop renders each cell once, from its own index. *)
Theorem C4_swipe_keeps_old_up_to_threshold (hashInt : Z -> Z) `{ColorOps}
    (tr : Snapshots) (width height : Z) (calls : list (Z * Z * Z)) :
  is_swipe (transitionStyle tr) = true ->
  aligned_calls hashInt tr width height = Some calls ->
  fst <$> calls = cells width height
  /\ forall x y c, (x, y, c) ∈ calls ->
       exists pos, swipe_pos (transitionStyle tr) width height x y = Some pos
         /\ (progress tr <= pos -> c = rd (outgoing tr) (y * width + x))
         /\ (progress tr > pos -> c = rd (incoming tr) (y * width + x)).
Proof.
  intros Hs Hcalls.
  destruct (aligned_calls_cells hashInt tr width height calls Hcalls) as [Hcells Hcol].
  split; [exact Hcells |].
  intros x y c Hin.
  destruct (cell_colour_swipe_inv hashInt tr width height x y c Hs (Hcol x y c Hin))
    as (pos & Hpos & ->).
  exists pos. split; [exact Hpos |]. unfold outgoing, incoming.
  destruct (Z.leb_spec (progress tr) pos); split; intros; (reflexivity || lia).
Qed.

Lemma C4_swipe_keeps_old_up_to_threshold_witness :
  fst <$> [(0, 0, 2); (1, 0, 2)] = cells 2 1
  /\ forall x y c, (x, y, c) ∈ [(0, 0, 2); (1, 0, 2)] ->
       exists pos, swipe_pos TRANSITION_STYLE_SWIPE_RIGHT 2 1 x y = Some pos
         /\ (0 <= pos -> c = rd (outgoing swipe_start) (y * 2 + x))
         /\ (0 > pos -> c = rd (incoming swipe_start) (y * 2 + x)).
Proof.
  apply (C4_swipe_keeps_old_up_to_threshold (fun s => s) swipe_start 2 1
           [(0, 0, 2); (1, 0, 2)]).
  - reflexivity.
  - reflexivity.
Defined.

(** C4 (as stated) fails: at the start of a swipe to the right the first
    cell has threshold 0, [progress <= pos] holds, and the cell is rendered
    with the colour 2 of the outgoing buffer, not the colour 1 of the
    incoming one. *)
Lemma C4_incoming_counterexample :
  swipe_pos TRANSITION_STYLE_SWIPE_RIGHT 2 1 0 0 = Some 0
  /\ progress swipe_start <= 0
  /\ aligned_calls (fun s => s) swipe_start 2 1 = Some [(0, 0, 2); (1, 0, 2)]
  /\ rd (incoming swipe_start) (0 * 2 + 0) = 1
  /\ rd (outgoing swipe_start) (0 * 2 + 0) = 2
  /\ ~ (forall x y c pos,
          (x, y, c) ∈ [(0, 0, 2); (1, 0, 2)] ->
          swipe_pos TRANSITION_STYLE_SWIPE_RIGHT 2 1 x y = Some pos ->
          progress swipe_start <= pos ->
          c = rd (incoming swipe_start) (y * 2 + x)).
Proof.
  split; [reflexivity |]. split; [cbn; lia |]. split; [reflexivity |].
  split; [reflexivity |]. split; [reflexivity |].
  intros Hall.
  specialize (Hall 0 0 2 0 ltac:(now left) eq_refl ltac:(cbn; lia)).
  discriminate Hall.
Qed.

(** *** Division by [halfWidth] *)

(** With at least two logical columns the divisor is not zero and the
    threshold of outside-in and inside-out is computed. *)
Lemma halfWidth_nonzero width : 2 <= width <= 65535 -> halfWidth width <> 0.
Proof.
  intros Hw. unfold halfWidth. rewrite Z.shiftr_div_pow2 by lia.
  change (2 ^ 1) with 2.
  rewrite to_u16_small; [| split; [apply Z.div_pos; lia | apply Z.div_lt_upper_bound; lia]].
  assert (1 <= width / 2) by (apply Z.div_le_lower_bound; lia). lia.
Qed.

Lemma swipe_pos_defined st width height x y :
  is_swipe st = true -> 2 <= width <= 65535 -> height <> 0 ->
  exists pos, swipe_pos st width height x y = Some pos.
Proof.
  intros Hs Hw Hh. pose proof (halfWidth_nonzero width Hw) as Hhw.
  unfold swipe_pos, c_div.
  destruct st; try discriminate Hs;
    repeat match goal with
           | |- context [?a =? 0] => destruct (Z.eqb_spec a 0); [lia |]
           end; cbn; eauto.
Qed.

(** C9 on a segment one logical pixel wide: [halfWidth] is [1 >> 1 = 0],
    the first cell of the outside-in loop divides by it, and the rendering
    has no result.  Inside-out divides the same way. *)
Theorem C9_outside_in_divides_by_zero :
  virtualWidth thin_seg = 1
  /\ halfWidth (virtualWidth thin_seg) = 0
  /\ hd_error (cells (virtualWidth thin_seg) (virtualHeight thin_seg)) = Some (0, 0)
  /\ swipe_pos TRANSITION_STYLE_OUTSIDE_IN 1 2 0 0 = None
  /\ swipe_pos TRANSITION_STYLE_INSIDE_OUT 1 2 0 0 = None
  /\ render2DTransition (fun s => s) thin_seg thin_outside_in dark = None.
Proof. repeat split; reflexivity. Qed.

(** *** Fairy dust *)

(** The scaling of a shuffled index to a threshold is strictly increasing
    on segments of at most 65535 cells: two cells share a threshold exactly
    when [hashInt] sends their indices to the same residue. *)
Lemma fairy_scale_strict len s s' :
  0 < len <= 65535 -> 0 <= s < s' -> s' < len ->
  to_u16 (to_u32 (s * 65535) / len) < to_u16 (to_u32 (s' * 65535) / len).
Proof.
  intros Hl Hs Hs'.
  rewrite !to_u32_small by nia.
  assert (Hq : forall a, 0 <= a < len -> 0 <= a * 65535 / len < 65535).
  { intros a Ha. split; [apply Z.div_pos; nia |].
    apply Z.div_lt_upper_bound; nia. }
  rewrite !to_u16_small by (pose proof (Hq s); pose proof (Hq s'); lia).
  assert (Hstep : s * 65535 / len + 1 <= s' * 65535 / len).
  { replace (s * 65535 / len + 1) with ((s * 65535 + 1 * len) / len)
      by (rewrite Z.div_add by lia; reflexivity).
    apply Z.div_le_mono; nia. }
  lia.
Qed.

Lemma fairy_pos_shared (hashInt : Z -> Z) len i i' pos :
  0 < len <= 65535 ->
  fairy_pos hashInt len i = Some pos -> fairy_pos hashInt len i' = Some pos ->
  to_u32 (hashInt (to_u32 i)) mod len = to_u32 (hashInt (to_u32 i')) mod len.
Proof.
  intros Hl. unfold fairy_pos, c_mod, c_div.
  destruct (Z.eqb_spec len 0); [lia |]. cbn.
  intros [= <-] [= He].
  set (s := to_u32 (hashInt (to_u32 i)) mod len) in *.
  set (s' := to_u32 (hashInt (to_u32 i')) mod len) in *.
  assert (Hs : 0 <= s < len) by (apply Z.mod_pos_bound; lia).
  assert (Hs' : 0 <= s' < len) by (apply Z.mod_pos_bound; lia).
  destruct (Z.lt_trichotomy s s') as [Hlt | [Heq | Hgt]]; [| exact Heq |].
  - pose proof (fairy_scale_strict len s s' Hl ltac:(lia) ltac:(lia)). lia.
  - pose proof (fairy_scale_strict len s' s Hl ltac:(lia) ltac:(lia)). lia.
Qed.

End TransitionFacts.
(** ** More on the matrix mapper *)

Module MapperMore.
Import Mapper MapperFacts Layout.

(** Closed comparisons of integers, by evaluation. *)
Ltac by_eval :=
  vm_compute;
  repeat match goal with |- _ /\ _ => split end;
  first [ reflexivity | let H := fresh in intros H; discriminate H ].

(** *** What a successful call builds *)

Lemma setUpMatrix_built MAX_LEDS host s :
  isMatrix (setUpMatrix MAX_LEDS host s) = true ->
  let mw := fst (matrix_bounds (panel s)) in
  let mh := snd (matrix_bounds (panel s)) in
  let total := getLengthTotal mw mh (_length s) in
  bounds_error MAX_LEDS mw mh = false
  /\ exists t,
       (customMappingTable s = Some t
        \/ (customMappingTable s = None /\ t = replicate (Z.to_nat total) 0))
       /\ setUpMatrix MAX_LEDS host s =
          {| isMatrix := true;
             panel := panel s;
             panels := panels s;
             _length := _length s;
             maxWidth := mw;
             maxHeight := mh;
             customMappingTable :=
               Some (fst (scan (load_gaps host (mw * mh))
                               (fill_table t (mw * mh) total)
                               (matrix_cells mw (panel s))));
             customMappingSize := total;
             segmentResets := segmentResets s |}.
Proof.
  cbv zeta. unfold setUpMatrix.
  destruct (isMatrix s) eqn:Hm; cbn [negb]; [| congruence].
  destruct (bounds_error MAX_LEDS _ _) eqn:Hb; [cbn; discriminate |].
  intros Hres. split; [reflexivity |].
  destruct (customMappingTable s) as [t |] eqn:Ht.
  - exists t. split; [now left | reflexivity].
  - destruct (tableAlloc host); [| cbn in Hres; discriminate].
    eexists. split; [right; split; reflexivity | reflexivity].
Qed.

(** The side conditions of a successful call on a well-formed strip: the
    matrix has at least 2 x 2 cells, fits in the table, and the table has
    its full length. *)
Lemma built_sizes (MAX_LEDS : Z) (s : WS2812FX) (t : list Z) :
  MAX_LEDS <= 65535 -> 0 <= _length s <= 65535 ->
  (forall t0, customMappingTable s = Some t0 ->
     Z.of_nat (length t0) =
       getLengthTotal (fst (matrix_bounds (panel s))) (snd (matrix_bounds (panel s)))
                      (_length s)) ->
  bounds_error MAX_LEDS (fst (matrix_bounds (panel s)))
                        (snd (matrix_bounds (panel s))) = false ->
  (customMappingTable s = Some t
   \/ (customMappingTable s = None
       /\ t = replicate (Z.to_nat (getLengthTotal (fst (matrix_bounds (panel s)))
                                                  (snd (matrix_bounds (panel s)))
                                                  (_length s))) 0)) ->
  let mw := fst (matrix_bounds (panel s)) in
  let mh := snd (matrix_bounds (panel s)) in
  let total := getLengthTotal mw mh (_length s) in
  2 <= mw /\ 2 <= mh /\ 0 <= mw * mh <= total /\ total <= 65535
  /\ Z.of_nat (length t) = total.
Proof.
  intros Hmax Hlen Hcap Hb Ht. cbv zeta.
  set (mw := fst (matrix_bounds (panel s))) in *.
  set (mh := snd (matrix_bounds (panel s))) in *.
  unfold bounds_error in Hb. unfold getLengthTotal in *.
  split; [lia |]. split; [lia |]. split; [nia |]. split; [nia |].
  destruct Ht as [Ht | [_ ->]].
  - now apply Hcap.
  - rewrite length_replicate. nia.
Qed.

(** *** Cells the scan does not write *)

Lemma scan_length g cells st :
  length (fst (foldl (scan_cell g) st cells)) = length (fst st).
Proof.
  revert st. induction cells as [| x cells IH]; intros st; [reflexivity |].
  cbn [foldl]. rewrite IH. unfold scan_cell. cbn [fst].
  destruct (gap_allows g x _); [apply length_wr | reflexivity].
Qed.

Lemma scan_unwritten g cells st (n : nat) :
  (forall x, x ∈ cells -> 0 <= x) ->
  (forall x, x ∈ cells -> Z.to_nat x = n ->
     gap_allows g x (fun v => v >? 0) = false) ->
  fst (foldl (scan_cell g) st cells) !! n = fst st !! n.
Proof.
  revert st. induction cells as [| x cells IH]; intros st Hpos Hskip; [reflexivity |].
  cbn [foldl]. rewrite IH.
  - unfold scan_cell. cbn [fst].
    destruct (gap_allows g x (fun v => v >? 0)) eqn:Hw; [| reflexivity].
    rewrite wr_insert by (apply Hpos; now left).
    apply list_lookup_insert_ne. intros He.
    rewrite (Hskip x) in Hw; [discriminate | now left | exact He].
  - intros y Hy. apply Hpos. now right.
  - intros y Hy. apply Hskip. now right.
Qed.

(** *** The scan without gap table *)

Lemma scan_nogap_pix cells t pix :
  0 <= pix -> pix + Z.of_nat (length cells) <= 65535 ->
  snd (foldl (scan_cell None) (t, pix) cells) = pix + Z.of_nat (length cells).
Proof.
  revert t pix. induction cells as [| x cells IH]; intros t pix Hp Hl.
  - cbn. lia.
  - cbn [foldl length] in *. unfold scan_cell at 2. cbn [gap_allows fst snd].
    rewrite to_u16_small by lia. rewrite IH by lia. lia.
Qed.

(** Without gap table and without a cell visited twice, the cell visited
    at position [k] of the scan holds [k]. *)
Lemma scan_nogap_lookup cells t (k : nat) idx :
  NoDup cells ->
  (forall x, x ∈ cells -> 0 <= x /\ (Z.to_nat x < length t)%nat) ->
  Z.of_nat (length cells) <= 65535 ->
  cells !! k = Some idx ->
  fst (scan None t cells) !! Z.to_nat idx = Some (Z.of_nat k).
Proof.
  unfold scan. revert k idx.
  induction cells as [| x cells IH] using rev_ind; intros k idx Hnd Hin Hlen Hk.
  - discriminate Hk.
  - rewrite foldl_snoc. rewrite length_app in Hlen. cbn [length] in Hlen.
    apply NoDup_app in Hnd as (Hnd & Hnot & _).
    assert (Hx : 0 <= x /\ (Z.to_nat x < length t)%nat).
    { apply Hin. apply elem_of_app. right. now left. }
    destruct (foldl (scan_cell None) (t, 0) cells) as [t' pix'] eqn:Hst.
    assert (Hpix : pix' = Z.of_nat (length cells)).
    { pose proof (scan_nogap_pix cells t 0 ltac:(lia) ltac:(lia)) as Hp.
      rewrite Hst in Hp. cbn in Hp. lia. }
    assert (Hlt' : length t' = length t).
    { pose proof (scan_length None cells (t, 0)) as Hl. now rewrite Hst in Hl. }
    unfold scan_cell. cbn [gap_allows fst snd].
    rewrite wr_insert by lia.
    destruct (decide (k < length cells)%nat) as [Hlt | Hge].
    + rewrite lookup_app_l in Hk by exact Hlt.
      assert (Hidx : idx ∈ cells) by (eapply list_elem_of_lookup_2; exact Hk).
      rewrite list_lookup_insert_ne.
      * specialize (IH k idx Hnd). cbn [fst] in IH.
        apply IH; [| lia | exact Hk].
        intros y Hy. apply Hin. apply elem_of_app. now left.
      * intros He. apply (Hnot idx Hidx).
        assert (0 <= idx) by (apply Hin; apply elem_of_app; now left).
        assert (x = idx) by lia. subst. now left.
    + assert (Hkl : k = length cells).
      { apply lookup_lt_Some in Hk. rewrite length_app in Hk. cbn in Hk. lia. }
      subst k. rewrite list_lookup_middle in Hk by reflexivity.
      injection Hk as <-. rewrite list_lookup_insert_eq by lia.
      now rewrite Hpix.
Qed.

(** *** Holes, trailing LEDs and gaps *)

Section Built.

Variables (MAX_LEDS : Z) (host : Host) (s : WS2812FX).
Hypothesis Hok : strip_ok MAX_LEDS s.
Hypothesis Hres : isMatrix (setUpMatrix MAX_LEDS host s) = true.

Let mw := fst (matrix_bounds (panel s)).
Let mh := snd (matrix_bounds (panel s)).
Let total := getLengthTotal mw mh (_length s).

Lemma built_table :
  exists t,
    Z.of_nat (length t) = total
    /\ 2 <= mw /\ 2 <= mh /\ 0 <= mw * mh <= total /\ total <= 65535
    /\ maxWidth (setUpMatrix MAX_LEDS host s) = mw
    /\ maxHeight (setUpMatrix MAX_LEDS host s) = mh
    /\ customMappingSize (setUpMatrix MAX_LEDS host s) = total
    /\ table_of (setUpMatrix MAX_LEDS host s) =
         fst (scan (load_gaps host (mw * mh)) (fill_table t (mw * mh) total)
                   (matrix_cells mw (panel s))).
Proof.
  destruct Hok as (Hmax & Hlen & Hp & Hcap).
  destruct (setUpMatrix_built MAX_LEDS host s Hres) as (Hb & t & Ht & E).
  destruct (built_sizes MAX_LEDS s t Hmax Hlen Hcap Hb Ht)
    as (H1 & H2 & H3 & H4 & H5).
  exists t. rewrite E. unfold table_of. cbn. cbv zeta in *.
  unfold total, mw, mh in *.
  repeat split; try assumption; try reflexivity; lia.
Qed.

Lemma built_cells_range x :
  x ∈ matrix_cells mw (panel s) -> 0 <= x < mw * mh.
Proof.
  destruct Hok as (_ & _ & Hp & _).
  apply (matrix_cells_range mw mh (panel s) Hp).
  apply (matrix_bounds_fit (panel s) Hp).
Qed.

Lemma built_unwritten (n : nat) :
  Z.of_nat n < total ->
  (forall x, x ∈ matrix_cells mw (panel s) -> x = Z.of_nat n ->
     gap_allows (load_gaps host (mw * mh)) x (fun v => v >? 0) = false) ->
  table_of (setUpMatrix MAX_LEDS host s) !! n =
    Some (if Z.of_nat n <? mw * mh then SENTINEL else Z.of_nat n).
Proof.
  intros Hn Hskip.
  destruct built_table as (t & Hlen & _ & _ & HM & Htot & _ & _ & _ & ->).
  unfold scan. rewrite scan_unwritten; cbn [fst].
  - destruct (Z.ltb_spec (Z.of_nat n) (mw * mh)).
    + apply fill_table_matrix; [lia | assumption | assumption].
    + apply fill_table_trailing; [lia | assumption | assumption | lia].
  - intros x Hx. pose proof (built_cells_range x Hx). lia.
  - intros x Hx He. apply Hskip; [assumption |].
    pose proof (built_cells_range x Hx). lia.
Qed.

End Built.

(** X1: after a successful call on a well-formed strip, whatever the gap
    file and whether or not panels overlap, every entry past the matrix
    area maps to itself and every matrix cell that no panel covers holds
    the sentinel. *)
Theorem X1_holes_and_trailing (MAX_LEDS : Z) (host : Host) (s : WS2812FX) :
  strip_ok MAX_LEDS s ->
  isMatrix (setUpMatrix MAX_LEDS host s) = true ->
  let s' := setUpMatrix MAX_LEDS host s in
  (forall n : nat,
     maxWidth s' * maxHeight s' <= Z.of_nat n < customMappingSize s' ->
     table_of s' !! n = Some (Z.of_nat n))
  /\ (forall c r,
        0 <= c < maxWidth s' -> 0 <= r < maxHeight s' ->
        (forall p, p ∈ panel s -> ~ covers p c r) ->
        table_of s' !! Z.to_nat (r * maxWidth s' + c) = Some SENTINEL).
Proof.
  intros Hok Hres. cbv zeta.
  destruct (built_table MAX_LEDS host s Hok Hres)
    as (t & Hlen & Hw & Hh & HM & Htot & -> & -> & -> & _).
  cbv zeta in *.
  split.
  - intros n Hn.
    rewrite (built_unwritten MAX_LEDS host s Hok Hres n).
    + destruct (Z.ltb_spec (Z.of_nat n)
                  (fst (matrix_bounds (panel s)) * snd (matrix_bounds (panel s))));
        [lia | reflexivity].
    + lia.
    + intros x Hx He.
      pose proof (built_cells_range MAX_LEDS s Hok x Hx) as Hr. cbv zeta in Hr. lia.
  - intros c r Hc Hr Hfree.
    pose proof (index_range _ _ c r Hc Hr) as Hix.
    rewrite (built_unwritten MAX_LEDS host s Hok Hres).
    + rewrite Z2Nat.id by lia.
      destruct (Z.ltb_spec (r * fst (matrix_bounds (panel s)) + c)
                  (fst (matrix_bounds (panel s)) * snd (matrix_bounds (panel s))));
        [reflexivity | lia].
    + rewrite Z2Nat.id by lia. lia.
    + intros x Hx He. exfalso.
      destruct Hok as (_ & _ & Hp & _).
      destruct (matrix_cells_covers _ (panel s) Hp x Hx)
        as (p & c' & r' & Hin & Hcov & E).
      pose proof (matrix_bounds_fit (panel s) Hp) as Hfit.
      destruct (covers_in_matrix _ _ (panel s) Hp Hfit p c' r' Hin Hcov) as [Hc' Hr'].
      rewrite Z2Nat.id in He by lia.
      assert (Hcr : c' = c /\ r' = r)
        by (apply (index_inj (fst (matrix_bounds (panel s)))); lia).
      destruct Hcr as [-> ->]. exact (Hfree p Hin Hcov).
Qed.

Lemma X1_holes_and_trailing_witness :
  let s' := setUpMatrix 1500 no_gaps with_hole in
  table_of s' !! 6%nat = Some 6 /\ table_of s' !! 5%nat = Some SENTINEL.
Proof.
  destruct (X1_holes_and_trailing 1500 no_gaps with_hole) as [Ht Hh].
  - unfold strip_ok. cbn. split; [lia |]. split; [lia |].
    split; [repeat constructor; cbn; lia | discriminate].
  - reflexivity.
  - split.
    + apply (Ht 6%nat). by_eval.
    + apply (Hh 2 1); [by_eval | by_eval |].
      intros p Hp [Hc Hr].
      apply elem_of_cons in Hp as [-> | Hp]; [cbn in Hc; lia |].
      apply elem_of_cons in Hp as [-> | Hp]; [cbn in Hr; lia | inversion Hp].
Defined.



(** *** The order of the physical indices *)



(** The cells of a default panel at the origin of a matrix of its own
    width are visited in the order of their indices. *)
Lemma rows_in_order (w : Z) (f : Z -> Z -> Z) (n : nat) :
  0 <= w ->
  (forall j i, 0 <= j < Z.of_nat n -> 0 <= i < w -> f j i = j * w + i) ->
  seqZ 0 (Z.of_nat n) ≫= (fun j => f j <$> seqZ 0 w) = seqZ 0 (Z.of_nat n * w).
Proof.
  intros Hw. induction n as [| n IH]; intros Hf.
  - reflexivity.
  - rewrite seqZ_S, bind_app, bind_singleton. rewrite IH by (intros; apply Hf; lia).
    replace (Z.of_nat (S n) * w) with (Z.of_nat n * w + w) by lia.
    rewrite seqZ_app by lia. f_equal. rewrite !Z.add_0_l.
    replace (seqZ (Z.of_nat n * w) w)
      with (Z.add (Z.of_nat n * w) <$> seqZ 0 w)
      by (rewrite fmap_add_seqZ; f_equal; lia).
    apply list_fmap_ext. intros i x Hx.
    apply lookup_seqZ in Hx as [-> Hi]. apply Hf; lia.
Qed.

Lemma plain_panel_cells w h :
  0 <= w <= 65535 -> 0 <= h <= 65535 ->
  panel_cells w (plain_panel w h) = seqZ 0 (w * h).
Proof.
  intros Hw Hh. unfold panel_cells.
  assert (Hsh : scan_h (plain_panel w h) = w) by (apply to_u16_small; cbn; lia).
  assert (Hsv : scan_v (plain_panel w h) = h) by (apply to_u16_small; cbn; lia).
  rewrite Hsh, Hsv. rewrite <- (Z2Nat.id h) at 1 by lia.
  rewrite rows_in_order.
  - rewrite Z2Nat.id by lia. f_equal. lia.
  - lia.
  - intros j i Hj Hi. rewrite Z2Nat.id in Hj by lia.
    unfold cell_index, cell_row, cell_col. cbn [plain_panel vertical xOffset yOffset].
    destruct (local_y_spec (plain_panel w h) j ltac:(lia)) as [-> _].
    destruct (local_x_spec (plain_panel w h) j i ltac:(lia)) as [-> _].
    cbn. lia.
Qed.

(** X4: for a single panel of the default orientation at the origin, with
    no gap file and a fresh table, the whole ledmap is the identity: entry
    [i] is [i], over the matrix and over the trailing LEDs. *)
Theorem X4_plain_panel_identity (MAX_LEDS w h len : Z) :
  2 <= w -> 2 <= h -> w * h <= MAX_LEDS -> MAX_LEDS <= 65535 ->
  0 <= len <= 65535 ->
  let s' := setUpMatrix MAX_LEDS no_gaps (plain_strip_of w h len) in
  isMatrix s' = true
  /\ maxWidth s' = w /\ maxHeight s' = h
  /\ table_of s' = seqZ 0 (Z.max (w * h) len).
Proof.
  intros Hw Hh Hfit Hmax Hlen. cbv zeta.
  assert (Hwh : w <= 65535 /\ h <= 65535) by nia.
  assert (Hb : matrix_bounds [plain_panel w h] = (w, h)).
  { unfold matrix_bounds. cbn [foldl].
    rewrite grow_bounds_max by (unfold panel_ok; cbn; lia).
    cbn. f_equal; lia. }
  assert (Hok : strip_ok MAX_LEDS (plain_strip_of w h len)).
  { unfold strip_ok. cbn [plain_strip_of _length panel customMappingTable].
    split; [lia |]. split; [lia |].
    split; [repeat constructor; cbn; lia | discriminate]. }
  assert (Hres : isMatrix (setUpMatrix MAX_LEDS no_gaps (plain_strip_of w h len)) = true).
  { unfold setUpMatrix. cbn [plain_strip_of isMatrix negb panel customMappingTable].
    rewrite Hb. cbn [fst snd]. unfold bounds_error.
    destruct (Z.gtb_spec (w * h) MAX_LEDS); [lia |].
    destruct (Z.leb_spec w 1); [lia |].
    destruct (Z.leb_spec h 1); [lia |]. reflexivity. }
  destruct (built_table MAX_LEDS no_gaps _ Hok Hres)
    as (t & Ht & _ & _ & HM & Htot & E1 & E2 & _ & E).
  cbv zeta in *. cbn [plain_strip_of panel _length] in *.
  rewrite Hb in *. cbn [fst snd] in *.
  split; [exact Hres |]. split; [exact E1 |]. split; [exact E2 |].
  unfold getLengthTotal in *.
  apply list_eq. intros n.
  destruct (Z.lt_ge_cases (Z.of_nat n) (Z.max (w * h) len)) as [Hn | Hn].
  2:{ rewrite lookup_seqZ_ge by lia. apply lookup_ge_None.
      rewrite E. unfold scan. rewrite scan_length. cbn [fst].
      rewrite fill_table_length. lia. }
  rewrite lookup_seqZ_lt by lia. cbn [Z.add].
  destruct (Z.lt_ge_cases (Z.of_nat n) (w * h)) as [Hm | Hm].
  - rewrite E. cbn [load_gaps no_gaps gapsJson].
    unfold matrix_cells. rewrite bind_singleton, plain_panel_cells by lia.
    rewrite <- (Nat2Z.id n) at 1.
    apply scan_nogap_lookup.
    + apply NoDup_seqZ.
    + intros x Hx. apply elem_of_seqZ in Hx. rewrite fill_table_length. lia.
    + rewrite length_seqZ. lia.
    + rewrite lookup_seqZ_lt by lia. f_equal; lia.
  - rewrite (built_unwritten MAX_LEDS no_gaps _ Hok Hres n).
    + cbn [plain_strip_of panel]. rewrite Hb. cbn [fst snd].
      destruct (Z.ltb_spec (Z.of_nat n) (w * h)); [lia | reflexivity].
    + cbn [plain_strip_of panel _length]. rewrite Hb. cbn [fst snd].
      unfold getLengthTotal. lia.
    + intros x Hx He.
      pose proof (built_cells_range MAX_LEDS _ Hok x Hx) as Hr.
      cbv zeta in Hr. cbn [plain_strip_of panel] in Hr. rewrite Hb in Hr.
      cbn [fst snd] in Hr. lia.
Qed.

Lemma X4_plain_panel_identity_witness :
  table_of (setUpMatrix 1500 no_gaps (plain_strip_of 3 2 8)) = [0; 1; 2; 3; 4; 5; 6; 7].
Proof.
  destruct (X4_plain_panel_identity 1500 3 2 8) as (_ & _ & _ & H); try lia.
  exact H.
Defined.

(** *** Running the set-up again *)

(** The initialisation overwrites a table of the full length entirely. *)
Lemma fill_table_ext t t' M total :
  0 <= M <= total -> total <= 65535 ->
  Z.of_nat (length t) = total -> Z.of_nat (length t') = total ->
  fill_table t M total = fill_table t' M total.
Proof.
  intros HM Htot Hl Hl'. apply list_eq. intros n.
  destruct (Z.lt_ge_cases (Z.of_nat n) total) as [Hn | Hn].
  - destruct (Z.lt_ge_cases (Z.of_nat n) M) as [Hm | Hm].
    + now rewrite !fill_table_matrix.
    + now rewrite !fill_table_trailing by lia.
  - rewrite !(proj2 (lookup_ge_None _ _)); [reflexivity | |];
      rewrite fill_table_length; lia.
Qed.

(** X5: on a well-formed strip a second call with the same platform answers
    changes nothing: the state after two calls is the state after one, on
    the success path and on both failure paths. *)
Theorem X5_setUpMatrix_idempotent (MAX_LEDS : Z) (host : Host) (s : WS2812FX) :
  strip_ok MAX_LEDS s ->
  setUpMatrix MAX_LEDS host (setUpMatrix MAX_LEDS host s)
  = setUpMatrix MAX_LEDS host s.
Proof.
  intros Hok.
  destruct (isMatrix (setUpMatrix MAX_LEDS host s)) eqn:Hres.
  2:{ unfold setUpMatrix at 1. now rewrite Hres. }
  destruct (setUpMatrix_built MAX_LEDS host s Hres) as (Hb & t & Ht & E).
  destruct Hok as (Hmax & Hlen & Hp & Hcap).
  destruct (built_sizes MAX_LEDS s t Hmax Hlen Hcap Hb Ht)
    as (_ & _ & HM & Htot & Hl).
  cbv zeta in *. rewrite E.
  unfold setUpMatrix at 1.
  cbn [isMatrix negb panel _length customMappingTable panels segmentResets].
  rewrite Hb. do 2 f_equal. f_equal. f_equal.
  apply fill_table_ext; try assumption.
  unfold scan. rewrite scan_length. cbn [fst]. now rewrite fill_table_length.
Qed.

Lemma X5_setUpMatrix_idempotent_witness :
  setUpMatrix 1500 some_gaps (setUpMatrix 1500 some_gaps side_by_side)
  = setUpMatrix 1500 some_gaps side_by_side.
Proof.
  apply (X5_setUpMatrix_idempotent 1500 some_gaps side_by_side).
  unfold strip_ok. cbn. split; [lia |]. split; [lia |].
  split; [repeat constructor; cbn; lia | discriminate].
Defined.

End MapperMore.
(** ** The panel scan, visit by visit *)

Module ScanFacts.
Import Mapper MapperFacts Layout MapperMore.







End ScanFacts.

(** ** More on the pixel accessors *)

Module SegMore.
Import Seg SegFacts Draw.

Section Store.

Context {S : Type} `{FaithfulStrip S} `{ColorOps}.

Lemma in_range_check seg x y :
  0 <= x < virtualWidth seg -> 0 <= y < virtualHeight seg ->
  (x >=? virtualWidth seg) || (y >=? virtualHeight seg) || (x <? 0) || (y <? 0) = false.
Proof.
  intros Hx Hy.
  destruct (Z.geb_spec x (virtualWidth seg)); [lia |].
  destruct (Z.geb_spec y (virtualHeight seg)); [lia |].
  destruct (Z.ltb_spec x 0); [lia |].
  destruct (Z.ltb_spec y 0); [lia |]. reflexivity.
Qed.

(** What a read computes on a frame without transient buffer, in terms of
    the physical cell of the write. *)
Lemma get_strip seg x y px py (f : Frame S) :
  isActive seg = true -> _activeBuffer f = None -> seg_ok seg ->
  0 <= x < virtualWidth seg -> 0 <= y < virtualHeight seg ->
  set_physical seg x y = Some (px, py) ->
  getPixelColorXY seg x y f
  = strip_getPixelColorXY (start seg + px) (startY seg + py) (strip f).
Proof.
  intros Hact Hbuf Hok Hx Hy Hphys.
  destruct (set_physical_in_range seg x y Hok Hx Hy)
    as (px' & py' & Hphys' & Hpx & Hpy & Epx & Epy).
  rewrite Hphys in Hphys'. injection Hphys' as <- <-.
  destruct Hok as (Hg & Hgl & Hw & Hh & Hvw & Hvh & Hfw & Hfh).
  unfold getPixelColorXY. cbv zeta.
  rewrite !(to_u16_small x), !(to_u16_small y) by lia.
  rewrite Hact, (in_range_check seg x y Hx Hy), Hbuf. cbn [negb].
  set (x1 := if reverse seg then virtualWidth seg - x - 1 else x) in *.
  set (y1 := if reverse_y seg then virtualHeight seg - y - 1 else y) in *.
  replace (if reverse seg then to_u16 (virtualWidth seg - x - 1) else x) with x1
    by (subst x1; destruct (reverse seg); [rewrite to_u16_small by lia |]; reflexivity).
  replace (if reverse_y seg then to_u16 (virtualHeight seg - y - 1) else y) with y1
    by (subst y1; destruct (reverse_y seg); [rewrite to_u16_small by lia |]; reflexivity).
  cbv zeta in Epx, Epy.
  replace (fst (if transpose seg then (y1, x1) else (x1, y1)) * groupLength seg)
    with px by (rewrite Epx; destruct (transpose seg); reflexivity).
  replace (snd (if transpose seg then (y1, x1) else (x1, y1)) * groupLength seg)
    with py by (rewrite Epy; destruct (transpose seg); reflexivity).
  rewrite !(to_u16_small px), !(to_u16_small py) by lia.
  destruct (Z.geb_spec px (width seg)); [lia |].
  destruct (Z.geb_spec py (height seg)); [lia |]. reflexivity.
Qed.

(** What a write does on a frame without transient buffer. *)
Lemma set_strip seg x y c px py (f : Frame S) :
  isActive seg = true -> _activeBuffer f = None ->
  0 <= x < virtualWidth seg -> 0 <= y < virtualHeight seg ->
  set_physical seg x y = Some (px, py) ->
  setPixelColorXY seg x y c f
  = mkFrame None (foldl do_write (strip f)
                        (group_writes seg px py (scaled c (currentBri seg)))).
Proof.
  intros Hact Hbuf Hx Hy Hphys. unfold setPixelColorXY.
  rewrite Hact, (in_range_check seg x y Hx Hy), Hbuf. cbn [negb]. cbv zeta.
  unfold strip_writes. now rewrite Hphys.
Qed.

(** A position that no call of a run targets keeps its colour. *)
Lemma writes_miss (ws : list (Z * Z * Z)) (s : S) X Y :
  (forall w, w ∈ ws -> fst w <> (X, Y)) ->
  strip_getPixelColorXY X Y (foldl do_write s ws) = strip_getPixelColorXY X Y s.
Proof.
  revert s. induction ws as [| w ws IH]; intros s Hmiss; [reflexivity |].
  cbn [foldl]. rewrite IH by (intros w' Hw'; apply Hmiss; now right).
  unfold do_write. destruct w as [[x y] c]. cbn [fst snd].
  apply strip_get_set_other. apply (Hmiss (x, y, c)). now left.
Qed.

(** Without mirroring, the calls of a write stay in the block of
    [grouping] x [grouping] cells at the expanded coordinates. *)
Lemma group_writes_block seg px py col w :
  mirror seg = false -> mirror_y seg = false ->
  0 <= px -> 0 <= py ->
  px + grouping seg <= 65536 -> py + grouping seg <= 65536 ->
  w ∈ group_writes seg px py col ->
  exists g j, 0 <= g < grouping seg /\ 0 <= j < grouping seg
    /\ w = (start seg + (px + g), startY seg + (py + j), col).
Proof.
  intros Hm Hmy Hpx Hpy Hgx Hgy Hw. unfold group_writes in Hw.
  apply list_elem_of_bind in Hw as (j & Hw & Hj).
  apply list_elem_of_bind in Hw as (g & Hw & Hg).
  apply elem_of_seqZ in Hj. apply elem_of_seqZ in Hg.
  cbv zeta in Hw. rewrite !to_u16_small in Hw by lia.
  destruct ((px + g >=? width seg) || (py + j >=? height seg));
    [inversion Hw |].
  unfold cell_writes in Hw. rewrite Hm, Hmy in Hw. cbn in Hw.
  apply list_elem_of_singleton in Hw. exists g, j. repeat split; try lia. exact Hw.
Qed.

(** The calls for the first cell of the block are among the calls of the
    write. *)
Lemma group_writes_first seg x y col w :
  1 <= grouping seg -> 0 <= x < width seg -> 0 <= y < height seg ->
  width seg <= 65535 -> height seg <= 65535 ->
  w ∈ cell_writes seg x y col -> w ∈ group_writes seg x y col.
Proof.
  intros Hg Hx Hy Hw Hh Hin. unfold group_writes.
  apply list_elem_of_bind. exists 0. split; [| apply elem_of_seqZ; lia].
  apply list_elem_of_bind. exists 0. split; [| apply elem_of_seqZ; lia].
  cbv zeta. rewrite !Z.add_0_r, !to_u16_small by lia.
  destruct (Z.geb_spec x (width seg)); [lia |].
  destruct (Z.geb_spec y (height seg)); [lia |]. exact Hin.
Qed.

(** *** Frames with a transient buffer *)

Lemma set_buffered seg x y c buf (f : Frame S) :
  isActive seg = true -> in_range seg x y -> _activeBuffer f = Some buf ->
  setPixelColorXY seg x y c f
  = mkFrame (Some (wr buf (y * virtualWidth seg + x) (scaled c (currentBri seg))))
            (strip f).
Proof.
  intros Hact [Hx Hy] Hbuf. unfold setPixelColorXY.
  now rewrite Hact, (in_range_check seg x y Hx Hy), Hbuf.
Qed.

Lemma get_buffered seg x y buf (f : Frame S) :
  isActive seg = true -> in_range seg x y ->
  virtualWidth seg <= 65535 -> virtualHeight seg <= 65535 ->
  _activeBuffer f = Some buf ->
  getPixelColorXY seg x y f = rd buf (y * virtualWidth seg + x).
Proof.
  intros Hact [Hx Hy] Hw Hh Hbuf. unfold getPixelColorXY. cbv zeta.
  rewrite !(to_u16_small x), !(to_u16_small y) by lia.
  now rewrite Hact, (in_range_check seg x y Hx Hy), Hbuf.
Qed.

Lemma buffer_index seg x y :
  in_range seg x y ->
  0 <= y * virtualWidth seg + x < virtualWidth seg * virtualHeight seg.
Proof. intros [Hx Hy]. nia. Qed.

Lemma buffer_index_inj seg x y x' y' :
  in_range seg x y -> in_range seg x' y' ->
  y * virtualWidth seg + x = y' * virtualWidth seg + x' -> (x, y) = (x', y').
Proof.
  intros [Hx Hy] [Hx' Hy'] He.
  destruct (MapperFacts.index_inj (virtualWidth seg) x y x' y' Hx Hx' He) as [-> ->].
  reflexivity.
Qed.

Lemma buffered_set seg x y c (f : Frame S) :
  buffered seg f -> buffered seg (setPixelColorXY seg x y c f).
Proof.
  intros (buf & Hbuf & Hlen). unfold setPixelColorXY.
  destruct (negb (isActive seg)); [now exists buf |].
  destruct (_ || _); [now exists buf |].
  cbv zeta. rewrite Hbuf. eexists. split; [reflexivity |].
  now rewrite length_wr.
Qed.

Lemma buffered_same seg x y c (f : Frame S) :
  isActive seg = true ->
  virtualWidth seg <= 65535 -> virtualHeight seg <= 65535 ->
  buffered seg f -> in_range seg x y ->
  getPixelColorXY seg x y (setPixelColorXY seg x y c f) = scaled c (currentBri seg).
Proof.
  intros Hact Hw Hh (buf & Hbuf & Hlen) Hin.
  rewrite (set_buffered seg x y c buf f Hact Hin Hbuf).
  rewrite (get_buffered seg x y
             (wr buf (y * virtualWidth seg + x) (scaled c (currentBri seg)))
             (mkFrame _ (strip f)) Hact Hin Hw Hh eq_refl).
  pose proof (buffer_index seg x y Hin). apply rd_wr_eq; lia.
Qed.

Lemma buffered_other seg x y x' y' c (f : Frame S) :
  isActive seg = true ->
  virtualWidth seg <= 65535 -> virtualHeight seg <= 65535 ->
  buffered seg f -> in_range seg x y -> in_range seg x' y' -> (x, y) <> (x', y') ->
  getPixelColorXY seg x' y' (setPixelColorXY seg x y c f) = getPixelColorXY seg x' y' f.
Proof.
  intros Hact Hw Hh (buf & Hbuf & Hlen) Hin Hin' Hne.
  rewrite (set_buffered seg x y c buf f Hact Hin Hbuf).
  rewrite (get_buffered seg x' y'
             (wr buf (y * virtualWidth seg + x) (scaled c (currentBri seg)))
             (mkFrame _ (strip f)) Hact Hin' Hw Hh eq_refl).
  rewrite (get_buffered seg x' y' buf f Hact Hin' Hw Hh Hbuf).
  pose proof (buffer_index seg x y Hin). pose proof (buffer_index seg x' y' Hin').
  apply rd_wr_ne; try lia.
  intros He. apply Hne. now apply (buffer_index_inj seg).
Qed.

(** *** Frames without transient buffer *)

Lemma unbuffered_set seg x y c (f : Frame S) :
  unbuffered f -> unbuffered (setPixelColorXY seg x y c f).
Proof.
  unfold unbuffered. intros Hbuf. unfold setPixelColorXY.
  destruct (negb (isActive seg)); [assumption |].
  destruct (_ || _); [assumption |].
  cbv zeta. now rewrite Hbuf.
Qed.

Lemma unbuffered_same seg x y c (f : Frame S) :
  isActive seg = true -> seg_ok seg -> unbuffered f -> in_range seg x y ->
  getPixelColorXY seg x y (setPixelColorXY seg x y c f) = scaled c (currentBri seg).
Proof.
  intros Hact Hok Hbuf [Hx Hy].
  destruct (set_physical_in_range seg x y Hok Hx Hy)
    as (px & py & Hphys & Hpx & Hpy & _ & _).
  rewrite (set_strip seg x y c px py f Hact Hbuf Hx Hy Hphys).
  rewrite (get_strip seg x y px py (mkFrame None _) Hact eq_refl Hok Hx Hy Hphys).
  cbn [strip].
  destruct Hok as (Hg & Hgl & Hw & Hh & _).
  apply writes_read.
  - intros w Hin. now apply group_writes_colour in Hin.
  - apply group_writes_canonical; lia.
Qed.

(** The expanded coordinates of two in-range logical pixels differ by at
    least [groupLength()] in one axis. *)
Lemma set_physical_apart seg x y x' y' px py px' py' g j :
  seg_ok seg -> grouping seg <= groupLength seg ->
  in_range seg x y -> in_range seg x' y' ->
  set_physical seg x y = Some (px, py) ->
  set_physical seg x' y' = Some (px', py') ->
  0 <= g < grouping seg -> 0 <= j < grouping seg ->
  px + g = px' -> py + j = py' -> (x, y) = (x', y').
Proof.
  intros Hok Hgg [Hx Hy] [Hx' Hy'] Hp Hp' Hg Hj Ex Ey.
  destruct (set_physical_in_range seg x y Hok Hx Hy)
    as (qx & qy & Hq & _ & _ & Eqx & Eqy).
  destruct (set_physical_in_range seg x' y' Hok Hx' Hy')
    as (qx' & qy' & Hq' & _ & _ & Eqx' & Eqy').
  rewrite Hp in Hq. injection Hq as <- <-.
  rewrite Hp' in Hq'. injection Hq' as <- <-.
  cbv zeta in *.
  set (x1 := if reverse seg then virtualWidth seg - x - 1 else x) in *.
  set (y1 := if reverse_y seg then virtualHeight seg - y - 1 else y) in *.
  set (x1' := if reverse seg then virtualWidth seg - x' - 1 else x') in *.
  set (y1' := if reverse_y seg then virtualHeight seg - y' - 1 else y') in *.
  set (gl := groupLength seg) in *.
  assert (Hmul : forall a b k, 0 <= k < grouping seg -> a * gl + k = b * gl -> a = b).
  { intros a b k Hk He.
    destruct (Z.lt_trichotomy a b) as [Hlt | [Heq | Hgt]]; [| exact Heq |]; exfalso.
    - assert (a * gl + gl <= b * gl) by nia. lia.
    - assert (b * gl + gl <= a * gl) by nia. lia. }
  assert (Hxy : x1 = x1' /\ y1 = y1').
  { rewrite Eqx, Eqx' in Ex. rewrite Eqy, Eqy' in Ey.
    destruct (transpose seg).
    - split; [apply (Hmul _ _ j Hj Ey) | apply (Hmul _ _ g Hg Ex)].
    - split; [apply (Hmul _ _ g Hg Ex) | apply (Hmul _ _ j Hj Ey)]. }
  destruct Hxy as [E1 E2]. subst x1 y1 x1' y1'.
  f_equal; [destruct (reverse seg) | destruct (reverse_y seg)]; lia.
Qed.

Lemma unbuffered_other seg x y x' y' c (f : Frame S) :
  isActive seg = true -> seg_ok seg ->
  mirror seg = false -> mirror_y seg = false ->
  grouping seg <= groupLength seg ->
  width seg + grouping seg <= 65536 -> height seg + grouping seg <= 65536 ->
  unbuffered f -> in_range seg x y -> in_range seg x' y' -> (x, y) <> (x', y') ->
  getPixelColorXY seg x' y' (setPixelColorXY seg x y c f) = getPixelColorXY seg x' y' f.
Proof.
  intros Hact Hok Hm Hmy Hgg Hwg Hhg Hbuf Hin Hin' Hne.
  pose proof Hin as [Hx Hy]. pose proof Hin' as [Hx' Hy'].
  destruct (set_physical_in_range seg x y Hok Hx Hy)
    as (px & py & Hphys & Hpx & Hpy & _ & _).
  destruct (set_physical_in_range seg x' y' Hok Hx' Hy')
    as (px' & py' & Hphys' & Hpx' & Hpy' & _ & _).
  rewrite (set_strip seg x y c px py f Hact Hbuf Hx Hy Hphys).
  rewrite (get_strip seg x' y' px' py' (mkFrame None _) Hact eq_refl Hok Hx' Hy' Hphys').
  rewrite (get_strip seg x' y' px' py' f Hact Hbuf Hok Hx' Hy' Hphys').
  cbn [strip]. apply writes_miss.
  intros w Hw He.
  apply (group_writes_block seg px py _ w Hm Hmy) in Hw; try lia.
  destruct Hw as (g & j & Hg & Hj & ->). cbn [fst] in He.
  injection He as Ex Ey.
  apply Hne.
  apply (set_physical_apart seg x y x' y' px py px' py' g j); try assumption; lia.
Qed.

End Store.

(** X6: on a frame without transient buffer and over a faithful strip, a
    pixel written at any brightness reads back as the colour scaled by the
    segment brightness, and each mirror image the write makes (horizontal,
    vertical, and the doubly mirrored cell at the coordinates the code
    computes for it) holds that same colour. *)
Theorem X6_write_reads_back_scaled {S : Type} `{FaithfulStrip S} `{ColorOps}
    (seg : Segment) (x y c : Z) (f : Frame S) :
  isActive seg = true -> seg_ok seg -> unbuffered f -> in_range seg x y ->
  let f' := setPixelColorXY seg x y c f in
  let c' := scaled c (currentBri seg) in
  getPixelColorXY seg x y f' = c'
  /\ exists px py,
       set_physical seg x y = Some (px, py)
       /\ (mirror seg = true ->
           strip_getPixelColorXY
             (if transpose seg then start seg + px else start seg + width seg - px - 1)
             (if transpose seg then startY seg + height seg - py - 1 else startY seg + py)
             (strip f') = c')
       /\ (mirror_y seg = true ->
           strip_getPixelColorXY
             (if transpose seg then start seg + width seg - px - 1 else start seg + px)
             (if transpose seg then startY seg + py else startY seg + height seg - py - 1)
             (strip f') = c')
       /\ (mirror seg = true -> mirror_y seg = true ->
           strip_getPixelColorXY (width seg - px - 1) (height seg - py - 1) (strip f') = c').
Proof.
  intros Hact Hok Hbuf Hin. cbv zeta.
  split; [now apply unbuffered_same |].
  destruct Hin as [Hx Hy].
  destruct (set_physical_in_range seg x y Hok Hx Hy)
    as (px & py & Hphys & Hpx & Hpy & _ & _).
  exists px, py. split; [exact Hphys |].
  rewrite (set_strip seg x y c px py f Hact Hbuf Hx Hy Hphys). cbn [strip].
  destruct Hok as (Hg & Hgl & Hw & Hh & _).
  assert (Hread : forall X Y,
            (X, Y, scaled c (currentBri seg))
              ∈ cell_writes seg px py (scaled c (currentBri seg)) ->
            strip_getPixelColorXY X Y
              (foldl do_write (strip f)
                     (group_writes seg px py (scaled c (currentBri seg))))
            = scaled c (currentBri seg)).
  { intros X Y Hcell. apply writes_read.
    - intros w Hw'. now apply group_writes_colour in Hw'.
    - apply group_writes_first; try lia. exact Hcell. }
  split; [| split].
  - intros Hm. apply Hread. unfold cell_writes. rewrite Hm.
    apply elem_of_app. right. apply elem_of_app. left.
    destruct (transpose seg); now left.
  - intros Hmy. apply Hread. unfold cell_writes. rewrite Hmy.
    apply elem_of_app. right. apply elem_of_app. right. apply elem_of_app. left.
    destruct (transpose seg); now left.
  - intros Hm Hmy. apply Hread. unfold cell_writes. rewrite Hm, Hmy.
    apply elem_of_app. right. apply elem_of_app. right. apply elem_of_app. right.
    now left.
Qed.

Lemma X6_write_reads_back_scaled_witness :
  getPixelColorXY mirror_seg 1 0 (setPixelColorXY mirror_seg 1 0 16711680 dark)
  = 16711680
  /\ strip (setPixelColorXY mirror_seg 1 0 16711680 dark) 2 0 = 16711680.
Proof.
  destruct (X6_write_reads_back_scaled mirror_seg 1 0 16711680 dark)
    as (Hget & px & py & Hphys & Hm & _).
  - reflexivity.
  - unfold seg_ok. cbn. lia.
  - reflexivity.
  - unfold in_range. cbn. lia.
  - split; [exact Hget |].
    injection Hphys as <- <-. exact (Hm eq_refl).
Defined.

(** X7: on a frame whose transient buffer holds every logical pixel, a
    write stores the brightness-scaled colour in exactly one pixel: that
    pixel reads it back, every other in-range pixel reads as before, and
    the strip is not touched. *)
Theorem X7_buffered_write_one_pixel {S : Type} `{StripAccessor S} `{ColorOps}
    (seg : Segment) (x y c : Z) (f : Frame S) :
  isActive seg = true ->
  virtualWidth seg <= 65535 -> virtualHeight seg <= 65535 ->
  buffered seg f -> in_range seg x y ->
  let f' := setPixelColorXY seg x y c f in
  getPixelColorXY seg x y f' = scaled c (currentBri seg)
  /\ (forall x' y', in_range seg x' y' -> (x', y') <> (x, y) ->
        getPixelColorXY seg x' y' f' = getPixelColorXY seg x' y' f)
  /\ strip f' = strip f
  /\ buffered seg f'.
Proof.
  intros Hact Hw Hh Hbuf Hin. cbv zeta.
  split; [| split; [| split]].
  - destruct Hbuf as (buf & Hb & Hlen).
    rewrite (set_buffered seg x y c buf f Hact Hin Hb).
    rewrite (get_buffered seg x y
               (wr buf (y * virtualWidth seg + x) (scaled c (currentBri seg)))
               (mkFrame _ (strip f)) Hact Hin Hw Hh eq_refl).
    pose proof (buffer_index seg x y Hin). apply rd_wr_eq; lia.
  - intros x' y' Hin' Hne.
    destruct Hbuf as (buf & Hb & Hlen).
    rewrite (set_buffered seg x y c buf f Hact Hin Hb).
    rewrite (get_buffered seg x' y'
               (wr buf (y * virtualWidth seg + x) (scaled c (currentBri seg)))
               (mkFrame _ (strip f)) Hact Hin' Hw Hh eq_refl).
    rewrite (get_buffered seg x' y' buf f Hact Hin' Hw Hh Hb).
    pose proof (buffer_index seg x y Hin). pose proof (buffer_index seg x' y' Hin').
    apply rd_wr_ne; try lia.
    intros He. apply Hne. symmetry. now apply (buffer_index_inj seg).
  - destruct Hbuf as (buf & Hb & Hlen).
    now rewrite (set_buffered seg x y c buf f Hact Hin Hb).
  - destruct Hbuf as (buf & Hb & Hlen).
    rewrite (set_buffered seg x y c buf f Hact Hin Hb).
    eexists. split; [reflexivity |]. now rewrite length_wr.
Qed.

Lemma X7_buffered_write_one_pixel_witness :
  getPixelColorXY dim_seg 1 1 (setPixelColorXY dim_seg 1 1 16711680 six_pixels)
  = 8323072
  /\ getPixelColorXY dim_seg 2 1 (setPixelColorXY dim_seg 1 1 16711680 six_pixels) = 15.
Proof.
  destruct (X7_buffered_write_one_pixel dim_seg 1 1 16711680 six_pixels)
    as (Hsame & Hother & _).
  - reflexivity.
  - cbn. lia.
  - cbn. lia.
  - exists [10; 11; 12; 13; 14; 15]. split; [reflexivity | cbn; lia].
  - unfold in_range. cbn. lia.
  - split; [exact Hsame |].
    rewrite (Hother 2 1); [reflexivity | unfold in_range; cbn; lia | congruence].
Defined.

(** X8: without mirroring, with a group that fits its stride
    ([grouping <= groupLength()]) and over a faithful strip, writing one
    logical pixel of a frame without transient buffer leaves every other
    in-range logical pixel as it was. *)
Theorem X8_write_leaves_other_pixels {S : Type} `{FaithfulStrip S} `{ColorOps}
    (seg : Segment) (x y x' y' c : Z) (f : Frame S) :
  isActive seg = true -> seg_ok seg ->
  mirror seg = false -> mirror_y seg = false ->
  grouping seg <= groupLength seg ->
  width seg + grouping seg <= 65536 -> height seg + grouping seg <= 65536 ->
  unbuffered f -> in_range seg x y -> in_range seg x' y' -> (x, y) <> (x', y') ->
  getPixelColorXY seg x' y' (setPixelColorXY seg x y c f) = getPixelColorXY seg x' y' f.
Proof. intros. now apply unbuffered_other. Qed.

Lemma X8_write_leaves_other_pixels_witness :
  getPixelColorXY grouped_seg 0 1 (setPixelColorXY grouped_seg 1 1 16711680 dark) = 0.
Proof.
  rewrite (X8_write_leaves_other_pixels grouped_seg 1 1 0 1 16711680 dark).
  - reflexivity.
  - reflexivity.
  - unfold seg_ok. cbn. lia.
  - reflexivity.
  - reflexivity.
  - cbn. lia.
  - cbn. lia.
  - cbn. lia.
  - reflexivity.
  - unfold in_range. cbn. lia.
  - unfold in_range. cbn. lia.
  - congruence.
Defined.

End SegMore.
(** ** Moving pixels *)

Module MoveFacts.
Import Seg SegFacts Draw SegMore.

Lemma to_i8_small z : -128 <= z < 128 -> to_i8 z = z.
Proof. intros Hz. unfold to_i8. rewrite Z.mod_small by lia. lia. Qed.

Lemma to_i16_small z : -32768 <= z < 32768 -> to_i16 z = z.
Proof. intros Hz. unfold to_i16. rewrite Z.mod_small by lia. lia. Qed.

(** *** The two kinds of frames are pixel arrays *)

Lemma buffered_pixel_array {S : Type} `{StripAccessor S} `{ColorOps} (seg : Segment) :
  isActive seg = true -> currentBri seg = 255 ->
  virtualWidth seg <= 65535 -> virtualHeight seg <= 65535 ->
  pixel_array seg (buffered seg).
Proof.
  intros Hact Hbri Hw Hh. split.
  - intros f x y c Hf. now apply buffered_set.
  - intros f x y c Hf Hin.
    rewrite buffered_same by assumption. now rewrite Hbri.
  - intros f x y x' y' c Hf Hin Hin' Hne. now apply buffered_other.
Qed.

Lemma unbuffered_pixel_array {S : Type} `{FaithfulStrip S} `{ColorOps} (seg : Segment) :
  isActive seg = true -> currentBri seg = 255 -> seg_ok seg ->
  mirror seg = false -> mirror_y seg = false ->
  grouping seg <= groupLength seg ->
  width seg + grouping seg <= 65536 -> height seg + grouping seg <= 65536 ->
  pixel_array seg unbuffered.
Proof.
  intros Hact Hbri Hok Hm Hmy Hgg Hwg Hhg. split.
  - intros f x y c Hf. now apply unbuffered_set.
  - intros f x y c Hf Hin.
    rewrite unbuffered_same by assumption. now rewrite Hbri.
  - intros f x y x' y' c Hf Hin Hin' Hne. now apply unbuffered_other.
Qed.

(** *** The shifted line *)

Lemma shift_src_range n delta wrap x :
  0 <= x < n -> 0 <= shift_src n delta wrap x < n.
Proof.
  intros Hx. unfold shift_src.
  destruct (Z.leb_spec 0 (x + delta)); destruct (Z.ltb_spec (x + delta) n);
    cbn [andb]; try lia;
    destruct wrap; try lia; apply Z.mod_pos_bound; lia.
Qed.

Lemma shift_src_wrap n delta x :
  0 <= x < n -> shift_src n delta true x = (x + delta) mod n.
Proof.
  intros Hx. unfold shift_src.
  destruct (Z.leb_spec 0 (x + delta)); destruct (Z.ltb_spec (x + delta) n);
    cbn [andb]; try reflexivity.
  symmetry. apply Z.mod_small. lia.
Qed.

(** An array filled from a plan that names every position once holds, at
    each position, the value read for the source of that position. *)
Lemma filled_from_plan (read : Z -> Z) (plan : list (Z * Z)) (a : list Z) x s :
  NoDup (fst <$> plan) ->
  (forall p, p ∈ plan -> 0 <= fst p) ->
  (x, s) ∈ plan -> (Z.to_nat x < length a)%nat ->
  rd (foldl (fun a p => wr a (fst p) (read (snd p))) a plan) x = read s.
Proof.
  induction plan as [| [x' s'] plan IH] using rev_ind; intros Hnd Hpos Hin Hlen.
  - inversion Hin.
  - rewrite foldl_snoc. cbn [fst snd].
    rewrite fmap_app in Hnd. apply NoDup_app in Hnd as (Hnd & Hnot & _).
    assert (Hx' : 0 <= x') by (apply (Hpos (x', s')); apply elem_of_app; right; now left).
    apply elem_of_app in Hin as [Hin | Hin].
    + assert (Hx : 0 <= x) by (apply (Hpos (x, s)); apply elem_of_app; now left).
      assert (Hne : x' <> x).
      { intros ->. apply (Hnot x).
        - apply list_elem_of_fmap. exists (x, s). split; [reflexivity | exact Hin].
        - cbn. now left. }
      rewrite rd_wr_ne by lia. apply IH; try assumption.
      intros p Hp. apply Hpos. apply elem_of_app. now left.
    + apply list_elem_of_singleton in Hin. injection Hin as -> ->.
      apply rd_wr_eq; [lia |].
      clear -Hlen. revert a Hlen. induction plan as [| p plan IHp]; intros a Hlen.
      * exact Hlen.
      * cbn [foldl]. apply IHp. now rewrite length_wr.
Qed.

Lemma shift_plan_fst n delta wrap :
  0 < Z.abs delta < n ->
  NoDup (fst <$> shift_plan n delta wrap)
  /\ (forall p, p ∈ shift_plan n delta wrap -> 0 <= fst p)
  /\ (forall x, 0 <= x < n -> (x, shift_src n delta wrap x) ∈ shift_plan n delta wrap).
Proof.
  intros Hd. unfold shift_plan.
  destruct (Z.gtb_spec delta 0) as [Hpos | Hneg].
  - split; [| split].
    + rewrite fmap_app, <- !list_fmap_compose.
      rewrite !(list_fmap_ext _ id) by (intros; reflexivity).
      rewrite !list_fmap_id.
      replace (seqZ (n - delta) delta) with (seqZ (0 + (n - delta)) delta)
        by (f_equal; lia).
      rewrite <- seqZ_app by lia.
      apply NoDup_seqZ.
    + intros p Hp. apply elem_of_app in Hp as [Hp | Hp];
        apply list_elem_of_fmap in Hp as (x & -> & Hx);
        apply elem_of_seqZ in Hx; cbn; lia.
    + intros x Hx. unfold shift_src.
      destruct (Z.leb_spec 0 (x + delta)); [| lia].
      destruct (Z.ltb_spec (x + delta) n); cbn [andb]; apply elem_of_app.
      * left. apply list_elem_of_fmap. exists x. split; [reflexivity |].
        apply elem_of_seqZ. lia.
      * right. apply list_elem_of_fmap. exists x. split.
        -- f_equal. destruct wrap; [| reflexivity].
           replace (x + delta) with ((x + delta - n) + 1 * n) by lia.
           rewrite Z.mod_add by lia. rewrite Z.mod_small by lia. lia.
        -- apply elem_of_seqZ. lia.
  - assert (Hlt : delta < 0) by lia.
    split; [| split].
    + rewrite fmap_app, <- !list_fmap_compose.
      rewrite !(list_fmap_ext _ id) by (intros; reflexivity).
      rewrite !list_fmap_id.
      apply NoDup_app. split; [| split].
      * rewrite reverse_Permutation. apply NoDup_seqZ.
      * intros x Hx Hx'. apply elem_of_reverse, elem_of_seqZ in Hx.
        apply elem_of_reverse, elem_of_seqZ in Hx'. lia.
      * rewrite reverse_Permutation. apply NoDup_seqZ.
    + intros p Hp. apply elem_of_app in Hp as [Hp | Hp];
        apply list_elem_of_fmap in Hp as (x & -> & Hx);
        apply elem_of_reverse, elem_of_seqZ in Hx; cbn; lia.
    + intros x Hx. unfold shift_src.
      destruct (Z.ltb_spec (x + delta) n); [| lia].
      destruct (Z.leb_spec 0 (x + delta)); cbn [andb]; apply elem_of_app.
      * left. apply list_elem_of_fmap. exists x. split; [reflexivity |].
        apply elem_of_reverse, elem_of_seqZ. lia.
      * right. apply list_elem_of_fmap. exists x. split.
        -- f_equal. destruct wrap; [| reflexivity].
           replace (x + delta) with ((x + delta + n) + (-1) * n) by lia.
           rewrite Z.mod_add by lia. rewrite Z.mod_small by lia. lia.
        -- apply elem_of_reverse, elem_of_seqZ. lia.
Qed.

Lemma shifted_line_rd n delta wrap read x :
  0 < Z.abs delta < n -> 0 <= x < n ->
  rd (shifted_line n delta wrap read) x = read (shift_src n delta wrap x).
Proof.
  intros Hd Hx. unfold shifted_line.
  destruct (shift_plan_fst n delta wrap Hd) as (Hnd & Hpos & Hin).
  apply filled_from_plan; try assumption.
  - now apply Hin.
  - rewrite length_replicate. lia.
Qed.

(** *** Rewriting the lines of a pixel array *)

Section Lines.

Context {S : Type} `{StripAccessor S} `{ColorOps}.
Variables (seg : Segment) (P : Frame S -> Prop).
Hypothesis HP : pixel_array seg P.

(** [cell l k] is the pixel at position [k] of line [l]: [(k, l)] for the
    rows that [moveX] shifts, [(l, k)] for the columns of [moveY]. *)
Variables (cell : Z -> Z -> Z * Z) (lines n : Z).
Hypothesis cell_in : forall l k, 0 <= l < lines -> 0 <= k < n ->
  in_range seg (fst (cell l k)) (snd (cell l k)).
Hypothesis cell_inj : forall l k l' k', cell l k = cell l' k' -> l = l' /\ k = k'.

Local Abbreviation get q f := (getPixelColorXY seg (fst q) (snd q) f).

(** Writing the positions [ks] of line [l] with the values [v]. *)
Lemma write_line l (v : Z -> Z) ks :
  forall f, P f -> 0 <= l < lines -> (forall k, k ∈ ks -> 0 <= k < n) ->
  let f' := foldl (fun f k => setPixelColorXY seg (fst (cell l k)) (snd (cell l k)) (v k) f)
                  f ks in
  P f'
  /\ (forall k, k ∈ ks -> get (cell l k) f' = v k)
  /\ (forall q, in_range seg (fst q) (snd q) -> (forall k, k ∈ ks -> cell l k <> q) ->
        get q f' = get q f).
Proof.
  induction ks as [| k ks IH]; intros f Hf Hl Hks; cbv zeta.
  - cbn [foldl]. split; [exact Hf |]. split; [| reflexivity].
    intros k Hk. inversion Hk.
  - cbn [foldl].
    set (f1 := setPixelColorXY seg (fst (cell l k)) (snd (cell l k)) (v k) f).
    assert (Hk : 0 <= k < n) by (apply Hks; now left).
    assert (Hf1 : P f1) by (apply (pa_closed seg P HP); exact Hf).
    destruct (IH f1 Hf1 Hl) as (HP' & Hmem & Hoth).
    { intros k' Hk'. apply Hks. now right. }
    split; [exact HP' |]. split.
    + intros k0 Hk0.
      destruct (decide (k0 ∈ ks)) as [Hin | Hnin]; [now apply Hmem |].
      apply elem_of_cons in Hk0 as [-> | Hk0]; [| contradiction].
      rewrite Hoth.
      * apply (pa_same seg P HP); [exact Hf | now apply cell_in].
      * now apply cell_in.
      * intros k' Hk' He. apply cell_inj in He as [_ ->]. contradiction.
    + intros q Hq Hmiss. rewrite Hoth.
      * apply (pa_other seg P HP); [exact Hf | now apply cell_in | exact Hq |].
        replace (fst (cell l k), snd (cell l k)) with (cell l k)
          by (now destruct (cell l k)).
        replace (fst q, snd q) with q by (now destruct q).
        apply Hmiss. now left.
      * exact Hq.
      * intros k' Hk'. apply Hmiss. now right.
Qed.

Variables (delta : Z) (wrap : bool).
Hypothesis Hdelta : 0 < Z.abs delta < n.

(** The body of the outer loop of [moveX] and [moveY] for line [l]. *)
Let line_step (f : Frame S) (l : Z) : Frame S :=
  foldl (fun f' k =>
           setPixelColorXY seg (fst (cell l k)) (snd (cell l k))
             (rd (shifted_line n delta wrap (fun k' => get (cell l k') f)) k) f')
        f (seqZ 0 n).

Lemma line_step_get f l :
  P f -> 0 <= l < lines ->
  P (line_step f l)
  /\ forall l' k, 0 <= l' < lines -> 0 <= k < n ->
       get (cell l' k) (line_step f l) =
         if decide (l' = l) then get (cell l (shift_src n delta wrap k)) f
         else get (cell l' k) f.
Proof.
  intros Hf Hl. unfold line_step.
  destruct (write_line l
              (fun k => rd (shifted_line n delta wrap (fun k' => get (cell l k') f)) k)
              (seqZ 0 n) f Hf Hl) as (HP' & Hmem & Hoth).
  { intros k Hk. apply elem_of_seqZ in Hk. lia. }
  split; [exact HP' |].
  intros l' k Hl' Hk. destruct (decide (l' = l)) as [-> | Hne].
  - rewrite Hmem by (apply elem_of_seqZ; lia).
    now rewrite shifted_line_rd.
  - apply Hoth; [now apply cell_in |].
    intros k' _ He. apply cell_inj in He as [-> _]. contradiction.
Qed.

Lemma lines_get ls :
  forall f, NoDup ls -> (forall l, l ∈ ls -> 0 <= l < lines) -> P f ->
  P (foldl line_step f ls)
  /\ forall l k, 0 <= l < lines -> 0 <= k < n ->
       get (cell l k) (foldl line_step f ls) =
         if decide (l ∈ ls) then get (cell l (shift_src n delta wrap k)) f
         else get (cell l k) f.
Proof.
  induction ls as [| l0 ls IH]; intros f Hnd Hls Hf.
  - cbn [foldl]. split; [exact Hf |]. intros l k Hl Hk.
    rewrite decide_False; [reflexivity | intros Hin; inversion Hin].
  - cbn [foldl]. apply NoDup_cons in Hnd as [Hnot Hnd].
    assert (Hl0 : 0 <= l0 < lines) by (apply Hls; now left).
    destruct (line_step_get f l0 Hf Hl0) as (Hf1 & Hstep).
    destruct (IH (line_step f l0) Hnd) as (HP' & Hrest);
      [intros l Hl; apply Hls; now right | exact Hf1 |].
    split; [exact HP' |].
    intros l k Hl Hk. rewrite Hrest by assumption.
    pose proof (shift_src_range n delta wrap k Hk) as Hsrc.
    destruct (decide (l ∈ ls)) as [Hin | Hnin].
    + rewrite decide_True by (now right).
      rewrite Hstep by assumption.
      rewrite decide_False; [reflexivity | intros ->; contradiction].
    + rewrite Hstep by assumption.
      destruct (decide (l = l0)) as [-> | Hne].
      * rewrite decide_True by (now left). reflexivity.
      * rewrite decide_False; [reflexivity |].
        intros Hin. apply elem_of_cons in Hin as [-> | Hin]; contradiction.
Qed.

End Lines.

(** *** [moveX] and [moveY] *)

Section Moves.

Context {S : Type} `{StripAccessor S} `{ColorOps}.
Variables (seg : Segment) (P : Frame S -> Prop).
Hypothesis HP : pixel_array seg P.
Hypothesis Hact : isActive seg = true.

Lemma moveX_get delta wrap f x y :
  P f -> 0 < Z.abs delta < virtualWidth seg -> in_range seg x y ->
  P (moveX seg delta wrap f)
  /\ getPixelColorXY seg x y (moveX seg delta wrap f)
     = getPixelColorXY seg (shift_src (virtualWidth seg) delta wrap x) y f.
Proof.
  intros Hf Hd [Hx Hy]. unfold moveX. rewrite Hact. cbn [negb]. cbv zeta.
  destruct (Z.eqb_spec delta 0); [lia |].
  destruct (Z.geb_spec (Z.abs delta) (virtualWidth seg)); [lia |]. cbn [orb].
  pose proof (lines_get seg P HP (fun l k => (k, l))
                (virtualHeight seg) (virtualWidth seg)) as Hg.
  cbn [fst snd] in Hg.
  destruct (Hg ltac:(intros; split; cbn; lia) ltac:(intros ? ? ? ? [= -> ->]; done)
               delta wrap Hd (seqZ 0 (virtualHeight seg)) f (NoDup_seqZ _ _)
               ltac:(intros l Hl; apply elem_of_seqZ in Hl; lia) Hf)
    as (HP' & Hget).
  split; [exact HP' |].
  rewrite (Hget y x Hy Hx).
  rewrite decide_True by (apply elem_of_seqZ; lia). reflexivity.
Qed.

Lemma moveY_get delta wrap f x y :
  P f -> 0 < Z.abs delta < virtualHeight seg -> in_range seg x y ->
  P (moveY seg delta wrap f)
  /\ getPixelColorXY seg x y (moveY seg delta wrap f)
     = getPixelColorXY seg x (shift_src (virtualHeight seg) delta wrap y) f.
Proof.
  intros Hf Hd [Hx Hy]. unfold moveY. rewrite Hact. cbn [negb]. cbv zeta.
  destruct (Z.eqb_spec delta 0); [lia |].
  destruct (Z.geb_spec (Z.abs delta) (virtualHeight seg)); [lia |]. cbn [orb].
  pose proof (lines_get seg P HP (fun l k => (l, k))
                (virtualWidth seg) (virtualHeight seg)) as Hg.
  cbn [fst snd] in Hg.
  destruct (Hg ltac:(intros; split; cbn; lia) ltac:(intros ? ? ? ? [= -> ->]; done)
               delta wrap Hd (seqZ 0 (virtualWidth seg)) f (NoDup_seqZ _ _)
               ltac:(intros l Hl; apply elem_of_seqZ in Hl; lia) Hf)
    as (HP' & Hget).
  split; [exact HP' |].
  rewrite (Hget x y Hx Hy).
  rewrite decide_True by (apply elem_of_seqZ; lia). reflexivity.
Qed.

End Moves.

(** X9: on a pixel array, [moveX] with a non-zero shift shorter than the
    width gives each pixel the colour of the pixel [delta] columns to its
    right (to its left for a negative shift) in the same row; where that
    falls off the row, the pixel takes the colour wrapped around the row
    when [wrap] is set and keeps its own colour otherwise. *)
Theorem X9_moveX_shifts_each_row {S : Type} `{StripAccessor S} `{ColorOps}
    (seg : Segment) (P : Frame S -> Prop) (delta : Z) (wrap : bool)
    (f : Frame S) (x y : Z) :
  pixel_array seg P -> P f -> isActive seg = true ->
  -128 <= delta <= 127 -> delta <> 0 -> Z.abs delta < virtualWidth seg ->
  in_range seg x y ->
  let f' := moveX seg delta wrap f in
  P f'
  /\ (0 <= x + delta < virtualWidth seg ->
      getPixelColorXY seg x y f' = getPixelColorXY seg (x + delta) y f)
  /\ (~ 0 <= x + delta < virtualWidth seg -> wrap = true ->
      getPixelColorXY seg x y f'
      = getPixelColorXY seg ((x + delta) mod virtualWidth seg) y f)
  /\ (~ 0 <= x + delta < virtualWidth seg -> wrap = false ->
      getPixelColorXY seg x y f' = getPixelColorXY seg x y f).
Proof.
  intros HP Hf Hact _ Hnz Hd Hin. cbv zeta.
  destruct (moveX_get seg P HP Hact delta wrap f x y Hf ltac:(lia) Hin) as [HP' Hget].
  split; [exact HP' |]. rewrite Hget. unfold shift_src.
  destruct (Z.leb_spec 0 (x + delta)); destruct (Z.ltb_spec (x + delta) (virtualWidth seg));
    cbn [andb]; repeat split; intros; subst; try reflexivity; lia.
Qed.

Lemma X9_moveX_shifts_each_row_witness :
  getPixelColorXY small_seg 0 1 (moveX small_seg 1 true six_pixels) = 14
  /\ getPixelColorXY small_seg 2 1 (moveX small_seg 1 true six_pixels) = 13.
Proof.
  destruct (X9_moveX_shifts_each_row small_seg (buffered small_seg) 1 true
              six_pixels 0 1) as (_ & H1 & _).
  { apply buffered_pixel_array; [reflexivity | reflexivity | cbn; lia | cbn; lia]. }
  { exists [10; 11; 12; 13; 14; 15]. split; [reflexivity | cbn; lia]. }
  { reflexivity. } { lia. } { lia. } { cbn. lia. } { unfold in_range. cbn. lia. }
  destruct (X9_moveX_shifts_each_row small_seg (buffered small_seg) 1 true
              six_pixels 2 1) as (_ & _ & H2 & _).
  { apply buffered_pixel_array; [reflexivity | reflexivity | cbn; lia | cbn; lia]. }
  { exists [10; 11; 12; 13; 14; 15]. split; [reflexivity | cbn; lia]. }
  { reflexivity. } { lia. } { lia. } { cbn. lia. } { unfold in_range. cbn. lia. }
  split.
  - rewrite H1 by (cbn; lia). reflexivity.
  - rewrite H2; [reflexivity | cbn; lia | reflexivity].
Defined.

(** X10: on a pixel array, [moveY] with a non-zero shift shorter than the
    height gives each pixel the colour of the pixel [delta] rows below it
    (above it for a negative shift) in the same column; where that falls
    off the column, the pixel takes the colour wrapped around the column
    when [wrap] is set and keeps its own colour otherwise. *)
Theorem X10_moveY_shifts_each_column {S : Type} `{StripAccessor S} `{ColorOps}
    (seg : Segment) (P : Frame S -> Prop) (delta : Z) (wrap : bool)
    (f : Frame S) (x y : Z) :
  pixel_array seg P -> P f -> isActive seg = true ->
  -128 <= delta <= 127 -> delta <> 0 -> Z.abs delta < virtualHeight seg ->
  in_range seg x y ->
  let f' := moveY seg delta wrap f in
  P f'
  /\ (0 <= y + delta < virtualHeight seg ->
      getPixelColorXY seg x y f' = getPixelColorXY seg x (y + delta) f)
  /\ (~ 0 <= y + delta < virtualHeight seg -> wrap = true ->
      getPixelColorXY seg x y f'
      = getPixelColorXY seg x ((y + delta) mod virtualHeight seg) f)
  /\ (~ 0 <= y + delta < virtualHeight seg -> wrap = false ->
      getPixelColorXY seg x y f' = getPixelColorXY seg x y f).
Proof.
  intros HP Hf Hact _ Hnz Hd Hin. cbv zeta.
  destruct (moveY_get seg P HP Hact delta wrap f x y Hf ltac:(lia) Hin) as [HP' Hget].
  split; [exact HP' |]. rewrite Hget. unfold shift_src.
  destruct (Z.leb_spec 0 (y + delta)); destruct (Z.ltb_spec (y + delta) (virtualHeight seg));
    cbn [andb]; repeat split; intros; subst; try reflexivity; lia.
Qed.

Lemma X10_moveY_shifts_each_column_witness :
  getPixelColorXY small_seg 1 0 (moveY small_seg (-1) false six_pixels) = 11
  /\ getPixelColorXY small_seg 1 1 (moveY small_seg (-1) false six_pixels) = 11.
Proof.
  destruct (X10_moveY_shifts_each_column small_seg (buffered small_seg) (-1) false
              six_pixels 1 0) as (_ & _ & _ & H1).
  { apply buffered_pixel_array; [reflexivity | reflexivity | cbn; lia | cbn; lia]. }
  { exists [10; 11; 12; 13; 14; 15]. split; [reflexivity | cbn; lia]. }
  { reflexivity. } { lia. } { lia. } { cbn. lia. } { unfold in_range. cbn. lia. }
  destruct (X10_moveY_shifts_each_column small_seg (buffered small_seg) (-1) false
              six_pixels 1 1) as (_ & H2 & _).
  { apply buffered_pixel_array; [reflexivity | reflexivity | cbn; lia | cbn; lia]. }
  { exists [10; 11; 12; 13; 14; 15]. split; [reflexivity | cbn; lia]. }
  { reflexivity. } { lia. } { lia. } { cbn. lia. } { unfold in_range. cbn. lia. }
  split.
  - rewrite H1; [reflexivity | cbn; lia | reflexivity].
  - rewrite H2 by (cbn; lia). reflexivity.
Defined.

(** X11: on a pixel array, with [wrap] set, two [moveX] in a row (each
    with a non-zero shift shorter than the width) shift by the sum of their
    shifts around the row; in particular [moveX(-delta)] undoes
    [moveX(delta)] on every pixel. *)
Theorem X11_moveX_wrap_composes {S : Type} `{StripAccessor S} `{ColorOps}
    (seg : Segment) (P : Frame S -> Prop) (d1 d2 : Z) (f : Frame S) (x y : Z) :
  pixel_array seg P -> P f -> isActive seg = true ->
  -128 <= d1 <= 127 -> -128 <= d2 <= 127 ->
  d1 <> 0 -> d2 <> 0 ->
  Z.abs d1 < virtualWidth seg -> Z.abs d2 < virtualWidth seg ->
  in_range seg x y ->
  getPixelColorXY seg x y (moveX seg d2 true (moveX seg d1 true f))
  = getPixelColorXY seg ((x + d1 + d2) mod virtualWidth seg) y f
  /\ (d2 = - d1 ->
      getPixelColorXY seg x y (moveX seg d2 true (moveX seg d1 true f))
      = getPixelColorXY seg x y f).
Proof.
  intros HP Hf Hact _ _ Hn1 Hn2 Hd1 Hd2 Hin.
  destruct Hin as [Hx Hy].
  assert (Hcomp : getPixelColorXY seg x y (moveX seg d2 true (moveX seg d1 true f))
                  = getPixelColorXY seg ((x + d1 + d2) mod virtualWidth seg) y f).
  { destruct (moveX_get seg P HP Hact d1 true f x y Hf ltac:(lia) (conj Hx Hy))
      as [Hf1 _].
    destruct (moveX_get seg P HP Hact d2 true (moveX seg d1 true f) x y Hf1
                ltac:(lia) (conj Hx Hy)) as [_ ->].
    pose proof (shift_src_range (virtualWidth seg) d2 true x Hx) as Hs.
    destruct (moveX_get seg P HP Hact d1 true f _ y Hf ltac:(lia) (conj Hs Hy))
      as [_ ->].
    rewrite !shift_src_wrap by assumption.
    f_equal. rewrite Zplus_mod_idemp_l. f_equal. lia. }
  split; [exact Hcomp |].
  intros ->. rewrite Hcomp. f_equal.
  replace (x + d1 + - d1) with x by lia. apply Z.mod_small. exact Hx.
Qed.

Lemma X11_moveX_wrap_composes_witness :
  getPixelColorXY small_seg 2 0 (moveX small_seg (-2) true (moveX small_seg 2 true six_pixels))
  = 12.
Proof.
  destruct (X11_moveX_wrap_composes small_seg (buffered small_seg) 2 (-2)
              six_pixels 2 0) as [_ Hback].
  { apply buffered_pixel_array; [reflexivity | reflexivity | cbn; lia | cbn; lia]. }
  { exists [10; 11; 12; 13; 14; 15]. split; [reflexivity | cbn; lia]. }
  { reflexivity. } { lia. } { lia. } { lia. } { lia. } { cbn. lia. } { cbn. lia. }
  { unfold in_range. cbn. lia. }
  rewrite (Hback eq_refl). reflexivity.
Defined.

(** X12: on a pixel array, with [wrap] set and a shift from 1 to 127
    shorter than both dimensions, [move] in direction 0 to 7 gives every
    pixel the colour of
    the pixel [delta] steps away along the direction vector, wrapped around
    the segment: to the right for 0, 1 and 7, to the left for 3, 4 and 5,
    below for 1, 2 and 3, above for 5, 6 and 7. *)
Theorem X12_move_follows_direction {S : Type} `{StripAccessor S} `{ColorOps}
    (seg : Segment) (P : Frame S -> Prop) (dir delta : Z) (f : Frame S) (x y : Z) :
  pixel_array seg P -> P f -> isActive seg = true ->
  0 <= dir <= 7 -> 1 <= delta <= 127 ->
  delta < virtualWidth seg -> delta < virtualHeight seg ->
  in_range seg x y ->
  getPixelColorXY seg x y (move seg dir delta true f)
  = getPixelColorXY seg ((x + dir_dx dir * delta) mod virtualWidth seg)
                        ((y + dir_dy dir * delta) mod virtualHeight seg) f.
Proof.
  intros HP Hf Hact Hdir Hdelta Hw Hh [Hx Hy].
  assert (Hp : to_i8 delta = delta) by (apply to_i8_small; lia).
  assert (Hn : to_i8 (- delta) = - delta) by (apply to_i8_small; lia).
  assert (HX : forall d g x0 y0, P g -> (d = delta \/ d = - delta) ->
             0 <= x0 < virtualWidth seg -> 0 <= y0 < virtualHeight seg ->
             P (moveX seg d true g)
             /\ getPixelColorXY seg x0 y0 (moveX seg d true g)
                = getPixelColorXY seg ((x0 + d) mod virtualWidth seg) y0 g).
  { intros d g x0 y0 Hg Hd Hx0 Hy0.
    destruct (moveX_get seg P HP Hact d true g x0 y0 Hg ltac:(lia) (conj Hx0 Hy0))
      as [HP' ->].
    split; [exact HP' |]. now rewrite shift_src_wrap. }
  assert (HY : forall d g x0 y0, P g -> (d = delta \/ d = - delta) ->
             0 <= x0 < virtualWidth seg -> 0 <= y0 < virtualHeight seg ->
             P (moveY seg d true g)
             /\ getPixelColorXY seg x0 y0 (moveY seg d true g)
                = getPixelColorXY seg x0 ((y0 + d) mod virtualHeight seg) g).
  { intros d g x0 y0 Hg Hd Hx0 Hy0.
    destruct (moveY_get seg P HP Hact d true g x0 y0 Hg ltac:(lia) (conj Hx0 Hy0))
      as [HP' ->].
    split; [exact HP' |]. now rewrite shift_src_wrap. }
  assert (Hym : forall d, 0 <= (y + d) mod virtualHeight seg < virtualHeight seg)
    by (intros; apply Z.mod_pos_bound; lia).
  assert (Hx0 : (x + 0 * delta) mod virtualWidth seg = x)
    by (rewrite Z.mul_0_l, Z.add_0_r; apply Z.mod_small; lia).
  assert (Hy0 : (y + 0 * delta) mod virtualHeight seg = y)
    by (rewrite Z.mul_0_l, Z.add_0_r; apply Z.mod_small; lia).
  unfold move. destruct (Z.eqb_spec delta 0); [lia |].
  assert (Hcases : dir = 0 \/ dir = 1 \/ dir = 2 \/ dir = 3 \/ dir = 4
                   \/ dir = 5 \/ dir = 6 \/ dir = 7) by lia.
  rewrite Hp, Hn.
  destruct Hcases as [-> | [-> | [-> | [-> | [-> | [-> | [-> | ->]]]]]]];
    cbn [dir_dx dir_dy].
  - rewrite Hy0. destruct (HX delta f x y Hf ltac:(now left) Hx Hy) as [_ ->].
    f_equal; f_equal; lia.
  - destruct (HX delta f x y Hf ltac:(now left) Hx Hy) as [Hf1 _].
    destruct (HY delta _ x y Hf1 ltac:(now left) Hx Hy) as [_ ->].
    destruct (HX delta f x _ Hf ltac:(now left) Hx (Hym delta)) as [_ ->].
    f_equal; f_equal; lia.
  - rewrite Hx0. destruct (HY delta f x y Hf ltac:(now left) Hx Hy) as [_ ->].
    f_equal; f_equal; lia.
  - destruct (HX (- delta) f x y Hf ltac:(now right) Hx Hy) as [Hf1 _].
    destruct (HY delta _ x y Hf1 ltac:(now left) Hx Hy) as [_ ->].
    destruct (HX (- delta) f x _ Hf ltac:(now right) Hx (Hym delta)) as [_ ->].
    f_equal; f_equal; lia.
  - rewrite Hy0. destruct (HX (- delta) f x y Hf ltac:(now right) Hx Hy) as [_ ->].
    f_equal; f_equal; lia.
  - destruct (HX (- delta) f x y Hf ltac:(now right) Hx Hy) as [Hf1 _].
    destruct (HY (- delta) _ x y Hf1 ltac:(now right) Hx Hy) as [_ ->].
    destruct (HX (- delta) f x _ Hf ltac:(now right) Hx (Hym (- delta))) as [_ ->].
    f_equal; f_equal; lia.
  - rewrite Hx0. destruct (HY (- delta) f x y Hf ltac:(now right) Hx Hy) as [_ ->].
    f_equal; f_equal; lia.
  - destruct (HX delta f x y Hf ltac:(now left) Hx Hy) as [Hf1 _].
    destruct (HY (- delta) _ x y Hf1 ltac:(now right) Hx Hy) as [_ ->].
    destruct (HX delta f x _ Hf ltac:(now left) Hx (Hym (- delta))) as [_ ->].
    f_equal; f_equal; lia.
Qed.

Lemma X12_move_follows_direction_witness :
  getPixelColorXY small_seg 0 0 (move small_seg 1 1 true six_pixels) = 14.
Proof.
  rewrite (X12_move_follows_direction small_seg (buffered small_seg) 1 1 six_pixels 0 0).
  - reflexivity.
  - apply buffered_pixel_array; [reflexivity | reflexivity | cbn; lia | cbn; lia].
  - exists [10; 11; 12; 13; 14; 15]. split; [reflexivity | cbn; lia].
  - reflexivity.
  - lia.
  - lia.
  - cbn. lia.
  - cbn. lia.
  - unfold in_range. cbn. lia.
Defined.

End MoveFacts.
(** ** Drawing a line *)

Module LineFacts.
Import Seg Draw MoveFacts.

Lemma to_i16_add a b : to_i16 (to_i16 a + b) = to_i16 (a + b).
Proof.
  unfold to_i16. f_equal.
  replace ((a + 32768) mod 65536 - 32768 + b + 32768)
    with ((a + 32768) mod 65536 + b) by lia.
  rewrite Zplus_mod_idemp_l. f_equal. lia.
Qed.

(** *** The loop, for any invariant that counts the passes *)

Section Run.

Variables (x1 y1 dx dy sx sy n : Z).
Variable I : Z -> Z -> Z -> Z -> Prop.
Variable box : Z * Z -> Prop.

Hypothesis Hstep : forall k x y err, I k x y err -> 0 <= k < n ->
  (x =? x1) && (y =? y1) = false
  /\ I (k + 1) (fst (fst (line_next dx dy sx sy x y err)))
               (snd (fst (line_next dx dy sx sy x y err)))
               (snd (line_next dx dy sx sy x y err))
  /\ neighbours (x, y) (fst (line_next dx dy sx sy x y err)).
Hypothesis Hend : forall x y err, I n x y err -> x = x1 /\ y = y1.
Hypothesis Hbox : forall k x y err, I k x y err -> box (x, y).

Lemma run (m : nat) :
  forall k x y err fuel,
  I k x y err -> 0 <= k -> k + Z.of_nat m = n -> (m < fuel)%nat ->
  exists pts,
    line_points fuel x1 y1 dx dy sx sy x y err = Some pts
    /\ length pts = Datatypes.S m
    /\ head pts = Some (x, y)
    /\ last pts = Some (x1, y1)
    /\ Forall box pts
    /\ chain neighbours pts.
Proof.
  induction m as [| m IH]; intros k x y err fuel HI Hk Hkm Hfuel.
  - destruct fuel as [| fuel]; [lia |].
    assert (k = n) by lia. subst k.
    destruct (Hend x y err HI) as [-> ->].
    exists [(x1, y1)]. cbn [line_points]. rewrite !Z.eqb_refl. cbn [andb].
    split; [reflexivity |]. split; [reflexivity |]. split; [reflexivity |].
    split; [reflexivity |]. split.
    + constructor; [| constructor]. now apply (Hbox n _ _ err).
    + intros i p q _ Hq. destruct i; discriminate Hq.
  - destruct fuel as [| fuel]; [lia |].
    destruct (Hstep k x y err HI ltac:(lia)) as (Htest & Hnext & Hnb).
    cbn [line_points]. rewrite Htest. cbv zeta.
    destruct (line_next dx dy sx sy x y err) as [[xn yn] errn] eqn:Hn.
    cbn [fst snd] in *.
    destruct (IH (k + 1) xn yn errn fuel Hnext ltac:(lia) ltac:(lia) ltac:(lia))
      as (pts & -> & Hlen & Hhead & Hlast & Hall & Hchain).
    exists ((x, y) :: pts). cbn.
    split; [reflexivity |]. split; [now rewrite Hlen |]. split; [reflexivity |].
    split; [| split].
    + destruct pts as [| p pts]; [discriminate Hlen | exact Hlast].
    + constructor; [now apply (Hbox k _ _ err) | exact Hall].
    + intros i p q Hp Hq. destruct i as [| i].
      * cbn in Hp, Hq. injection Hp as <-.
        destruct pts as [| p0 pts]; [discriminate Hq |].
        cbn in Hq, Hhead. injection Hq as <-. injection Hhead as ->. exact Hnb.
      * cbn in Hp, Hq. now apply (Hchain i).
Qed.

End Run.

(** *** The two octant families *)

Section Bresenham.

Variables (x0 y0 x1 y1 : Z).
Hypothesis Hx0 : 0 <= x0 <= 65535.
Hypothesis Hx1 : 0 <= x1 <= 65535.
Hypothesis Hy0 : 0 <= y0 <= 65535.
Hypothesis Hy1 : 0 <= y1 <= 65535.

Let DX := Z.abs (x1 - x0).
Let DY := Z.abs (y1 - y0).
Let sx := if x0 <? x1 then 1 else -1.
Let sy := if y0 <? y1 then 1 else -1.

Hypothesis HDX : DX <= 32767.
Hypothesis HDY : DY <= 32767.

Lemma sx_spec : (sx = 1 \/ sx = -1) /\ x1 = x0 + sx * DX.
Proof. unfold sx, DX. destruct (Z.ltb_spec x0 x1); lia. Qed.

Lemma sy_spec : (sy = 1 \/ sy = -1) /\ y1 = y0 + sy * DY.
Proof. unfold sy, DY. destruct (Z.ltb_spec y0 y1); lia. Qed.

(** Lines closer to the x axis: [x0] moves on every pass. *)
Let inv_x (k x y err : Z) : Prop :=
  0 <= k <= DX /\ x = x0 + sx * k
  /\ exists b, 0 <= b <= DY /\ y = y0 + sy * b
       /\ err = DX / 2 - k * DY + b * DX /\ 0 <= err < DX.

(** Lines closer to the y axis: [y0] moves on every pass. *)
Let inv_y (k x y err : Z) : Prop :=
  0 <= k <= DY /\ y = y0 + sy * k
  /\ exists a, 0 <= a <= DX /\ x = x0 + sx * a
       /\ err = - (DY / 2) - a * DY + k * DX /\ - DY < err <= 0.

Lemma inv_x_between k x y err : inv_x k x y err -> between x0 y0 x1 y1 (x, y).
Proof.
  intros (Hk & -> & b & Hb & -> & _).
  destruct sx_spec as [Hs Ex]. destruct sy_spec as [Ht Ey].
  unfold between. cbn [fst snd]. nia.
Qed.

Lemma inv_y_between k x y err : inv_y k x y err -> between x0 y0 x1 y1 (x, y).
Proof.
  intros (Hk & -> & a & Ha & -> & _).
  destruct sx_spec as [Hs Ex]. destruct sy_spec as [Ht Ey].
  unfold between. cbn [fst snd]. nia.
Qed.

Lemma inv_x_end x y err : DY < DX -> inv_x DX x y err -> x = x1 /\ y = y1.
Proof.
  intros Hmaj (Hk & -> & b & Hb & -> & He & Herr).
  destruct sx_spec as [Hs Ex]. destruct sy_spec as [Ht Ey].
  split; [lia |].
  assert (Hhalf : 0 <= DX / 2 < DX) by (split; [apply Z.div_pos | apply Z.div_lt]; lia).
  assert (b = DY) by nia. subst b. lia.
Qed.

Lemma inv_y_end x y err : 0 < DY -> inv_y DY x y err -> x = x1 /\ y = y1.
Proof.
  intros Hpos (Hk & -> & a & Ha & -> & He & Herr).
  destruct sx_spec as [Hs Ex]. destruct sy_spec as [Ht Ey].
  split; [| lia].
  assert (Hhalf : 0 <= DY / 2 < DY) by (split; [apply Z.div_pos | apply Z.div_lt]; lia).
  assert (a = DX) by nia. subst a. lia.
Qed.

Lemma inv_x_step k x y err :
  DY < DX -> inv_x k x y err -> 0 <= k < DX ->
  (x =? x1) && (y =? y1) = false
  /\ inv_x (k + 1) (fst (fst (line_next DX DY sx sy x y err)))
                   (snd (fst (line_next DX DY sx sy x y err)))
                   (snd (line_next DX DY sx sy x y err))
  /\ neighbours (x, y) (fst (line_next DX DY sx sy x y err)).
Proof.
  intros Hmaj (Hk & Ex & b & Hb & Ey & He & Herr) Hlt.
  destruct sx_spec as [Hs Ex1]. destruct sy_spec as [Ht Ey1].
  assert (Hhalf : 0 <= DX / 2 < DX) by (split; [apply Z.div_pos | apply Z.div_lt]; lia).
  split.
  { destruct (Z.eqb_spec x x1); [nia | reflexivity]. }
  unfold line_next. cbv zeta.
  destruct (Z.gtb_spec err (- DX)); [| lia].
  rewrite (to_i16_small (err - DY)) by lia.
  assert (Hxn : to_u16 (x + sx) = x0 + sx * (k + 1)).
  { rewrite to_u16_small; nia. }
  destruct (Z.ltb_spec err DY) as [Hy | Hy]; cbn [fst snd].
  - assert (Hb1 : b + 1 <= DY) by nia.
    rewrite (to_i16_small (err - DY + DX)) by lia.
    assert (Hyn : to_u16 (y + sy) = y0 + sy * (b + 1)).
    { rewrite to_u16_small; nia. }
    split.
    + split; [lia |]. split; [exact Hxn |].
      exists (b + 1). split; [lia |]. split; [exact Hyn |]. split; nia.
    + rewrite Hxn, Hyn. unfold neighbours. cbn [fst snd].
      split; [nia |]. split; [nia |]. intros [= E1 E2]. nia.
  - split.
    + split; [lia |]. split; [exact Hxn |].
      exists b. split; [lia |]. split; [exact Ey |]. split; nia.
    + rewrite Hxn. unfold neighbours. cbn [fst snd].
      split; [nia |]. split; [lia |]. intros [= E1]. nia.
Qed.

Lemma inv_y_step k x y err :
  DX <= DY -> inv_y k x y err -> 0 <= k < DY ->
  (x =? x1) && (y =? y1) = false
  /\ inv_y (k + 1) (fst (fst (line_next DX DY sx sy x y err)))
                   (snd (fst (line_next DX DY sx sy x y err)))
                   (snd (line_next DX DY sx sy x y err))
  /\ neighbours (x, y) (fst (line_next DX DY sx sy x y err)).
Proof.
  intros Hmaj (Hk & Ey & a & Ha & Ex & He & Herr) Hlt.
  destruct sx_spec as [Hs Ex1]. destruct sy_spec as [Ht Ey1].
  assert (Hhalf : 0 <= DY / 2 < DY) by (split; [apply Z.div_pos | apply Z.div_lt]; lia).
  split.
  { destruct (Z.eqb_spec y y1); [nia |]. now rewrite andb_false_r. }
  unfold line_next. cbv zeta.
  destruct (Z.ltb_spec err DY); [| lia].
  assert (Hyn : to_u16 (y + sy) = y0 + sy * (k + 1)).
  { rewrite to_u16_small; nia. }
  destruct (Z.gtb_spec err (- DX)) as [Hx | Hx]; cbn [fst snd].
  - assert (Ha1 : a + 1 <= DX) by nia.
    rewrite to_i16_add, (to_i16_small (err - DY + DX)) by lia.
    assert (Hxn : to_u16 (x + sx) = x0 + sx * (a + 1)).
    { rewrite to_u16_small; nia. }
    split.
    + split; [lia |]. split; [exact Hyn |].
      exists (a + 1). split; [lia |]. split; [exact Hxn |]. split; nia.
    + rewrite Hxn, Hyn. unfold neighbours. cbn [fst snd].
      split; [nia |]. split; [nia |]. intros [= E1 E2]. nia.
  - rewrite (to_i16_small (err + DX)) by lia.
    split.
    + split; [lia |]. split; [exact Hyn |].
      exists a. split; [lia |]. split; [exact Ex |]. split; nia.
    + rewrite Hyn. unfold neighbours. cbn [fst snd].
      split; [lia |]. split; [nia |]. intros [= E1]. nia.
Qed.

(** The loop started at [(x0, y0)] with the initial error term. *)
Lemma bresenham fuel :
  (Z.to_nat (Z.max DX DY) < fuel)%nat ->
  exists pts,
    line_points fuel x1 y1 DX DY sx sy x0 y0
                (to_i16 (Z.quot (if DX >? DY then DX else - DY) 2)) = Some pts
    /\ Z.of_nat (length pts) = Z.max DX DY + 1
    /\ head pts = Some (x0, y0)
    /\ last pts = Some (x1, y1)
    /\ Forall (between x0 y0 x1 y1) pts
    /\ chain neighbours pts.
Proof.
  intros Hfuel.
  assert (HDX0 : 0 <= DX) by (unfold DX; lia).
  assert (HDY0 : 0 <= DY) by (unfold DY; lia).
  destruct (Z.gtb_spec DX DY) as [Hmaj | Hmaj].
  - assert (Hhalf : 0 <= DX / 2 < DX)
      by (split; [apply Z.div_pos | apply Z.div_lt]; lia).
    rewrite Z.quot_div_nonneg by lia. rewrite to_i16_small by lia.
    destruct (run x1 y1 DX DY sx sy DX inv_x (between x0 y0 x1 y1)
                (fun k x y err HI Hk => inv_x_step k x y err ltac:(lia) HI Hk)
                (fun x y err HI => inv_x_end x y err ltac:(lia) HI)
                inv_x_between
                (Z.to_nat DX) 0 x0 y0 (DX / 2) fuel)
      as (pts & Hpts & Hlen & Hrest); try lia.
    { split; [lia |]. split; [lia |]. exists 0. repeat split; lia. }
    exists pts. split; [exact Hpts |]. split; [lia | exact Hrest].
  - destruct (Z.eq_dec DY 0) as [Hz | Hnz].
    + assert (DX = 0) by lia.
      assert (x1 = x0) by (unfold DX in *; lia).
      assert (y1 = y0) by (unfold DY in *; lia).
      subst x1 y1. destruct fuel as [| fuel]; [lia |].
      exists [(x0, y0)]. cbn [line_points]. rewrite !Z.eqb_refl. cbn [andb].
      split; [reflexivity |]. split; [cbn; lia |]. split; [reflexivity |].
      split; [reflexivity |]. split.
      * constructor; [| constructor]. unfold between. cbn. lia.
      * intros i p q _ Hq. destruct i; discriminate Hq.
    + assert (Hhalf : 0 <= DY / 2 < DY)
        by (split; [apply Z.div_pos | apply Z.div_lt]; lia).
      rewrite Z.quot_opp_l by lia. rewrite Z.quot_div_nonneg by lia.
      rewrite to_i16_small by lia.
      destruct (run x1 y1 DX DY sx sy DY inv_y (between x0 y0 x1 y1)
                  (fun k x y err HI Hk => inv_y_step k x y err ltac:(lia) HI Hk)
                  (fun x y err HI => inv_y_end x y err ltac:(lia) HI)
                  inv_y_between
                  (Z.to_nat DY) 0 x0 y0 (- (DY / 2)) fuel)
        as (pts & Hpts & Hlen & Hrest); try lia.
      { split; [lia |]. split; [lia |]. exists 0. repeat split; lia. }
      exists pts. split; [exact Hpts |]. split; [lia | exact Hrest].
Qed.

End Bresenham.

(** X13: for end points inside a segment of at most 32768 columns and
    rows, the loop of [drawLine] ends: it sets [max(dx, dy) + 1] pixels,
    the first is [(x0, y0)], the last is [(x1, y1)], each pixel lies in the
    rectangle spanned by the end points (so inside the segment), and each
    is a neighbour of the one before it, along an axis or diagonally. *)
Theorem X13_drawLine_connects_end_points (seg : Segment) (x0 y0 x1 y1 : Z)
    (fuel : nat) :
  isActive seg = true ->
  virtualWidth seg <= 32768 -> virtualHeight seg <= 32768 ->
  in_range seg x0 y0 -> in_range seg x1 y1 ->
  (Z.to_nat (Z.max (Z.abs (x1 - x0)) (Z.abs (y1 - y0))) < fuel)%nat ->
  exists pts,
    drawLine_points fuel seg x0 y0 x1 y1 = Some pts
    /\ Z.of_nat (length pts) = Z.max (Z.abs (x1 - x0)) (Z.abs (y1 - y0)) + 1
    /\ head pts = Some (x0, y0)
    /\ last pts = Some (x1, y1)
    /\ Forall (fun p => in_range seg (fst p) (snd p) /\ between x0 y0 x1 y1 p) pts
    /\ chain neighbours pts.
Proof.
  intros Hact Hw Hh [Hx0 Hy0] [Hx1 Hy1] Hfuel.
  destruct (bresenham x0 y0 x1 y1 ltac:(lia) ltac:(lia) ltac:(lia) ltac:(lia)
              ltac:(lia) ltac:(lia) fuel Hfuel)
    as (pts & Hpts & Hlen & Hhead & Hlast & Hbox & Hchain).
  exists pts. unfold drawLine_points. rewrite Hact. cbn [negb]. cbv zeta.
  destruct (Z.geb_spec x0 (virtualWidth seg)); [lia |].
  destruct (Z.geb_spec x1 (virtualWidth seg)); [lia |].
  destruct (Z.geb_spec y0 (virtualHeight seg)); [lia |].
  destruct (Z.geb_spec y1 (virtualHeight seg)); [lia |]. cbn [orb].
  rewrite !(to_i16_small (Z.abs _)) by lia.
  split; [exact Hpts |]. split; [exact Hlen |]. split; [exact Hhead |].
  split; [exact Hlast |]. split; [| exact Hchain].
  eapply Forall_impl; [exact Hbox |].
  intros p Hp. split; [| exact Hp].
  destruct Hp as [Hpx Hpy]. unfold in_range. lia.
Qed.

Lemma X13_drawLine_connects_end_points_witness :
  drawLine_points 6 canvas 1 1 6 3
  = Some [(1, 1); (2, 1); (3, 2); (4, 2); (5, 3); (6, 3)].
Proof.
  destruct (X13_drawLine_connects_end_points canvas 1 1 6 3 6)
    as (pts & Hpts & _).
  - reflexivity.
  - cbn. lia.
  - cbn. lia.
  - unfold in_range. cbn. lia.
  - unfold in_range. cbn. lia.
  - cbn. lia.
  - reflexivity.
Defined.

End LineFacts.
(** ** Circles and the Wu pixel *)

Module CircleFacts.
Import Seg Draw.

(** *** [draw_circle] *)

(** The pixels of one pass: the centre offset by [(+-x, +-y)] or
    [(+-y, +-x)]. *)
Lemma octants_spec cx cy x y p :
  p ∈ octants cx cy x y <->
  exists a b, p = (cx + a, cy + b)
    /\ ((Z.abs a = Z.abs x /\ Z.abs b = Z.abs y)
        \/ (Z.abs a = Z.abs y /\ Z.abs b = Z.abs x))
    /\ ((a = x \/ a = - x) /\ (b = y \/ b = - y)
        \/ (a = y \/ a = - y) /\ (b = x \/ b = - x)).
Proof.
  unfold octants. split.
  - intros Hp.
    repeat (apply elem_of_cons in Hp as [-> | Hp]); [.. | inversion Hp].
    + exists x, y. split; [reflexivity | lia].
    + exists (- x), y. split; [f_equal; lia | lia].
    + exists x, (- y). split; [f_equal; lia | lia].
    + exists (- x), (- y). split; [f_equal; lia | lia].
    + exists y, x. split; [reflexivity | lia].
    + exists (- y), x. split; [f_equal; lia | lia].
    + exists y, (- x). split; [f_equal; lia | lia].
    + exists (- y), (- x). split; [f_equal; lia | lia].
  - intros (a & b & -> & _ & [[Ha Hb] | [Ha Hb]]);
      destruct Ha as [-> | ->]; destruct Hb as [-> | ->];
      rewrite ?Z.add_opp_r; repeat first [apply list_elem_of_here | apply list_elem_of_further].
Qed.

Lemma circle_points_run radius cx cy :
  forall fuel x y d,
  0 <= x -> y <= radius -> Z.max 1 (y - x + 2) <= Z.of_nat fuel ->
  exists pts,
    circle_points fuel cx cy x y d = Some pts
    /\ forall p, p ∈ pts ->
         exists x' y', 0 <= x' <= y' /\ y' <= radius /\ p ∈ octants cx cy x' y'
           /\ (forall q, q ∈ octants cx cy x' y' -> q ∈ pts).
Proof.
  induction fuel as [| fuel IH]; intros x y d Hx Hy Hfuel.
  - lia.
  - cbn [circle_points]. destruct (Z.geb_spec y x) as [Hge | Hlt].
    + cbv zeta.
      destruct (IH (x + 1) (if d >? 0 then y - 1 else y)
                   (if d >? 0 then d + (4 * (x + 1 - (if d >? 0 then y - 1 else y)) + 10)
                    else d + (4 * (x + 1) + 6)))
        as (pts & -> & Hpts).
      * lia.
      * destruct (d >? 0); lia.
      * destruct (d >? 0); lia.
      * eexists. split; [reflexivity |].
        intros p Hp. apply elem_of_app in Hp as [Hp | Hp].
        -- exists x, y. split; [lia |]. split; [lia |]. split; [exact Hp |].
           intros q Hq. apply elem_of_app. now left.
        -- destruct (Hpts p Hp) as (x' & y' & Hx' & Hy' & Ho & Hsub).
           exists x', y'. split; [lia |]. split; [lia |]. split; [exact Ho |].
           intros q Hq. apply elem_of_app. right. now apply Hsub.
    + exists []. split; [reflexivity |]. intros p Hp. inversion Hp.
Qed.

Lemma circle_points_first fuel cx cy x y d pts :
  circle_points fuel cx cy x y d = Some pts -> x <= y ->
  forall q, q ∈ octants cx cy x y -> q ∈ pts.
Proof.
  destruct fuel as [| fuel]; [discriminate |].
  cbn [circle_points]. intros E Hxy q Hq.
  destruct (Z.geb_spec y x); [| lia]. cbv zeta in E.
  destruct (circle_points fuel cx cy _ _ _) as [rest |]; [| discriminate].
  change (Some (octants cx cy x y ++ rest) = Some pts) in E.
  assert (pts = octants cx cy x y ++ rest) as -> by congruence.
  apply elem_of_app. now left.
Qed.

(** X14: for a circle that fits in an active segment (the centre at least
    [radius] away from every edge) the loop of [draw_circle] ends within
    [radius + 2] passes; every pixel it passes to [setPixelColorXY] lies
    inside the segment, so none is dropped, and at most [radius] away from
    the centre along each axis; the four pixels at distance [radius] along
    the axes are among them; and the pixels are symmetric about the centre
    in x, in y and across the diagonal. *)
Theorem X14_draw_circle_stays_in_square (seg : Segment) (cx cy radius : Z) (fuel : nat) :
  isActive seg = true -> 1 <= radius <= 255 ->
  radius <= cx -> cx + radius < virtualWidth seg ->
  radius <= cy -> cy + radius < virtualHeight seg ->
  (Z.to_nat radius + 1 < fuel)%nat ->
  exists pts,
    draw_circle_points fuel seg cx cy radius = Some pts
    /\ (forall p, p ∈ pts ->
          in_range seg (fst p) (snd p)
          /\ Z.abs (fst p - cx) <= radius /\ Z.abs (snd p - cy) <= radius)
    /\ ((cx, cy + radius) ∈ pts /\ (cx, cy - radius) ∈ pts
        /\ (cx + radius, cy) ∈ pts /\ (cx - radius, cy) ∈ pts)
    /\ (forall a b, (cx + a, cy + b) ∈ pts ->
          (cx - a, cy + b) ∈ pts /\ (cx + a, cy - b) ∈ pts /\ (cx + b, cy + a) ∈ pts).
Proof.
  intros Hact Hr Hx0 Hx1 Hy0 Hy1 Hfuel.
  unfold draw_circle_points. rewrite Hact. cbn [negb orb].
  destruct (Z.eqb_spec radius 0); [lia |].
  destruct (circle_points_run radius cx cy fuel 0 radius (3 - 2 * radius))
    as (pts & E & Hpts); [lia | lia | lia |].
  rewrite E. exists pts. split; [reflexivity |].
  split; [| split].
  - intros p Hp. destruct (Hpts p Hp) as (x' & y' & Hx' & Hy' & Ho & _).
    apply octants_spec in Ho as (a & b & -> & Habs & _). cbn [fst snd].
    unfold in_range. lia.
  - pose proof (circle_points_first _ _ _ _ _ _ _ E ltac:(lia)) as Hfirst.
    repeat split; apply Hfirst, octants_spec.
    + exists 0, radius. split; [f_equal; lia | lia].
    + exists 0, (- radius). split; [f_equal; lia | lia].
    + exists radius, 0. split; [f_equal; lia | lia].
    + exists (- radius), 0. split; [f_equal; lia | lia].
  - intros a b Hp. destruct (Hpts _ Hp) as (x' & y' & Hx' & Hy' & Ho & Hsub).
    apply octants_spec in Ho as (a0 & b0 & Eq & Habs & Hsgn).
    injection Eq as Ea Eb.
    assert (a0 = a) as -> by lia. assert (b0 = b) as -> by lia.
    repeat split; apply Hsub, octants_spec.
    + exists (- a), b. split; [f_equal; lia | lia].
    + exists a, (- b). split; [f_equal; lia | lia].
    + exists b, a. split; [f_equal; lia | lia].
Qed.

Lemma X14_draw_circle_stays_in_square_witness :
  exists pts,
    draw_circle_points 5 canvas 8 8 3 = Some pts
    /\ (forall p, p ∈ pts ->
          in_range canvas (fst p) (snd p)
          /\ Z.abs (fst p - 8) <= 3 /\ Z.abs (snd p - 8) <= 3)
    /\ ((8, 8 + 3) ∈ pts /\ (8, 8 - 3) ∈ pts /\ (8 + 3, 8) ∈ pts /\ (8 - 3, 8) ∈ pts)
    /\ (forall a b, (8 + a, 8 + b) ∈ pts ->
          (8 - a, 8 + b) ∈ pts /\ (8 + a, 8 - b) ∈ pts /\ (8 + b, 8 + a) ∈ pts).
Proof.
  apply (X14_draw_circle_stays_in_square canvas 8 8 3 5);
    [reflexivity | lia | lia | cbn; lia | lia | cbn; lia | cbn; lia].
Defined.

(** *** [fill_circle] *)




(** *** [wu_pixel] *)

Lemma land_255 z : 0 <= Z.land z 255 < 256.
Proof.
  change 255 with (Z.ones 8). rewrite Z.land_ones by lia.
  apply Z.mod_pos_bound. reflexivity.
Qed.

(** The weights over all fractional parts. *)
Lemma wu_table :
  forallb (fun xx => forallb (fun yy =>
    forallb (fun w => (0 <=? w) && (w <=? 255)) (wu_weights xx yy)
    && (255 <=? foldr Z.add 0 (wu_weights xx yy))
    && (foldr Z.add 0 (wu_weights xx yy) <=? 257)) (seqZ 0 256)) (seqZ 0 256) = true.
Proof. vm_compute. reflexivity. Qed.

Lemma wu_weights_frac x y :
  wu_weights x y = wu_weights (Z.land x 255) (Z.land y 255).
Proof.
  unfold wu_weights. cbv zeta.
  assert (E : forall z, Z.land (Z.land z 255) 255 = Z.land z 255).
  { intros z. rewrite <- Z.land_assoc. reflexivity. }
  now rewrite !E.
Qed.

(** X16: the four intensities of [wu_pixel] are bytes whose sum is between
    255 and 257, whatever the position; at a position without fractional
    part the pixel at that position has intensity 255 and its three
    neighbours 0. *)
Theorem X16_wu_weights_share_full_intensity (x y a b : Z) :
  Forall (fun w => 0 <= w <= 255) (wu_weights x y)
  /\ 255 <= foldr Z.add 0 (wu_weights x y) <= 257
  /\ combine (wu_cells (256 * a) (256 * b)) (wu_weights (256 * a) (256 * b))
     = [((a, b), 255); ((a + 1, b), 0); ((a, b + 1), 0); ((a + 1, b + 1), 0)].
Proof.
  assert (Hall : forallb (fun w => (0 <=? w) && (w <=? 255)) (wu_weights x y)
                 && (255 <=? foldr Z.add 0 (wu_weights x y))
                 && (foldr Z.add 0 (wu_weights x y) <=? 257) = true).
  { rewrite wu_weights_frac.
    pose proof wu_table as T. rewrite forallb_forall in T.
    specialize (T (Z.land x 255)). rewrite forallb_forall in T.
    apply T; apply list_elem_of_In, elem_of_seqZ.
    - pose proof (land_255 x). lia.
    - pose proof (land_255 y). lia. }
  apply andb_prop in Hall as [Hall Hhi]. apply andb_prop in Hall as [Hall Hlo].
  split; [| split].
  - apply Forall_forall. intros w Hw. rewrite forallb_forall in Hall.
    apply list_elem_of_In in Hw. apply Hall in Hw. lia.
  - lia.
  - assert (Ez : forall c, Z.land (256 * c) 255 = 0).
    { intros c. change 255 with (Z.ones 8). rewrite Z.land_ones by lia.
      change (2 ^ 8) with 256. rewrite Z.mul_comm. apply Z.mod_mul. lia. }
    assert (Es : forall c, Z.shiftr (256 * c) 8 = c).
    { intros c. rewrite Z.shiftr_div_pow2 by lia. change (2 ^ 8) with 256.
      rewrite Z.mul_comm. apply Z.div_mul. lia. }
    unfold wu_cells, wu_weights. cbv zeta. rewrite !Ez, !Es.
    change (seqZ 0 4) with [0; 1; 2; 3].
    change (WU_WEIGHT (Z.land (255 - 0) 255) (Z.land (255 - 0) 255)) with 255.
    change (WU_WEIGHT 0 (Z.land (255 - 0) 255)) with 0.
    change (WU_WEIGHT (Z.land (255 - 0) 255) 0) with 0.
    change (WU_WEIGHT 0 0) with 0.
    cbn [fmap list_fmap combine].
    change (Z.land 0 1) with 0. change (Z.land 1 1) with 1.
    change (Z.land 2 1) with 0. change (Z.land 3 1) with 1.
    change (Z.land (Z.shiftr 0 1) 1) with 0. change (Z.land (Z.shiftr 1 1) 1) with 0.
    change (Z.land (Z.shiftr 2 1) 1) with 1. change (Z.land (Z.shiftr 3 1) 1) with 1.
    rewrite !Z.add_0_r. reflexivity.
Qed.

End CircleFacts.
(** ** The frame a transition renders *)

Module TransitionMore.
Import Seg Draw Transition Scroll.

Lemma mod_up a n : - n <= a < 0 -> a mod n = a + n.
Proof. intros Ha. symmetry. apply Z.mod_unique with (q := -1); lia. Qed.

Lemma mod_down a n : n <= a < 2 * n -> a mod n = a - n.
Proof. intros Ha. symmetry. apply Z.mod_unique with (q := 1); lia. Qed.

Lemma push_pos p n :
  0 <= p <= 65535 -> 0 <= n <= 65535 ->
  to_u16 (to_u32 (p * n) / 65535) = p * n / 65535 /\ 0 <= p * n / 65535 <= n.
Proof.
  intros Hp Hn.
  assert (0 <= p * n / 65535 <= n).
  { split; [apply Z.div_pos; nia |]. apply Z.div_le_upper_bound; nia. }
  rewrite to_u32_small by nia. rewrite to_u16_small by lia. easy.
Qed.

(** Settles the comparisons of the goal from the context. *)
Ltac inside :=
  repeat match goal with
         | |- context [?a <=? ?b] => destruct (Z.leb_spec a b); try lia
         | |- context [?a <? ?b] => destruct (Z.ltb_spec a b); try lia
         end;
  cbn [andb].

(** Reduces the remainders of the goal that the context decides. *)
Ltac mods :=
  repeat match goal with
         | |- context [?a mod ?n] =>
             first [rewrite (Z.mod_small a n) by lia | rewrite (mod_up a n) by lia
                   | rewrite (mod_down a n) by lia]
         end.

(** *** A list of calls on a pixel array *)

Section Calls.

Context {S : Type} `{StripAccessor S} `{ColorOps}.
Variables (seg : Segment) (P : Frame S -> Prop).
Hypothesis HP : pixel_array seg P.

Lemma calls_closed l : forall f, P f -> P (foldl (do_call seg) f l).
Proof.
  induction l as [| w l IH]; intros f Hf; cbn [foldl]; [exact Hf |].
  apply IH. unfold do_call. now apply (pa_closed seg P HP).
Qed.

Lemma calls_miss l x y :
  forall f, P f ->
  (forall w, w ∈ l -> in_range seg (fst (fst w)) (snd (fst w))) ->
  in_range seg x y -> (x, y) ∉ (fst <$> l) ->
  getPixelColorXY seg x y (foldl (do_call seg) f l) = getPixelColorXY seg x y f.
Proof.
  induction l as [| w l IH]; intros f Hf Hin Hxy Hmiss; cbn [foldl]; [reflexivity |].
  rewrite IH.
  - unfold do_call. apply (pa_other seg P HP); [exact Hf | apply Hin; now left | exact Hxy |].
    intros E. apply Hmiss. cbn [fmap list_fmap]. rewrite <- E.
    replace (fst (fst w), snd (fst w)) with (fst w) by (now destruct (fst w)).
    now left.
  - unfold do_call. now apply (pa_closed seg P HP).
  - intros w' Hw'. apply Hin. now right.
  - exact Hxy.
  - intros Hm. apply Hmiss. cbn [fmap list_fmap]. now right.
Qed.

(** After a list of calls that gives no pixel two colours, each pixel
    written reads the colour of its call. *)
Lemma calls_get l :
  forall f, P f ->
  (forall w, w ∈ l -> in_range seg (fst (fst w)) (snd (fst w))) ->
  (forall x y c c', (x, y, c) ∈ l -> (x, y, c') ∈ l -> c = c') ->
  forall x y c, (x, y, c) ∈ l ->
  getPixelColorXY seg x y (foldl (do_call seg) f l) = c.
Proof.
  induction l as [| w l IH]; intros f Hf Hin Hfun x y c Hc; [inversion Hc |].
  cbn [foldl].
  assert (Hf1 : P (do_call seg f w)) by (unfold do_call; now apply (pa_closed seg P HP)).
  assert (Hin' : forall w', w' ∈ l -> in_range seg (fst (fst w')) (snd (fst w')))
    by (intros w' Hw'; apply Hin; now right).
  destruct (decide ((x, y) ∈ (fst <$> l))) as [Hl | Hl].
  - apply list_elem_of_fmap in Hl as ([[x' y'] c'] & E & Hw'). cbn in E.
    injection E as <- <-.
    assert (c = c') as <- by (apply (Hfun x y); [exact Hc | now right]).
    apply IH; [exact Hf1 | exact Hin' | | exact Hw'].
    intros x0 y0 c0 c1 Ha Hb. apply (Hfun x0 y0); now right.
  - apply elem_of_cons in Hc as [<- | Hc].
    + rewrite calls_miss; [| exact Hf1 | exact Hin' | | exact Hl].
      * unfold do_call. cbn [fst snd]. apply (pa_same seg P HP); [exact Hf |].
        apply (Hin (x, y, c)). now left.
      * apply (Hin (x, y, c)). now left.
    + exfalso. apply Hl. apply list_elem_of_fmap. exists (x, y, c). now split.
Qed.

End Calls.

(** *** The push styles *)

Lemma col_elem (xs ys : list Z) (src : Z -> Z -> Z) x y c :
  (x, y, c) ∈ (xs ≫= (fun x => (fun y => (x, y, src x y)) <$> ys))
  <-> x ∈ xs /\ y ∈ ys /\ c = src x y.
Proof.
  rewrite list_elem_of_bind. split.
  - intros (x' & Hy & Hx). apply list_elem_of_fmap in Hy as (y' & E & Hy).
    injection E as -> -> ->. easy.
  - intros (Hx & Hy & ->). exists x. split; [| exact Hx].
    apply list_elem_of_fmap. now exists y.
Qed.

Section Push.

Context `{ColorOps}.
Variable hashInt : Z -> Z.
Variables (tr : Snapshots) (width height : Z).
Hypothesis Hpush : is_push (transitionStyle tr) = true.
Hypothesis Hprog : 0 <= progress tr <= 65535.
Hypothesis Hw : 1 <= width <= 65535.
Hypothesis Hh : 1 <= height <= 65535.

(** The calls of a push style: one for each cell, with the colour of the
    scrolled pair of frames. *)
Lemma push_calls_elem x y c :
  (x, y, c) ∈ push_calls tr width height
  <-> 0 <= x < width /\ 0 <= y < height /\ c = scrolled tr width height x y.
Proof.
  destruct (push_pos (progress tr) width Hprog ltac:(lia)) as [Efw Hfw].
  destruct (push_pos (progress tr) height Hprog ltac:(lia)) as [Efh Hfh].
  destruct (push_pos (65535 - progress tr) width ltac:(lia) ltac:(lia)) as [Ebw Hbw].
  destruct (push_pos (65535 - progress tr) height ltac:(lia) ltac:(lia)) as [Ebh Hbh].
  assert (Eu : to_u32 (65535 - progress tr) = 65535 - progress tr)
    by (apply to_u32_small; lia).
  unfold push_calls, scrolled, push_shift, outgoing, incoming.
  destruct (transitionStyle tr); try discriminate Hpush; cbv zeta; cbn [fst snd];
    rewrite ?Eu, ?Efw, ?Efh, ?Ebw, ?Ebh;
    rewrite elem_of_app, !col_elem, !elem_of_seqZ, ?Z.sub_0_r.
  - set (pos := progress tr * width / 65535) in *. clearbody pos.
    split.
    + intros [(Hx & Hy & ->) | (Hx & Hy & ->)]; (split; [lia | split; [lia |]]);
        inside; mods; reflexivity.
    + intros (Hx & Hy & ->). destruct (Z.lt_ge_cases x pos); [right | left];
        (split; [lia | split; [lia |]]);
        inside; mods; reflexivity.
  - set (pos := (65535 - progress tr) * width / 65535) in *. clearbody pos.
    split.
    + intros [(Hx & Hy & ->) | (Hx & Hy & ->)]; (split; [lia | split; [lia |]]);
        inside; mods; f_equal; lia.
    + intros (Hx & Hy & ->). destruct (Z.lt_ge_cases x pos); [left | right];
        (split; [lia | split; [lia |]]);
        inside; mods; f_equal; lia.
  - set (pos := (65535 - progress tr) * height / 65535) in *. clearbody pos.
    split.
    + intros [(Hx & Hy & ->) | (Hx & Hy & ->)]; (split; [lia | split; [lia |]]);
        inside; mods; f_equal; lia.
    + intros (Hx & Hy & ->). destruct (Z.lt_ge_cases y pos); [left | right];
        (split; [lia | split; [lia |]]);
        inside; mods; f_equal; lia.
  - set (pos := progress tr * height / 65535) in *. clearbody pos.
    split.
    + intros [(Hx & Hy & ->) | (Hx & Hy & ->)]; (split; [lia | split; [lia |]]);
        inside; mods; reflexivity.
    + intros (Hx & Hy & ->). destruct (Z.lt_ge_cases y pos); [right | left];
        (split; [lia | split; [lia |]]);
        inside; mods; reflexivity.
Qed.

End Push.

(** *** The rendered frame *)

Lemma cells_elem width height x y :
  (x, y) ∈ cells width height <-> 0 <= x < width /\ 0 <= y < height.
Proof.
  unfold cells. rewrite list_elem_of_bind. split.
  - intros (x' & Hy & Hx). apply list_elem_of_fmap in Hy as (y' & E & Hy).
    injection E as -> ->. apply elem_of_seqZ in Hx, Hy. lia.
  - intros (Hx & Hy). exists x. split; [| apply elem_of_seqZ; lia].
    apply list_elem_of_fmap. exists y. split; [reflexivity | apply elem_of_seqZ; lia].
Qed.

Lemma scrolled_start tr width height x y :
  progress tr = 0 -> 0 <= x < width -> 0 <= y < height ->
  scrolled tr width height x y = rd (outgoing tr) (y * width + x).
Proof.
  intros Hp Hx Hy. unfold scrolled, push_shift. rewrite Hp. cbv zeta.
  assert (E : forall n, (65535 - 0) * n / 65535 - n = 0).
  { intros n. rewrite Z.mul_comm, Z.div_mul by lia. lia. }
  destruct (transitionStyle tr); cbn [fst snd];
    rewrite ?E; change (0 * width / 65535) with 0; change (0 * height / 65535) with 0;
    rewrite ?Z.sub_0_r; inside; mods; reflexivity.
Qed.

Lemma scrolled_end tr width height x y :
  is_push (transitionStyle tr) = true ->
  progress tr = 65535 -> 0 <= x < width -> 0 <= y < height ->
  scrolled tr width height x y = rd (incoming tr) (y * width + x).
Proof.
  intros Hs Hp Hx Hy. unfold scrolled, push_shift. rewrite Hp. cbv zeta.
  assert (E : forall n, 65535 * n / 65535 = n).
  { intros n. rewrite Z.mul_comm, Z.div_mul by lia. lia. }
  destruct (transitionStyle tr); try discriminate Hs; cbn [fst snd];
    rewrite ?E; change ((65535 - 65535) * width / 65535) with 0;
    change ((65535 - 65535) * height / 65535) with 0;
    rewrite ?Z.sub_0_r; inside; mods; f_equal; lia.
Qed.

(** At [progress() = 0] every threshold keeps the old colour. *)
Lemma cell_colour_start `{ColorOps} (hashInt : Z -> Z) tr width height x y :
  transitionStyle tr <> TRANSITION_STYLE_FADE ->
  is_push (transitionStyle tr) = false -> progress tr = 0 ->
  2 <= width <= 65535 -> height <> 0 -> to_u32 (virtualLength tr) <> 0 ->
  cell_colour hashInt tr width height x y = Some (rd (buffer2 tr) (y * width + x)).
Proof.
  intros Hfade Hpush Hp Hw Hh Hlen.
  destruct (is_swipe (transitionStyle tr)) eqn:Hs.
  - destruct (TransitionFacts.swipe_pos_defined (transitionStyle tr) width height x y
                Hs Hw Hh) as [pos Hpos].
    rewrite (TransitionFacts.cell_colour_swipe hashInt tr width height x y pos Hs Hpos).
    rewrite Hp.
    assert (0 <= pos).
    { unfold swipe_pos in Hpos.
      destruct (transitionStyle tr); try discriminate Hs;
        destruct (c_div _ _) as [q |]; try discriminate Hpos;
        cbn in Hpos; injection Hpos as <-; apply to_u16_range. }
    destruct (Z.leb_spec 0 pos); [reflexivity | lia].
  - unfold cell_colour. rewrite Hs.
    destruct (transitionStyle tr); try discriminate Hs; try discriminate Hpush;
      [contradiction |].
    unfold fairy_pos, c_mod, c_div.
    destruct (Z.eqb_spec (to_u32 (virtualLength tr)) 0); [contradiction |].
    cbn [mbind option_bind]. rewrite Hp.
    match goal with |- context [0 <=? to_u16 ?q] =>
      pose proof (to_u16_range q); destruct (Z.leb_spec 0 (to_u16 q)); [reflexivity | lia]
    end.
Qed.

(** At [progress() = 0xFFFF] the thresholds of the swipes to the right and
    downwards are all passed. *)
Lemma cell_colour_end `{ColorOps} (hashInt : Z -> Z) tr width height x y :
  transitionStyle tr = TRANSITION_STYLE_SWIPE_RIGHT
  \/ transitionStyle tr = TRANSITION_STYLE_SWIPE_DOWN ->
  progress tr = 65535 ->
  0 <= x < width -> 0 <= y < height -> width <= 65535 -> height <= 65535 ->
  cell_colour hashInt tr width height x y = Some (rd (buffer1 tr) (y * width + x)).
Proof.
  intros Hst Hp Hx Hy Hw Hh. unfold cell_colour.
  assert (Hq : forall a n, 0 <= a < n -> n <= 65535 ->
            to_u16 (to_u32 (a * 65535) / n) < 65535).
  { intros a n Ha Hn. rewrite to_u32_small by nia.
    assert (0 <= a * 65535 / n < 65535).
    { split; [apply Z.div_pos; nia | apply Z.div_lt_upper_bound; nia]. }
    rewrite to_u16_small by lia. lia. }
  destruct Hst as [-> | ->]; cbn [is_swipe swipe_pos]; unfold c_div.
  - destruct (Z.eqb_spec width 0); [lia |]. cbn [mbind option_bind]. rewrite Hp.
    pose proof (Hq x width Hx Hw).
    destruct (Z.leb_spec 65535 (to_u16 (to_u32 (x * 65535) / width))); [lia | reflexivity].
  - destruct (Z.eqb_spec height 0); [lia |]. cbn [mbind option_bind]. rewrite Hp.
    pose proof (Hq y height Hy Hh).
    destruct (Z.leb_spec 65535 (to_u16 (to_u32 (y * 65535) / height))); [lia | reflexivity].
Qed.

Lemma cell_colour_defined `{ColorOps} (hashInt : Z -> Z) tr width height x y :
  transitionStyle tr = TRANSITION_STYLE_SWIPE_RIGHT
  \/ transitionStyle tr = TRANSITION_STYLE_SWIPE_DOWN ->
  width <> 0 -> height <> 0 ->
  is_Some (cell_colour hashInt tr width height x y).
Proof.
  intros Hst Hw Hh. unfold cell_colour.
  destruct Hst as [-> | ->]; cbn [is_swipe swipe_pos]; unfold c_div.
  - destruct (Z.eqb_spec width 0); [lia |]. cbn [mbind option_bind]. now eexists.
  - destruct (Z.eqb_spec height 0); [lia |]. cbn [mbind option_bind]. now eexists.
Qed.

Section Rendered.

Context {S : Type} `{StripAccessor S} `{ColorOps}.
Variable hashInt : Z -> Z.
Variables (seg : Segment) (P : Frame S -> Prop).
Hypothesis HP : pixel_array seg P.
Variables (tr : Snapshots) (f : Frame S).
Hypothesis Hf : P f.

(** A push style renders the scrolled pair of frames. *)
Lemma render_push :
  is_push (transitionStyle tr) = true -> 0 <= progress tr <= 65535 ->
  1 <= virtualWidth seg <= 65535 -> 1 <= virtualHeight seg <= 65535 ->
  exists f', render2DTransition hashInt seg tr f = Some f'
    /\ P f'
    /\ forall x y, in_range seg x y ->
         getPixelColorXY seg x y f'
         = scrolled tr (virtualWidth seg) (virtualHeight seg) x y.
Proof.
  intros Hs Hp Hw Hh. unfold render2DTransition. cbv zeta. rewrite Hs.
  eexists. split; [reflexivity |].
  assert (Hf0 : P (foldl (do_call seg) f
                     (fill_calls (virtualWidth seg) (virtualHeight seg) BLACK)))
    by (now apply calls_closed with (P := P)).
  split; [now apply calls_closed with (P := P) |].
  intros x y Hin.
  apply calls_get with (P := P); [exact HP | exact Hf0 | | |].
  - intros [[x' y'] c] Hc. apply push_calls_elem in Hc; trivial.
    destruct Hc as (Hx & Hy & _). split; assumption.
  - intros x0 y0 c c' Hc Hc'. apply push_calls_elem in Hc, Hc'; trivial.
    destruct Hc as (_ & _ & ->), Hc' as (_ & _ & ->). reflexivity.
  - apply push_calls_elem; trivial. destruct Hin. easy.
Qed.

(** The other styles render the colour of each cell. *)
Lemma render_aligned :
  is_push (transitionStyle tr) = false ->
  (forall x y, is_Some (cell_colour hashInt tr (virtualWidth seg) (virtualHeight seg) x y)) ->
  exists f', render2DTransition hashInt seg tr f = Some f'
    /\ P f'
    /\ forall x y c, in_range seg x y ->
         cell_colour hashInt tr (virtualWidth seg) (virtualHeight seg) x y = Some c ->
         getPixelColorXY seg x y f' = c.
Proof.
  intros Hs Hall. unfold render2DTransition. cbv zeta. rewrite Hs.
  destruct (aligned_calls hashInt tr (virtualWidth seg) (virtualHeight seg))
    as [calls |] eqn:Ec.
  2:{ exfalso. assert (Hn : is_Some (aligned_calls hashInt tr (virtualWidth seg)
                                        (virtualHeight seg))).
      { unfold aligned_calls. apply mapM_is_Some. apply Forall_forall.
        intros xy _. cbn. destruct (Hall (fst xy) (snd xy)) as [c ->]. now eexists. }
      rewrite Ec in Hn. now destruct Hn. }
  destruct (TransitionFacts.aligned_calls_cells hashInt tr _ _ calls Ec) as [Hcells Hcol].
  cbn [mbind option_bind]. eexists. split; [reflexivity |].
  assert (Hf0 : P (foldl (do_call seg) f
                     (fill_calls (virtualWidth seg) (virtualHeight seg) BLACK)))
    by (now apply calls_closed with (P := P)).
  split; [now apply calls_closed with (P := P) |].
  intros x y c Hin Hc.
  apply calls_get with (P := P); [exact HP | exact Hf0 | | |].
  - intros w Hw. assert (Hc' : fst w ∈ cells (virtualWidth seg) (virtualHeight seg)).
    { rewrite <- Hcells. apply list_elem_of_fmap. now exists w. }
    destruct w as [[x' y'] c']. apply cells_elem in Hc'. exact Hc'.
  - intros x0 y0 c0 c1 Ha Hb. apply Hcol in Ha, Hb. congruence.
  - assert (Hxy : (x, y) ∈ fst <$> calls).
    { rewrite Hcells. apply cells_elem. exact Hin. }
    apply list_elem_of_fmap in Hxy as ([[x' y'] c'] & E & Hw). cbn in E.
    injection E as <- <-. pose proof (Hcol _ _ _ Hw) as Hc'.
    assert (c' = c) as <- by congruence. exact Hw.
Qed.

End Rendered.

(** X17: on a pixel array, under the four push styles
    [render2DTransition] shows the old
    frame displaced along the direction of the push, by
    [progress() * size / 0xFFFF] cells to the right or down and by
    [size - (0xFFFF - progress()) * size / 0xFFFF] cells to the left or
    up, and the new frame on the cells the old one has left; each pixel is
    read from inside its buffer. *)
Theorem X17_push_renders_scrolled_frames {S : Type} `{StripAccessor S} `{ColorOps}
    (hashInt : Z -> Z) (seg : Segment) (P : Frame S -> Prop)
    (tr : Snapshots) (f : Frame S) :
  pixel_array seg P -> P f ->
  is_push (transitionStyle tr) = true -> 0 <= progress tr <= 65535 ->
  1 <= virtualWidth seg <= 65535 -> 1 <= virtualHeight seg <= 65535 ->
  exists f', render2DTransition hashInt seg tr f = Some f'
    /\ forall x y, in_range seg x y ->
         getPixelColorXY seg x y f'
         = scrolled tr (virtualWidth seg) (virtualHeight seg) x y
         /\ exists i, 0 <= i < virtualWidth seg * virtualHeight seg
              /\ (getPixelColorXY seg x y f' = rd (outgoing tr) i
                  \/ getPixelColorXY seg x y f' = rd (incoming tr) i).
Proof.
  intros HP Hf Hs Hp Hw Hh.
  destruct (render_push hashInt seg P HP tr f Hf Hs Hp Hw Hh) as (f' & E & _ & Hget).
  exists f'. split; [exact E |]. intros x y Hin. split; [now apply Hget |].
  rewrite (Hget x y Hin). unfold scrolled. cbv zeta.
  set (dx := fst (push_shift tr (virtualWidth seg) (virtualHeight seg))).
  set (dy := snd (push_shift tr (virtualWidth seg) (virtualHeight seg))).
  exists ((y - dy) mod virtualHeight seg * virtualWidth seg
          + (x - dx) mod virtualWidth seg).
  split.
  - pose proof (Z.mod_pos_bound (y - dy) (virtualHeight seg) ltac:(lia)).
    pose proof (Z.mod_pos_bound (x - dx) (virtualWidth seg) ltac:(lia)). nia.
  - destruct (_ && _); [now left | now right].
Qed.

Lemma X17_push_renders_scrolled_frames_witness :
  exists f', render2DTransition (fun s => s) small_seg push_third six_pixels = Some f'
    /\ forall x y, in_range small_seg x y ->
         getPixelColorXY small_seg x y f'
         = scrolled push_third (virtualWidth small_seg) (virtualHeight small_seg) x y
         /\ exists i, 0 <= i < virtualWidth small_seg * virtualHeight small_seg
              /\ (getPixelColorXY small_seg x y f' = rd (outgoing push_third) i
                  \/ getPixelColorXY small_seg x y f' = rd (incoming push_third) i).
Proof.
  apply (X17_push_renders_scrolled_frames (fun s => s) small_seg (buffered small_seg)
           push_third six_pixels).
  - apply MoveFacts.buffered_pixel_array; [reflexivity | reflexivity | cbn; lia | cbn; lia].
  - exists [10; 11; 12; 13; 14; 15]. split; [reflexivity | cbn; lia].
  - reflexivity.
  - cbn. lia.
  - cbn. lia.
  - cbn. lia.
Defined.

(** X18: on a pixel array, at [progress() = 0] every style but the fade
    renders the old frame, each pixel from its own index, on a segment at
    least two logical pixels wide (and for a non-zero [virtualLength()],
    which fairy dust divides by). *)
Theorem X18_transition_starts_with_old_frame {S : Type} `{StripAccessor S} `{ColorOps}
    (hashInt : Z -> Z) (seg : Segment) (P : Frame S -> Prop)
    (tr : Snapshots) (f : Frame S) :
  pixel_array seg P -> P f ->
  transitionStyle tr <> TRANSITION_STYLE_FADE -> progress tr = 0 ->
  2 <= virtualWidth seg <= 65535 -> 1 <= virtualHeight seg <= 65535 ->
  to_u32 (virtualLength tr) <> 0 ->
  exists f', render2DTransition hashInt seg tr f = Some f'
    /\ forall x y, in_range seg x y ->
         getPixelColorXY seg x y f' = rd (outgoing tr) (y * virtualWidth seg + x).
Proof.
  intros HP Hf Hfade Hp Hw Hh Hlen.
  destruct (is_push (transitionStyle tr)) eqn:Hs.
  - destruct (render_push hashInt seg P HP tr f Hf Hs ltac:(lia) ltac:(lia) Hh)
      as (f' & E & _ & Hget).
    exists f'. split; [exact E |]. intros x y Hin. rewrite (Hget x y Hin).
    destruct Hin. now apply scrolled_start.
  - assert (Hc : forall x y,
              cell_colour hashInt tr (virtualWidth seg) (virtualHeight seg) x y
              = Some (rd (buffer2 tr) (y * virtualWidth seg + x))).
    { intros x y. apply cell_colour_start; trivial. lia. }
    destruct (render_aligned hashInt seg P HP tr f Hf Hs) as (f' & E & _ & Hget).
    { intros x y. rewrite Hc. now eexists. }
    exists f'. split; [exact E |]. intros x y Hin. now apply Hget.
Qed.

Lemma X18_transition_starts_with_old_frame_witness :
  exists f', render2DTransition (fun s => s) small_seg swipe_left_start six_pixels = Some f'
    /\ forall x y, in_range small_seg x y ->
         getPixelColorXY small_seg x y f'
         = rd (outgoing swipe_left_start) (y * virtualWidth small_seg + x).
Proof.
  apply (X18_transition_starts_with_old_frame (fun s => s) small_seg (buffered small_seg)
           swipe_left_start six_pixels).
  - apply MoveFacts.buffered_pixel_array; [reflexivity | reflexivity | cbn; lia | cbn; lia].
  - exists [10; 11; 12; 13; 14; 15]. split; [reflexivity | cbn; lia].
  - discriminate.
  - reflexivity.
  - cbn. lia.
  - cbn. lia.
  - discriminate.
Defined.

(** X19: on a pixel array, at [progress() = 0xFFFF] the four push styles
    and the swipes to the right and downwards render the new frame, each
    pixel from its own index. *)
Theorem X19_transition_ends_with_new_frame {S : Type} `{StripAccessor S} `{ColorOps}
    (hashInt : Z -> Z) (seg : Segment) (P : Frame S -> Prop)
    (tr : Snapshots) (f : Frame S) :
  pixel_array seg P -> P f ->
  is_push (transitionStyle tr) = true
  \/ transitionStyle tr = TRANSITION_STYLE_SWIPE_RIGHT
  \/ transitionStyle tr = TRANSITION_STYLE_SWIPE_DOWN ->
  progress tr = 65535 ->
  1 <= virtualWidth seg <= 65535 -> 1 <= virtualHeight seg <= 65535 ->
  exists f', render2DTransition hashInt seg tr f = Some f'
    /\ forall x y, in_range seg x y ->
         getPixelColorXY seg x y f' = rd (incoming tr) (y * virtualWidth seg + x).
Proof.
  intros HP Hf Hst Hp Hw Hh.
  destruct Hst as [Hs | Hst].
  - destruct (render_push hashInt seg P HP tr f Hf Hs ltac:(lia) Hw Hh)
      as (f' & E & _ & Hget).
    exists f'. split; [exact E |]. intros x y Hin. rewrite (Hget x y Hin).
    destruct Hin. now apply scrolled_end.
  - assert (Hs : is_push (transitionStyle tr) = false)
      by (destruct Hst as [-> | ->]; reflexivity).
    destruct (render_aligned hashInt seg P HP tr f Hf Hs) as (f' & E & _ & Hget).
    { intros x y. apply cell_colour_defined; [exact Hst | lia | lia]. }
    exists f'. split; [exact E |]. intros x y Hin. apply Hget; [exact Hin |].
    destruct Hin. apply cell_colour_end; trivial; lia.
Qed.

Lemma X19_transition_ends_with_new_frame_witness :
  exists f', render2DTransition (fun s => s) small_seg push_up_end six_pixels = Some f'
    /\ forall x y, in_range small_seg x y ->
         getPixelColorXY small_seg x y f'
         = rd (incoming push_up_end) (y * virtualWidth small_seg + x).
Proof.
  apply (X19_transition_ends_with_new_frame (fun s => s) small_seg (buffered small_seg)
           push_up_end six_pixels).
  - apply MoveFacts.buffered_pixel_array; [reflexivity | reflexivity | cbn; lia | cbn; lia].
  - exists [10; 11; 12; 13; 14; 15]. split; [reflexivity | cbn; lia].
  - left. reflexivity.
  - reflexivity.
  - cbn. lia.
  - cbn. lia.
Defined.

End TransitionMore.

(** ** Scaling every pixel *)

Module ScaleFacts.
Import Seg Draw Scale.

Lemma rows_then_cols_elem cols rows x y :
  (x, y) ∈ rows_then_cols cols rows <-> 0 <= x < cols /\ 0 <= y < rows.
Proof.
  unfold rows_then_cols. rewrite list_elem_of_bind. split.
  - intros (y' & Hx & Hy). apply list_elem_of_fmap in Hx as (x' & E & Hx).
    injection E as -> ->. apply elem_of_seqZ in Hx, Hy. lia.
  - intros (Hx & Hy). exists y. split; [| apply elem_of_seqZ; lia].
    apply list_elem_of_fmap. exists x. split; [reflexivity | apply elem_of_seqZ; lia].
Qed.

Lemma rows_then_cols_NoDup cols rows : NoDup (rows_then_cols cols rows).
Proof.
  unfold rows_then_cols. apply NoDup_bind.
  - intros y1 y2 p _ _ H1 H2.
    apply list_elem_of_fmap in H1 as (x1 & -> & _).
    apply list_elem_of_fmap in H2 as (x2 & E & _). now injection E.
  - intros y _. apply NoDup_fmap_2; [| apply NoDup_seqZ].
    intros x1 x2 E. now injection E.
  - apply NoDup_seqZ.
Qed.

Section InPlace.

Context {S : Type} `{StripAccessor S} `{ColorOps}.
Variables (seg : Segment) (P : Frame S -> Prop).
Hypothesis HP : pixel_array seg P.
Variable g : Z -> Z.

(** Replacing the pixels of [l] one after the other by [g] of their
    colour. *)
Lemma map_in_place l :
  NoDup l -> (forall q, q ∈ l -> in_range seg (fst q) (snd q)) ->
  forall f, P f ->
  let f' := foldl (fun f xy =>
                     setPixelColorXY seg (fst xy) (snd xy)
                       (g (getPixelColorXY seg (fst xy) (snd xy) f)) f) f l in
  P f'
  /\ forall x y, in_range seg x y ->
       getPixelColorXY seg x y f'
       = if decide ((x, y) ∈ l) then g (getPixelColorXY seg x y f)
         else getPixelColorXY seg x y f.
Proof.
  induction l as [| q l IH]; intros Hnd Hin f Hf; cbv zeta.
  - cbn [foldl]. split; [exact Hf |]. intros x y _.
    destruct (decide ((x, y) ∈ [])) as [Hd | _]; [inversion Hd | reflexivity].
  - cbn [foldl]. apply NoDup_cons in Hnd as [Hq Hnd].
    set (f1 := setPixelColorXY seg (fst q) (snd q)
                 (g (getPixelColorXY seg (fst q) (snd q) f)) f).
    assert (Hf1 : P f1) by (now apply (pa_closed seg P HP)).
    assert (Hq' : in_range seg (fst q) (snd q)) by (apply Hin; now left).
    destruct (IH Hnd (fun q' Hq'' => Hin q' (list_elem_of_further _ _ _ Hq'')) f1 Hf1)
      as [HP' Hget].
    split; [exact HP' |]. intros x y Hxy. rewrite (Hget x y Hxy).
    destruct (decide ((x, y) = q)) as [<- | Hne].
    + destruct (decide ((x, y) ∈ l)) as [Hl | _]; [contradiction |].
      destruct (decide ((x, y) ∈ (x, y) :: l)) as [_ | Hn]; [| exfalso; apply Hn; now left].
      apply (pa_same seg P HP); [exact Hf | exact Hxy].
    + assert (E : getPixelColorXY seg x y f1 = getPixelColorXY seg x y f).
      { apply (pa_other seg P HP); [exact Hf | exact Hq' | exact Hxy |].
        intros E. apply Hne. rewrite <- E. now destruct q. }
      rewrite E.
      destruct (decide ((x, y) ∈ l)) as [Hl | Hl];
        destruct (decide ((x, y) ∈ q :: l)) as [Hl' | Hl']; try reflexivity.
      * exfalso. apply Hl'. now right.
      * apply elem_of_cons in Hl' as [Hl' | Hl']; contradiction.
Qed.

End InPlace.

(** X20: on a pixel array, [nscale8] gives every pixel of an active
    segment the scaled value of the colour that pixel had before the call;
    no pixel is scaled twice or from another pixel's colour. *)
Theorem X20_nscale8_scales_each_pixel_once {S : Type} `{StripAccessor S} `{ColorOps}
    (crgb_nscale8 : Z -> Z -> Z) (seg : Segment) (P : Frame S -> Prop)
    (scale : Z) (f : Frame S) (x y : Z) :
  pixel_array seg P -> P f -> isActive seg = true -> in_range seg x y ->
  P (nscale8 crgb_nscale8 seg scale f)
  /\ getPixelColorXY seg x y (nscale8 crgb_nscale8 seg scale f)
     = crgb_nscale8 (getPixelColorXY seg x y f) scale.
Proof.
  intros HP Hf Hact Hin. unfold nscale8. rewrite Hact. cbn [negb]. cbv zeta.
  destruct (map_in_place seg P HP (fun c => crgb_nscale8 c scale)
              (rows_then_cols (virtualWidth seg) (virtualHeight seg))
              (rows_then_cols_NoDup _ _)) with (f := f) as [HP' Hget].
  - intros [x' y'] Hq. apply rows_then_cols_elem in Hq. exact Hq.
  - exact Hf.
  - split; [exact HP' |]. rewrite (Hget x y Hin).
    destruct (decide _) as [_ | Hn]; [reflexivity |].
    exfalso. apply Hn. apply rows_then_cols_elem. exact Hin.
Qed.

Lemma X20_nscale8_scales_each_pixel_once_witness :
  buffered small_seg (nscale8 scale_whole small_seg 128 six_pixels)
  /\ getPixelColorXY small_seg 2 1 (nscale8 scale_whole small_seg 128 six_pixels)
     = scale_whole (getPixelColorXY small_seg 2 1 six_pixels) 128.
Proof.
  apply (X20_nscale8_scales_each_pixel_once scale_whole small_seg (buffered small_seg)
           128 six_pixels 2 1).
  - apply MoveFacts.buffered_pixel_array; [reflexivity | reflexivity | cbn; lia | cbn; lia].
  - exists [10; 11; 12; 13; 14; 15]. split; [reflexivity | cbn; lia].
  - reflexivity.
  - unfold in_range. cbn. lia.
Defined.

End ScaleFacts.
